(** * Turbo: variable store, model builder and driver configuration

    A shallow embedding of the interval store ([VStore], in its two
    versions), of the XCSP3 model builder ([ModelBuilder]), of the
    default driver [Configuration] and of the [Statistics], followed by
    the properties that the specification states about them and by
    further properties read off the code.

    Machine integers ([int], [Var]) are integers of [Z]; the arithmetic
    of the program is written with its 32-bit wrap-around.  An array
    access outside the array is undefined in the program: the store
    operations return [None] there. *)

From Stdlib Require Import ZArith Lia String Ascii.
From stdpp Require Import base option list.

Open Scope Z_scope.

Set Warnings "-register-all".

(** ** Machine integers (cuda_helper.hpp: limit_min, limit_max, min, max) *)

Module Int.

Definition INT_MAX : Z := 2147483647.

Definition limit_min : Z := - INT_MAX - 1.
Definition limit_max : Z := INT_MAX.

Definition in_range (z : Z) : Prop := limit_min <= z <= limit_max.

(** Two's complement wrap-around of a 32-bit signed integer. *)
Definition wrap (z : Z) : Z := (z + 2 ^ 31) mod 2 ^ 32 - 2 ^ 31.

Definition neg (a : Z) : Z := wrap (- a).
Definition add (a b : Z) : Z := wrap (a + b).
Definition sub (a b : Z) : Z := wrap (a - b).
(** [/] and [%] of C++ truncate toward zero.  They have no value when
    the divisor is 0 and when the quotient is not an [int], which is
    [INT_MIN / -1]: [div_defined] tells where they have one, and the
    code that divides asks it before it uses [div] or [rem]. *)
Definition div_defined (a b : Z) : bool :=
  negb (b =? 0) && negb ((a =? limit_min) && (b =? -1)).
Definition div (a b : Z) : Z := wrap (Z.quot a b).
Definition rem (a b : Z) : Z := wrap (Z.rem a b).

Definition min (a b : Z) : Z := if a <=? b then a else b.
Definition max (a b : Z) : Z := if a >=? b then a else b.

End Int.

(** ** Intervals

    Both versions of the store keep a pair of [int] bounds: public
    fields [lb], [ub] in vstore.cuh, atomic cells read by [lb()] and
    [ub()] in the later version. *)

Record Interval : Type := mkInterval { lb : Z; ub : Z }.

Definition Var : Type := Z.

Module Itv.

(** [Interval()] *)
Definition default : Interval := mkInterval Int.limit_min Int.limit_max.

Definition store_lb (new_lb : Z) (i : Interval) : Interval :=
  mkInterval new_lb (ub i).

Definition store_ub (new_ub : Z) (i : Interval) : Interval :=
  mkInterval (lb i) new_ub.

Definition is_assigned (i : Interval) : bool := lb i =? ub i.

Definition is_top (i : Interval) : bool := lb i >? ub i.

Definition neg (i : Interval) : Interval :=
  mkInterval (Int.neg (ub i)) (Int.neg (lb i)).

Definition join (a b : Interval) : Interval :=
  mkInterval (Int.max (lb a) (lb b)) (Int.min (ub a) (ub b)).

Definition eqb (a b : Interval) : bool :=
  (lb a =? lb b) && (ub a =? ub b).

(** [operator!=] *)
Definition neqb (a b : Interval) : bool :=
  negb (lb a =? lb b) || negb (ub a =? ub b).

(** [operator==(int x)] *)
Definition eq_int (a : Interval) (x : Z) : bool := (lb a =? x) && (ub a =? x).

(** The integers that an interval stands for. *)
Definition contains (a : Interval) (z : Z) : Prop := lb a <= z <= ub a.

End Itv.

(** ** The store with a top flag (class VStore, atomic bounds) *)

Module TopStore.

Record VStore : Type := mkVStore { data : list Interval; top : bool }.

Definition size (s : VStore) : nat := length (data s).

(** [data[i]]: defined inside the array only. *)
Definition at_ (s : VStore) (i : Var) : option Interval :=
  if 0 <=? i then data s !! Z.to_nat i else None.

Definition write (i : Var) (itv : Interval) (s : VStore) : VStore :=
  mkVStore (<[Z.to_nat i := itv]> (data s)) (top s).

(** Modelled from the spec: memory.hpp, which declares [Array], is not
    among the sources.  [Array<Interval>(n)] holds [n] intervals built by
    [Interval()], that is [(INT_MIN, INT_MAX)]. *)
Definition Array_new (n : nat) : list Interval := replicate n Itv.default.

(** Modelled from the spec: memory.hpp, which declares [Array], is not
    among the sources.  The copy of an array has its length and its
    elements (a structural copy). *)
Definition Array_copy (a : list Interval) : list Interval := a.

(** [VStore(int nvar)] *)
Definition new (nvar : nat) : VStore := mkVStore (Array_new nvar) false.

(** [VStore(const VStore& other)]: the array is copied, the flag is
    initialised to [false]. *)
Definition clone (other : VStore) : VStore := mkVStore (Array_copy (data other)) false.

Definition is_top (s : VStore) : bool := top s.

(** [is_top(Var x)] *)
Definition is_top_var (s : VStore) (x : Var) : option bool :=
  Itv.is_top <$> at_ s x.

(** The loop of [reset]: slot [i] receives the bounds of [other]'s slot [i]. *)
Definition reset_step (other : VStore) (d : list Interval) (i : nat) : list Interval :=
  match data other !! i with
  | Some o => <[i := mkInterval (lb o) (ub o)]> d
  | None => d
  end.

(** [reset(other)]; the assertion on the sizes fails with [None]. *)
Definition reset (other : VStore) (s : VStore) : option VStore :=
  if Nat.eqb (size s) (size other) then
    Some (mkVStore (foldl (reset_step other) (data s) (seq 0 (size s)))
                   (is_top other))
  else None.

Definition all_assigned (s : VStore) : bool :=
  forallb Itv.is_assigned (data s).

Definition update_top (x : Var) (s : VStore) : option VStore :=
  itv ← at_ s x;
  Some (if Itv.is_top itv then mkVStore (data s) true else s).

Definition dom (x : Var) (itv : Interval) (s : VStore) : option VStore :=
  old ← at_ s x;
  let s1 := write x (Itv.store_lb (lb itv) old) s in
  old1 ← at_ s1 x;
  let s2 := write x (Itv.store_ub (ub itv) old1) s1 in
  update_top x s2.

Definition update_lb (i : Var) (new_lb : Z) (s : VStore) : option (bool * VStore) :=
  old ← at_ s i;
  if lb old <? new_lb then
    s' ← update_top i (write i (Itv.store_lb new_lb old) s);
    Some (true, s')
  else Some (false, s).

Definition update_ub (i : Var) (new_ub : Z) (s : VStore) : option (bool * VStore) :=
  old ← at_ s i;
  if ub old >? new_ub then
    s' ← update_top i (write i (Itv.store_ub new_ub old) s);
    Some (true, s')
  else Some (false, s).

Definition update (i : Var) (itv : Interval) (s : VStore) : option (bool * VStore) :=
  '(c1, s1) ← update_lb i (lb itv) s;
  '(c2, s2) ← update_ub i (ub itv) s1;
  Some (c1 || c2, s2).

Definition assign (i : Var) (v : Z) (s : VStore) : option (bool * VStore) :=
  update i (mkInterval v v) s.

(** [lb(Var i)], [ub(Var i)] *)
Definition lb_of (s : VStore) (i : Var) : option Z := lb <$> at_ s i.
Definition ub_of (s : VStore) (i : Var) : option Z := ub <$> at_ s i.

(** The calls that change a store, and sequences of them. *)
Inductive Op : Type :=
| OpDom (x : Var) (itv : Interval)
| OpUpdateLb (i : Var) (new_lb : Z)
| OpUpdateUb (i : Var) (new_ub : Z)
| OpUpdate (i : Var) (itv : Interval)
| OpAssign (i : Var) (v : Z).

Definition run_op (o : Op) (s : VStore) : option VStore :=
  match o with
  | OpDom x itv => dom x itv s
  | OpUpdateLb i n => snd <$> update_lb i n s
  | OpUpdateUb i n => snd <$> update_ub i n s
  | OpUpdate i itv => snd <$> update i itv s
  | OpAssign i v => snd <$> assign i v s
  end.

Fixpoint run_ops (os : list Op) (s : VStore) : option VStore :=
  match os with
  | [] => Some s
  | o :: os' => s' ← run_op o s; run_ops os' s'
  end.

(** The narrowing calls: every call but [dom]. *)
Definition is_update (o : Op) : bool :=
  match o with OpDom _ _ => false | _ => true end.

Definition op_var (o : Op) : Var :=
  match o with
  | OpDom x _ => x
  | OpUpdateLb i _ | OpUpdateUb i _ | OpUpdate i _ | OpAssign i _ => i
  end.

(** Whether the call writes a bound: [dom] always does, the narrowing
    calls when they return [true]. *)
Definition writes (o : Op) (s : VStore) : option bool :=
  match o with
  | OpDom x _ => (fun _ => true) <$> at_ s x
  | OpUpdateLb i n => fst <$> update_lb i n s
  | OpUpdateUb i n => fst <$> update_ub i n s
  | OpUpdate i itv => fst <$> update i itv s
  | OpAssign i v => fst <$> assign i v s
  end.

(** [s'] is [s] with some bounds tightened: same size, every lower bound
    at least what it was, every upper bound at most what it was. *)
Definition narrows (s s' : VStore) : Prop :=
  size s' = size s /\
  forall (v : Var) (itv : Interval), at_ s v = Some itv ->
    exists itv', at_ s' v = Some itv' /\ lb itv <= lb itv' /\ ub itv' <= ub itv.

(** Slot [v] agrees with the flag: if it is empty, the flag is raised. *)
Definition flag_covers (s : VStore) (v : Var) : Prop :=
  forall itv, at_ s v = Some itv -> Itv.is_top itv = true -> is_top s = true.

End TopStore.

(** ** The store with negated views (struct VStore of vstore.cuh)

    A variable with a negative index represents the negation [-x]; this
    store has no top flag. *)

Module ViewStore.

Record VStore : Type := mkVStore { data : list Interval }.

Definition size (s : VStore) : nat := length (data s).

Definition at_ (s : VStore) (i : Z) : option Interval :=
  if 0 <=? i then data s !! Z.to_nat i else None.

Definition write (i : Z) (itv : Interval) (s : VStore) : VStore :=
  mkVStore (<[Z.to_nat i := itv]> (data s)).

(** [VStore(VStore& other)] *)
Definition clone_step (other : VStore) (d : list Interval) (i : nat) : list Interval :=
  match data other !! i with
  | Some o => <[i := o]> d
  | None => d
  end.

(** The fresh array has the size of [other]; its cells are overwritten
    one by one, so what they held before does not matter. *)
Definition clone (other : VStore) : VStore :=
  mkVStore (foldl (clone_step other)
                  (replicate (size other) Itv.default)
                  (seq 0 (size other))).

Definition dom (x : Var) (itv : Interval) (s : VStore) : option VStore :=
  _ ← at_ s x;
  Some (write x itv s).

Definition update (i : Z) (itv : Interval) (s : VStore) : option (bool * VStore) :=
  if i <? 0 then
    old ← at_ s (Int.neg i);
    let has_changed :=
      negb (lb old =? Int.neg (ub itv)) || negb (ub old =? Int.neg (lb itv)) in
    let s1 := write (Int.neg i) (mkInterval (Int.neg (ub itv)) (ub old)) s in
    old1 ← at_ s1 (Int.neg i);
    let s2 := write (Int.neg i) (mkInterval (lb old1) (Int.neg (lb itv))) s1 in
    Some (has_changed, s2)
  else
    old ← at_ s i;
    Some (Itv.neqb old itv, write i itv s).

(** [operator[]] *)
Definition index (s : VStore) (i : Z) : option Interval :=
  if i <? 0 then Itv.neg <$> at_ s (Int.neg i) else at_ s i.

End ViewStore.

(** ** Driver configuration (config.hpp) *)

Module Config.

Definition SUBPROBLEMS_POWER : Z := 12.
Definition STACK_KB : Z := 32.

(** [std::numeric_limits<size_t>::max()] *)
Definition SIZE_MAX : Z := 2 ^ 64 - 1.

Inductive Arch : Type := CPU | GPU.

Inductive InputFormat : Type := XCSP3 | FLATZINC.

Record Configuration : Type := mkConfiguration {
  print_intermediate_solutions : bool;
  stop_after_n_solutions : Z;
  stop_after_n_nodes : Z;
  free_search : bool;
  print_statistics : bool;
  verbose_solving : bool;
  print_ast : bool;
  only_global_memory : bool;
  noatomics : bool;
  timeout_ms : Z;
  or_nodes : Z;
  and_nodes : Z;
  subproblems_power : Z;
  stack_kb : Z;
  arch : Arch;
  problem_path : string;
  version : string;
  hardware : string
}.

(** [Configuration(alloc)]; [cudacc] tells whether [__CUDACC__] is defined. *)
Definition default (cudacc : bool) : Configuration := {|
  print_intermediate_solutions := false;
  stop_after_n_solutions := 1;
  stop_after_n_nodes := SIZE_MAX;
  free_search := false;
  verbose_solving := false;
  print_ast := false;
  print_statistics := false;
  only_global_memory := false;
  noatomics := false;
  timeout_ms := 0;
  and_nodes := 0;
  or_nodes := 0;
  subproblems_power := SUBPROBLEMS_POWER;
  stack_kb := STACK_KB;
  arch := if cudacc then GPU else CPU;
  problem_path := EmptyString;
  version := EmptyString;
  hardware := EmptyString
|}.

(** The root is partitioned into [2^P] subproblems. *)
Definition num_subproblems (c : Configuration) : Z := 2 ^ subproblems_power c.

(** [stop_after_n_solutions]: 0 stands for all solutions. *)
Definition enumerates_all_solutions (c : Configuration) : bool :=
  stop_after_n_solutions c =? 0.

End Config.

(** ** Statistics (statistics.hpp)

    The counters are [size_t] values, added modulo [2^64]; the two
    durations are [int64_t].  The two times are [double]: their type and
    their addition are left abstract. *)

Module Stats.

Definition wrap64 (z : Z) : Z := z mod 2 ^ 64.

Section WithDouble.

Variable double : Type.
Variable dzero : double.
Variable dadd : double -> double -> double.

Record Statistics : Type := mkStatistics {
  variables : Z;
  constraints : Z;
  optimization : bool;
  duration : Z;
  interpretation_duration : Z;
  nodes : Z;
  fails : Z;
  solutions : Z;
  depth_max : Z;
  exhaustive : Z;
  eps_num_subproblems : Z;
  eps_solved_subproblems : Z;
  eps_skipped_subproblems : Z;
  num_blocks_done : Z;
  fixpoint_iterations : Z;
  eliminated_variables : Z;
  eliminated_formulas : Z;
  search_time : double;
  propagation_time : double;
  xcsp : bool
}.

(** [Statistics(variables, constraints, optimization, xcsp)] *)
Definition make (vars cons : Z) (opt : bool) (x : bool) : Statistics := {|
  variables := vars; constraints := cons; optimization := opt;
  duration := 0; interpretation_duration := 0;
  nodes := 0; fails := 0; solutions := 0;
  depth_max := 0; exhaustive := 1;
  eps_solved_subproblems := 0; eps_num_subproblems := 1;
  eps_skipped_subproblems := 0;
  num_blocks_done := 0; fixpoint_iterations := 0;
  eliminated_variables := 0; eliminated_formulas := 0;
  search_time := dzero; propagation_time := dzero; xcsp := x
|}.

(** [Statistics(xcsp)] *)
Definition make_default (x : bool) : Statistics := make 0 0 false x.

(** [exhaustive && other.exhaustive], stored back into a [size_t]. *)
Definition land_size_t (a b : Z) : Z :=
  if negb (a =? 0) && negb (b =? 0) then 1 else 0.

(** [this->join(other)] *)
Definition join (this other : Statistics) : Statistics := {|
  variables := variables this;
  constraints := constraints this;
  optimization := optimization this;
  duration := Z.max (duration other) (duration this);
  interpretation_duration :=
    Z.max (interpretation_duration other) (interpretation_duration this);
  nodes := wrap64 (nodes this + nodes other);
  fails := wrap64 (fails this + fails other);
  solutions := wrap64 (solutions this + solutions other);
  depth_max := Z.max (depth_max this) (depth_max other);
  exhaustive := land_size_t (exhaustive this) (exhaustive other);
  eps_num_subproblems := eps_num_subproblems this;
  eps_solved_subproblems :=
    wrap64 (eps_solved_subproblems this + eps_solved_subproblems other);
  eps_skipped_subproblems :=
    wrap64 (eps_skipped_subproblems this + eps_skipped_subproblems other);
  num_blocks_done := wrap64 (num_blocks_done this + num_blocks_done other);
  fixpoint_iterations :=
    wrap64 (fixpoint_iterations this + fixpoint_iterations other);
  eliminated_variables := eliminated_variables this;
  eliminated_formulas := eliminated_formulas this;
  search_time := dadd (search_time this) (search_time other);
  propagation_time := dadd (propagation_time this) (propagation_time other);
  xcsp := xcsp this
|}.

(** What the printing functions write, one string for each [printf],
    without its final newline. *)
Definition print_xcsp_comment (s : Statistics) : list string :=
  if xcsp s then ["c "%string] else [].

Definition print_mzn_final_separator (s : Statistics) : list string :=
  if solutions s >? 0 then
    if negb (exhaustive s =? 0) then
      print_xcsp_comment s ++ ["=========="%string]
    else []
  else
    if negb (exhaustive s =? 0) then ["=====UNSATISFIABLE====="%string]
    else if optimization s then ["=====UNBOUNDED====="%string]
    else ["=====UNKNOWN====="%string].

Definition print_final_xcsp (s : Statistics) : list string :=
  if solutions s >? 0 then ["s SATISFIABLE"%string]
  else if negb (exhaustive s =? 0) then ["s UNSATISFIABLE"%string]
  else ["s UNKNOWN"%string].

Definition print_final (s : Statistics) : list string :=
  (if negb (xcsp s) then print_mzn_final_separator s else []) ++
  print_final_xcsp s.

End WithDouble.

End Stats.

(** ** The model builder (class ModelBuilder) *)

Module Builder.

(** [OrderType] and the node kinds of the XCSP3 expression trees that the
    builder inspects; [OUNDEF] stands for every other kind. *)
Inductive OrderType : Type := LE | LT | GE | GT | IN | EQ | NE.

Inductive ExpressionType : Type :=
| OUNDEF | OADD | OMUL | OLT | OLE | OGE | OGT | ONE | OEQ | OIN
| OAND | OIFF | ODECIMAL | OVAR.

Definition OrderType_eqb (a b : OrderType) : bool :=
  match a, b with
  | LE, LE | LT, LT | GE, GE | GT, GT | IN, IN | EQ, EQ | NE, NE => true
  | _, _ => false
  end.

Definition ExpressionType_eqb (a b : ExpressionType) : bool :=
  match a, b with
  | OUNDEF, OUNDEF | OADD, OADD | OMUL, OMUL | OLT, OLT | OLE, OLE
  | OGE, OGE | OGT, OGT | ONE, ONE | OEQ, OEQ | OIN, OIN | OAND, OAND
  | OIFF, OIFF | ODECIMAL, ODECIMAL | OVAR, OVAR => true
  | _, _ => false
  end.

(** A node of an expression tree: a constant ([NodeConstant], kind
    [ODECIMAL]), a variable (kind [OVAR], printed as its name) or an
    operator with its parameters. *)
Inductive Node : Type :=
| NodeConstant (val : Z)
| NodeVariable (id : string)
| NodeOperator (type : ExpressionType) (parameters : list Node).

Definition node_type (n : Node) : ExpressionType :=
  match n with
  | NodeConstant _ => ODECIMAL
  | NodeVariable _ => OVAR
  | NodeOperator t _ => t
  end.

Definition node_parameters (n : Node) : list Node :=
  match n with
  | NodeOperator _ ps => ps
  | _ => []
  end.

(** A tree: the number of its variables and its root. *)
Record Tree : Type := mkTree { arity : nat; root : Node }.

(** Modelled from the spec: propagators.cuh is not among the sources.
    The four propagator variants, each carrying the operands that the
    builder passes to its constructor. *)
Inductive Propagator : Type :=
| TemporalProp (x y : Var) (k : Z)
| LinearIneq (vars : list Var) (constants : list Z) (c : Z)
| LogicalAnd (p1 p2 : Propagator)
| ReifiedProp (b : Var) (rhs : Propagator).

(** *** [std::map<std::string, std::tuple<Var, Interval>>]

    The entries are kept in the order of their keys, the order in which
    the program iterates over the map. *)
Definition Entry : Type := (string * (Var * Interval))%type.

Fixpoint map_find (x : string) (m : list Entry) : option (Var * Interval) :=
  match m with
  | [] => None
  | (k, v) :: m' => if String.eqb x k then Some v else map_find x m'
  end.

Fixpoint map_insert (x : string) (v : Var * Interval) (m : list Entry) : list Entry :=
  match m with
  | [] => [(x, v)]
  | (k, w) :: m' =>
      match String.compare x k with
      | Eq => (k, v) :: m'
      | Lt => (x, v) :: (k, w) :: m'
      | Gt => (k, w) :: map_insert x v m'
      end
  end.

(** The value that [operator[]] creates for a key that is absent. *)
Definition map_default : Var * Interval := (0, Itv.default).

(** [m[x]]: the value at [x], and the map, where [x] is from now on. *)
Definition map_index (x : string) (m : list Entry) : (Var * Interval) * list Entry :=
  match map_find x m with
  | Some v => (v, m)
  | None => (map_default, map_insert x map_default m)
  end.

Record ModelBuilder : Type := mkModelBuilder {
  var2idx : list Entry;
  idx2var : list string;
  constraints : list Propagator;
  minimize_obj : option Var
}.

(** *** Results: a value, a thrown [std::runtime_error], or no defined
    behaviour (a failed assertion, an access outside a vector). *)
Inductive outcome (A : Type) : Type :=
| Ok (a : A)
| Throw (what : string)
| Undefined
| OutOfFuel.

Arguments Ok {A} a.
Arguments Throw {A} what.
Arguments Undefined {A}.
Arguments OutOfFuel {A}.

Definition M (A : Type) : Type := ModelBuilder -> outcome (A * ModelBuilder).

Definition ret {A} (a : A) : M A := fun b => Ok (a, b).

Definition bind {A B} (c : M A) (f : A -> M B) : M B :=
  fun b =>
    match c b with
    | Ok (a, b') => f a b'
    | Throw w => Throw w
    | Undefined => Undefined
    | OutOfFuel => OutOfFuel
    end.

Definition throw {A} (what : string) : M A := fun _ => Throw what.
Definition undefined {A} : M A := fun _ => Undefined.

Definition lift {A} (o : option A) : M A :=
  match o with Some a => ret a | None => undefined end.

Declare Scope builder_scope.
Delimit Scope builder_scope with builder.
Notation "x <- c ;; f" := (bind c (fun x => f))
  (at level 100, c at next level, right associativity) : builder_scope.
Notation "c ;;; f" := (bind c (fun _ => f))
  (at level 100, right associativity) : builder_scope.
Open Scope builder_scope.

(** [std::get<0>(var2idx[x])] and [std::get<1>(var2idx[x])] *)
Definition index_of (x : string) : M Var :=
  fun b =>
    let '(v, m) := map_index x (var2idx b) in
    Ok (fst v, mkModelBuilder m (idx2var b) (constraints b) (minimize_obj b)).

Definition domain_of (x : string) : M Interval :=
  fun b =>
    let '(v, m) := map_index x (var2idx b) in
    Ok (snd v, mkModelBuilder m (idx2var b) (constraints b) (minimize_obj b)).

(** Writing through the reference [std::get<1>(var2idx[x])]. *)
Definition set_domain (x : string) (itv : Interval) : M unit :=
  fun b =>
    let '(v, m) := map_index x (var2idx b) in
    Ok (tt, mkModelBuilder (map_insert x (fst v, itv) m)
                           (idx2var b) (constraints b) (minimize_obj b)).

Definition push_propagator (p : Propagator) : M unit :=
  fun b => Ok (tt, mkModelBuilder (var2idx b) (idx2var b)
                                  (constraints b ++ [p]) (minimize_obj b)).

Definition add_var (name : string) (min max : Z) : M unit :=
  fun b =>
    let idx := Int.wrap (Z.of_nat (length (idx2var b))) in
    Ok (tt, mkModelBuilder (map_insert name (idx, mkInterval min max) (var2idx b))
                           (idx2var b ++ [name])
                           (constraints b) (minimize_obj b)).

Definition empty : ModelBuilder := mkModelBuilder [] [] [] None.

(** [ModelBuilder()]: index 0 cannot be negated and is kept by a fake variable. *)
Definition create : outcome (unit * ModelBuilder) :=
  add_var "zero_var(fake)" 0 0 empty.

Definition unsupported_unary : string :=
  "Operators IN and NE are not supported in unary constraints.".

Definition fake_var : string :=
  "fake var (contradiction detected at root node)".

(** [make_temporal_constraint], the recursive calls being [self]. *)
Definition make_temporal_constraint_body
    (self : string -> Z -> OrderType -> string -> M Propagator)
    (x : string) (k : Z) (op : OrderType) (y : string) : M Propagator :=
  xi <- index_of x ;;
  yi <- index_of y ;;
  if (xi =? 0) || (yi =? 0) then undefined else
  let '(op, k) :=
    if OrderType_eqb op LT then (LE, Int.sub k 1)
    else if OrderType_eqb op GT then (GE, Int.add k 1)
    else (op, k) in
  if OrderType_eqb op LE then
    ret (TemporalProp xi (Int.neg yi) (Int.neg k))
  else if OrderType_eqb op GE then
    ret (TemporalProp (Int.neg xi) yi k)
  else if OrderType_eqb op EQ then
    p1 <- self x k LE y ;;
    p2 <- self x k GE y ;;
    ret (LogicalAnd p1 p2)
  else if OrderType_eqb op IN || OrderType_eqb op NE then
    throw unsupported_unary
  else ret (TemporalProp xi yi k).

Fixpoint make_temporal_constraint_fuel (fuel : nat)
    (x : string) (k : Z) (op : OrderType) (y : string) : M Propagator :=
  match fuel with
  | O => fun _ => OutOfFuel
  | S fuel' =>
      make_temporal_constraint_body (make_temporal_constraint_fuel fuel') x k op y
  end.

(** A call with [EQ] calls itself with [LE] and [GE], which return
    without a further call: two levels are all the program uses. *)
Definition make_temporal_constraint : string -> Z -> OrderType -> string -> M Propagator :=
  make_temporal_constraint_fuel 2.

(** [x + k <op> y] *)
Definition add_temporal_constraint (x : string) (k : Z) (op : OrderType) (y : string) : M unit :=
  p <- make_temporal_constraint x k op y ;;
  push_propagator p.

Definition add_objective_minimize (x : string) : M unit :=
  xi <- index_of x ;;
  fun b => Ok (tt, mkModelBuilder (var2idx b) (idx2var b) (constraints b) (Some xi)).

Definition strengthen_domain2 (x : string) (op : OrderType) (k : Z) : M unit :=
  v <- domain_of x ;;
  let v := if OrderType_eqb op LT then mkInterval (lb v) (Int.sub k 1) else v in
  let v := if OrderType_eqb op GT then mkInterval (Int.add k 1) (ub v) else v in
  let v := if OrderType_eqb op LE || OrderType_eqb op EQ
           then mkInterval (lb v) k else v in
  let v := if OrderType_eqb op GE || OrderType_eqb op EQ
           then mkInterval k (ub v) else v in
  set_domain x v ;;;
  if OrderType_eqb op IN || OrderType_eqb op NE then throw unsupported_unary
  else ret tt.

(** [x <op> k] *)
Definition strengthen_domain (x : string) (op : OrderType) (k : Z) : M unit :=
  strengthen_domain2 x op k.

(** [node->parameters[i]], the value of a constant node and the name
    that a variable node prints. *)
Definition param (n : Node) (i : nat) : M Node :=
  lift (node_parameters n !! i).

Definition node_val (n : Node) : M Z :=
  match n with NodeConstant v => ret v | _ => undefined end.

Definition toString (n : Node) : M string :=
  match n with NodeVariable id => ret id | _ => undefined end.

Definition is_type (n : Node) (t : ExpressionType) : bool :=
  ExpressionType_eqb (node_type n) t.

(** Transform [X * 1] into [X]; the result is the node that the pointer
    designates afterwards. *)
Definition evaluate_constant (node : Node) : M Node :=
  if is_type node OMUL then
    p0 <- param node 0 ;;
    if is_type p0 OVAR then
      p1 <- param node 1 ;;
      if is_type p1 ODECIMAL then
        v <- node_val p1 ;;
        if v =? 1 then ret p0 else ret node
      else ret node
    else ret node
  else ret node.

(** The body of [le_mul_domain], once the shape [X * a <= b] is known.
    The quotient [b / a] is computed where [a] and [b] both differ from
    0; it has no value for [INT_MIN / -1]. *)
Definition le_mul_domain_body (x : string) (a b : Z) : M unit :=
  if a =? 0 then
    if b <? 0 then add_var fake_var 1 0 else ret tt
  else if b =? 0 then
    if a >? 0 then strengthen_domain2 x LE 0
    else if a <? 0 then strengthen_domain2 x GE 0
    else ret tt
  else
    if negb (Int.div_defined b a) then undefined else
    let res := Int.div b a in
    if (a >? 0) && (b >? 0) then strengthen_domain2 x LE res
    else if (a >? 0) && (b <? 0) then
      strengthen_domain2 x LE (Int.sub res (Int.rem (Int.neg b) a))
    else if (a <? 0) && (b >? 0) then strengthen_domain2 x GE res
    else strengthen_domain2 x GE (Int.add res (Int.rem (Int.neg b) (Int.neg a))).

(** Treat constraint of the form [X * a <= b]. *)
Definition le_mul_domain (node : Node) : M bool :=
  if is_type node OLE then
    p0 <- param node 0 ;;
    if is_type p0 OMUL then
      p1 <- param node 1 ;;
      if is_type p1 ODECIMAL then
        p00 <- param p0 0 ;;
        if is_type p00 OVAR then
          p01 <- param p0 1 ;;
          if is_type p01 ODECIMAL then
            x <- toString p00 ;;
            a <- node_val p01 ;;
            b <- node_val p1 ;;
            le_mul_domain_body x a b ;;;
            ret true
          else ret false
        else ret false
      else ret false
    else ret false
  else ret false.

Definition order_of_type (t : ExpressionType) : option OrderType :=
  match t with
  | OLE => Some LE
  | OLT => Some LT
  | OGE => Some GE
  | OGT => Some GT
  | OEQ => Some EQ
  | ONE => Some NE
  | OIN => Some IN
  | _ => None
  end.

Definition strengthen_domain_from_node (node : Node) : M unit :=
  if negb (Nat.eqb (length (node_parameters node)) 2) then
    throw "Expected binary constraints."
  else
    treated <- le_mul_domain node ;;
    if treated then ret tt else
    p0 <- param node 0 ;;
    p0 <- (if negb (is_type p0 OVAR) then
             p0' <- evaluate_constant p0 ;;
             if negb (is_type p0' OVAR) then
               throw "Expected variable on the lhs (in domain constraint)."
             else ret p0'
           else ret p0) ;;
    p1 <- param node 1 ;;
    if negb (is_type p1 ODECIMAL) then throw "Expected value on the rhs." else
    x <- toString p0 ;;
    v <- node_val p1 ;;
    match order_of_type (node_type node) with
    | Some op => strengthen_domain2 x op v
    | None => throw "Unsupported unary domain operator."
    end.

(** The node must have the shape [X <= Y] or [X <= Y + k]. *)
Definition make_temporal_constraint_from_node (node : Node) : M Propagator :=
  if is_type node OLE then
    if negb (Nat.eqb (length (node_parameters node)) 2) then
      throw "Expected binary constraints."
    else
      p0 <- param node 0 ;;
      if negb (is_type p0 OVAR) then
        throw "Expected variable on the lhs (in temporal constraint)."
      else
        x <- toString p0 ;;
        p1 <- param node 1 ;;
        if is_type p1 OVAR then
          y <- toString p1 ;;
          make_temporal_constraint x 0 LE y
        else if is_type p1 OADD then
          a0 <- param p1 0 ;;
          bad <- (if negb (is_type a0 OVAR) then ret true
                  else a1 <- param p1 1 ;; ret (negb (is_type a1 ODECIMAL))) ;;
          if (bad : bool) then throw "Expected <var> + <constant>." else
          y <- toString a0 ;;
          a1 <- param p1 1 ;;
          k <- node_val a1 ;;
          make_temporal_constraint x (Int.neg k) LE y
        else throw "Expected rhs of type OADD or OVAR."
  else
    throw "Expect node in canonized form. TemporalProp constraint of the form x <= y + k".

Definition tautology (node : Node) : M bool :=
  p0 <- param node 0 ;;
  if is_type p0 ODECIMAL then
    p1 <- param node 1 ;;
    if is_type p1 ODECIMAL then
      c1 <- node_val p0 ;;
      c2 <- node_val p1 ;;
      if c1 <=? c2 then ret true
      else add_var fake_var 1 0 ;;; ret true
    else ret false
  else ret false.

(** The loop of [add_linear_constraint] over the terms of the sum. *)
Fixpoint linear_factors (ns : list Node) (vars : list Var) (constants : list Z)
    : M (list Var * list Z) :=
  match ns with
  | [] => ret (vars, constants)
  | n :: ns' =>
      bad <- (if negb (is_type n OMUL) then ret true
              else f0 <- param n 0 ;;
                   if negb (is_type f0 OVAR) then ret true
                   else f1 <- param n 1 ;; ret (negb (is_type f1 ODECIMAL))) ;;
      if (bad : bool) then throw "Expected sum of factors x1c1 + ... xNcN" else
      f0 <- param n 0 ;;
      x <- toString f0 ;;
      xi <- index_of x ;;
      f1 <- param n 1 ;;
      c <- node_val f1 ;;
      linear_factors ns' (vars ++ [xi]) (constants ++ [c])
  end.

Definition add_linear_constraint (node : Node) : M unit :=
  if negb (Nat.eqb (length (node_parameters node)) 2) then
    throw "Expected comparison operator with two arguments."
  else
    t <- tautology node ;;
    if negb t then
      p0 <- param node 0 ;;
      p1 <- param node 1 ;;
      if negb (is_type p0 OADD) || negb (is_type p1 ODECIMAL) then
        throw "Expected linear constraint of the form x1c1 + ... + xNcN <= c"
      else
        c <- node_val p1 ;;
        vc <- linear_factors (node_parameters p0) [] [] ;;
        push_propagator (LinearIneq (fst vc) (snd vc) c)
    else ret tt.

(** [add_reified_constraint], the recursive call being [self]. *)
Definition add_reified_constraint_body (self : Node -> M unit) (node : Node) : M unit :=
  p0 <- param node 0 ;;
  first <- (if is_type p0 OVAR then p1 <- param node 1 ;; ret (is_type p1 OAND)
            else ret false) ;;
  if (first : bool) then
    b <- toString p0 ;;
    and_node <- param node 1 ;;
    c1 <- param and_node 0 ;;
    p1 <- make_temporal_constraint_from_node c1 ;;
    c2 <- param and_node 1 ;;
    p2 <- make_temporal_constraint_from_node c2 ;;
    bi <- index_of b ;;
    push_propagator (ReifiedProp bi (LogicalAnd p1 p2))
  else
    second <- (if is_type p0 OAND then p1 <- param node 1 ;; ret (is_type p1 OVAR)
               else ret false) ;;
    if (second : bool) then
      p1 <- param node 1 ;;
      match node with
      | NodeOperator t (_ :: _ :: rest) => self (NodeOperator t (p1 :: p0 :: rest))
      | _ => undefined
      end
    else throw "Expected reified constraint of the form  b <=> (c1 /\ c2)".

Fixpoint add_reified_constraint_fuel (fuel : nat) (node : Node) : M unit :=
  match fuel with
  | O => fun _ => OutOfFuel
  | S fuel' => add_reified_constraint_body (add_reified_constraint_fuel fuel') node
  end.

(** After the swap the node has the first shape: one recursive call at most. *)
Definition add_reified_constraint : Node -> M unit :=
  add_reified_constraint_fuel 2.

Definition add_constraint (tree : Tree) : M unit :=
  if Nat.eqb (arity tree) 1 then strengthen_domain_from_node (root tree)
  else if is_type (root tree) OIFF then add_reified_constraint (root tree)
  else if is_type (root tree) OLE then add_linear_constraint (root tree)
  else throw "Unsupported constraint.".

(** The loop of [build_store] over the entries of [var2idx]. *)
Fixpoint dom_all (m : list Entry) (s : TopStore.VStore) : option TopStore.VStore :=
  match m with
  | [] => Some s
  | (_, (idx, itv)) :: m' => s' ← TopStore.dom idx itv s; dom_all m' s'
  end.

Definition build_store (b : ModelBuilder) : option TopStore.VStore :=
  dom_all (var2idx b) (TopStore.new (length (idx2var b))).

Definition build_minimize_obj (b : ModelBuilder) : option Var := minimize_obj b.

(** The builder after a sequence of calls that all return. *)
Definition after {A} (c : M A) (b : ModelBuilder) : ModelBuilder :=
  match c b with Ok (_, b') => b' | _ => b end.

(** A builder with two variables, [x] in [-10..10] and [y] in [0..10]. *)
Definition sample : ModelBuilder :=
  after (add_var "y" 0 10) (after (add_var "x" (-10) 10) (after (fun _ => create) empty)).

(** A computation keeps the relation [P] between the builder it
    receives and the builder it returns. *)
Definition keeps {A} (P : ModelBuilder -> ModelBuilder -> Prop) (c : M A) : Prop :=
  forall b a b', c b = Ok (a, b') -> P b b'.

(** Every index of [var2idx] is a slot of the store to build. *)
Definition wf (b : ModelBuilder) : Prop :=
  Z.of_nat (length (idx2var b)) < Int.limit_max /\
  Forall (fun e : Entry => 0 <= fst (snd e) < Z.of_nat (length (idx2var b)))
         (var2idx b) /\
  (0 < length (idx2var b))%nat.

End Builder.

(** * Properties *)

(** ** Machine integers *)

Lemma wrap_in_range (z : Z) : Int.in_range z -> Int.wrap z = z.
Proof.
  unfold Int.in_range, Int.wrap, Int.limit_min, Int.limit_max, Int.INT_MAX.
  intros H. rewrite Z.mod_small; lia.
Qed.

Lemma neg_in_range (z : Z) : Int.limit_min < z <= Int.limit_max -> Int.neg z = - z.
Proof.
  intros H. unfold Int.neg. apply wrap_in_range.
  unfold Int.in_range, Int.limit_min, Int.limit_max, Int.INT_MAX in *. lia.
Qed.

Lemma neg_neg (z : Z) : Int.limit_min < z <= Int.limit_max -> Int.neg (Int.neg z) = z.
Proof.
  intros H. rewrite (neg_in_range z H). rewrite neg_in_range.
  - lia.
  - unfold Int.limit_min, Int.limit_max, Int.INT_MAX in *. lia.
Qed.

(** ** The store with a top flag *)

Section TopStoreFacts.

Import TopStore.

Lemma at_Some_range (s : VStore) (i : Var) (itv : Interval) :
  at_ s i = Some itv -> 0 <= i /\ (Z.to_nat i < size s)%nat.
Proof.
  unfold at_, size. destruct (0 <=? i) eqn:E; [|discriminate].
  intros H. apply lookup_lt_Some in H. lia.
Qed.

Lemma at_in_range (s : VStore) (i : Var) :
  0 <= i -> (Z.to_nat i < size s)%nat -> exists itv, at_ s i = Some itv.
Proof.
  intros H0 H1. unfold at_. destruct (0 <=? i) eqn:E; [|lia].
  destruct (lookup_lt_is_Some_2 (data s) (Z.to_nat i) H1) as [itv Hitv]. eauto.
Qed.

Lemma at_write_eq (s : VStore) (i : Var) (old itv : Interval) :
  at_ s i = Some old -> at_ (write i itv s) i = Some itv.
Proof.
  intros H. destruct (at_Some_range _ _ _ H) as [H0 H1].
  unfold at_, write. simpl. destruct (0 <=? i) eqn:E; [|lia].
  apply list_lookup_insert_eq. exact H1.
Qed.

Lemma at_write_ne (s : VStore) (i j : Var) (itv : Interval) :
  0 <= i -> i <> j -> at_ (write i itv s) j = at_ s j.
Proof.
  intros H0 Hne. unfold at_, write. simpl.
  destruct (0 <=? j) eqn:E; [|reflexivity].
  apply list_lookup_insert_ne. lia.
Qed.

Lemma size_write (s : VStore) (i : Var) (itv : Interval) :
  size (write i itv s) = size s.
Proof. unfold size, write. simpl. apply length_insert. Qed.

Lemma write_same (s : VStore) (i : Var) (itv : Interval) :
  at_ s i = Some itv -> write i itv s = s.
Proof.
  intros H. unfold write. destruct s as [d t]. simpl. f_equal.
  unfold at_ in H. simpl in H. destruct (0 <=? i); [|discriminate].
  apply list_insert_id. exact H.
Qed.

(** What [update_top] does: the array is kept, the flag is raised when
    the slot is empty. *)
Lemma update_top_spec (x : Var) (s : VStore) (itv : Interval) :
  at_ s x = Some itv ->
  update_top x s = Some (mkVStore (data s) (top s || Itv.is_top itv)).
Proof.
  intros H. unfold update_top. rewrite H. simpl.
  destruct s as [d t]. simpl. destruct (Itv.is_top itv); simpl.
  - rewrite orb_true_r. reflexivity.
  - rewrite orb_false_r. reflexivity.
Qed.

(** [dom] writes the interval as it is given and raises the flag when it
    is empty. *)
Lemma dom_spec (x : Var) (itv old : Interval) (s : VStore) :
  at_ s x = Some old ->
  dom x itv s =
    Some (mkVStore (<[Z.to_nat x := itv]> (data s)) (top s || Itv.is_top itv)).
Proof.
  intros H. unfold dom. rewrite H. simpl.
  rewrite (at_write_eq s x old _ H). simpl.
  set (s1 := write x (Itv.store_lb (lb itv) old) s).
  assert (H1 : at_ s1 x = Some (Itv.store_lb (lb itv) old))
    by (apply (at_write_eq s x old); exact H).
  rewrite (update_top_spec x _ (Itv.store_ub (ub itv) (Itv.store_lb (lb itv) old))).
  2:{ apply (at_write_eq s1 x _ _ H1). }
  unfold write, s1, write. simpl. rewrite list_insert_insert_eq.
  unfold Itv.store_ub, Itv.store_lb. simpl. destruct itv; reflexivity.
Qed.

Lemma update_lb_spec (i : Var) (n : Z) (s : VStore) (old : Interval) :
  at_ s i = Some old ->
  update_lb i n s =
    if lb old <? n then
      Some (true, mkVStore (<[Z.to_nat i := mkInterval n (ub old)]> (data s))
                           (top s || (n >? ub old)))
    else Some (false, s).
Proof.
  intros H. unfold update_lb. rewrite H. simpl.
  destruct (lb old <? n); [|reflexivity].
  rewrite (update_top_spec i _ (Itv.store_lb n old)).
  2:{ apply (at_write_eq s i old); exact H. }
  reflexivity.
Qed.

Lemma update_ub_spec (i : Var) (n : Z) (s : VStore) (old : Interval) :
  at_ s i = Some old ->
  update_ub i n s =
    if ub old >? n then
      Some (true, mkVStore (<[Z.to_nat i := mkInterval (lb old) n]> (data s))
                           (top s || (lb old >? n)))
    else Some (false, s).
Proof.
  intros H. unfold update_ub. rewrite H. simpl.
  destruct (ub old >? n); [|reflexivity].
  rewrite (update_top_spec i _ (Itv.store_ub n old)).
  2:{ apply (at_write_eq s i old); exact H. }
  reflexivity.
Qed.

End TopStoreFacts.

Section TopStoreNarrowing.

Import TopStore.

Lemma narrows_refl (s : VStore) : narrows s s.
Proof. split; [reflexivity|]. intros v itv H. exists itv. split; [exact H|lia]. Qed.

Lemma narrows_trans (s1 s2 s3 : VStore) :
  narrows s1 s2 -> narrows s2 s3 -> narrows s1 s3.
Proof.
  intros [Hs12 H12] [Hs23 H23]. split; [congruence|].
  intros v itv H. destruct (H12 v itv H) as (itv2 & H2 & Hl2 & Hu2).
  destruct (H23 v itv2 H2) as (itv3 & H3 & Hl3 & Hu3).
  exists itv3. split; [exact H3|lia].
Qed.

(** Replacing slot [i] by a tighter interval narrows the store. *)
Lemma narrows_insert (s : VStore) (i : Var) (old new : Interval) (t : bool) :
  at_ s i = Some old -> lb old <= lb new -> ub new <= ub old ->
  narrows s (mkVStore (<[Z.to_nat i := new]> (data s)) t).
Proof.
  intros H Hl Hu. destruct (at_Some_range _ _ _ H) as [H0 H1]. split.
  - unfold size. simpl. apply length_insert.
  - intros v itv Hv. destruct (Z.eq_dec i v) as [->|Hne].
    + exists new. split.
      * unfold at_. simpl. destruct (0 <=? v) eqn:E; [|lia].
        apply list_lookup_insert_eq. exact H1.
      * rewrite H in Hv. injection Hv as <-. lia.
    + exists itv. split; [|lia].
      unfold at_ in *. simpl. destruct (0 <=? v) eqn:E; [|discriminate].
      rewrite list_lookup_insert_ne; [exact Hv|lia].
Qed.

Lemma update_lb_narrows (i : Var) (n : Z) (s s' : VStore) (c : bool) :
  update_lb i n s = Some (c, s') -> narrows s s'.
Proof.
  intros H. destruct (at_ s i) as [old|] eqn:Hold.
  - rewrite (update_lb_spec i n s old Hold) in H.
    destruct (lb old <? n) eqn:E; injection H as <- <-.
    + apply (narrows_insert s i old); [exact Hold|simpl; lia|simpl; lia].
    + apply narrows_refl.
  - unfold update_lb in H. rewrite Hold in H. discriminate.
Qed.

Lemma update_ub_narrows (i : Var) (n : Z) (s s' : VStore) (c : bool) :
  update_ub i n s = Some (c, s') -> narrows s s'.
Proof.
  intros H. destruct (at_ s i) as [old|] eqn:Hold.
  - rewrite (update_ub_spec i n s old Hold) in H.
    destruct (ub old >? n) eqn:E; injection H as <- <-.
    + apply (narrows_insert s i old); [exact Hold|simpl; lia|simpl; lia].
    + apply narrows_refl.
  - unfold update_ub in H. rewrite Hold in H. discriminate.
Qed.

(** [update] is [update_lb] followed by [update_ub]. *)
Lemma update_inv (i : Var) (itv : Interval) (s s' : VStore) (c : bool) :
  update i itv s = Some (c, s') ->
  exists c1 s1 c2,
    update_lb i (lb itv) s = Some (c1, s1) /\
    update_ub i (ub itv) s1 = Some (c2, s') /\ c = c1 || c2.
Proof.
  unfold update. intros H.
  destruct (update_lb i (lb itv) s) as [[c1 s1]|]; [|discriminate]. simpl in H.
  destruct (update_ub i (ub itv) s1) as [[c2 s2]|] eqn:E2; [|discriminate].
  simpl in H. injection H as <- <-. exists c1, s1, c2. repeat split; auto.
Qed.

Lemma update_narrows (i : Var) (itv : Interval) (s s' : VStore) (c : bool) :
  update i itv s = Some (c, s') -> narrows s s'.
Proof.
  intros H. destruct (update_inv _ _ _ _ _ H) as (c1 & s1 & c2 & H1 & H2 & _).
  eapply narrows_trans; [eapply update_lb_narrows|eapply update_ub_narrows]; eauto.
Qed.

Lemma run_op_inv (o : Op) (s s' : VStore) :
  run_op o s = Some s' ->
  match o with
  | OpDom x itv => dom x itv s = Some s'
  | OpUpdateLb i n => exists c, update_lb i n s = Some (c, s')
  | OpUpdateUb i n => exists c, update_ub i n s = Some (c, s')
  | OpUpdate i itv => exists c, update i itv s = Some (c, s')
  | OpAssign i v => exists c, update i (mkInterval v v) s = Some (c, s')
  end.
Proof.
  destruct o; simpl; intros H; [exact H| | | |].
  all: match type of H with snd <$> ?e = _ =>
         destruct e as [[c s0]|] eqn:E; [|discriminate] end.
  all: simpl in H; injection H as <-; exists c; first [exact E|reflexivity].
Qed.

Lemma run_op_narrows (o : Op) (s s' : VStore) :
  is_update o = true -> run_op o s = Some s' -> narrows s s'.
Proof.
  intros Hu H. apply run_op_inv in H. destruct o; [discriminate| | | |];
    destruct H as [c H].
  - eapply update_lb_narrows; eauto.
  - eapply update_ub_narrows; eauto.
  - eapply update_narrows; eauto.
  - eapply update_narrows; eauto.
Qed.

Lemma run_ops_narrows (os : list Op) : forall (s s' : VStore),
  forallb is_update os = true -> run_ops os s = Some s' -> narrows s s'.
Proof.
  induction os as [|o os IH]; intros s s' Hu H; simpl in *.
  - injection H as <-. apply narrows_refl.
  - apply andb_true_iff in Hu as [Ho Hos].
    destruct (run_op o s) as [s1|] eqn:E; [|discriminate]. simpl in H.
    eapply narrows_trans; [eapply run_op_narrows; eauto|eapply IH; eauto].
Qed.

(** A call on a variable of the store is defined. *)
Lemma run_op_defined (o : Op) (s : VStore) (old : Interval) :
  at_ s (op_var o) = Some old -> exists s', run_op o s = Some s' /\ size s' = size s.
Proof.
  assert (Hlb : forall i n s old, at_ s i = Some old ->
            exists c s', update_lb i n s = Some (c, s') /\ size s' = size s
                         /\ exists old', at_ s' i = Some old').
  { intros i n s0 old0 H. rewrite (update_lb_spec i n s0 old0 H).
    destruct (lb old0 <? n); eexists _, _; (split; [reflexivity|]).
    - split; [unfold size; simpl; apply length_insert|].
      destruct (at_Some_range _ _ _ H) as [H0 H1].
      eexists. unfold at_. simpl. destruct (0 <=? i) eqn:E; [|lia].
      apply list_lookup_insert_eq. exact H1.
    - split; [reflexivity|eauto]. }
  assert (Hub : forall i n s old, at_ s i = Some old ->
            exists c s', update_ub i n s = Some (c, s') /\ size s' = size s).
  { intros i n s0 old0 H. rewrite (update_ub_spec i n s0 old0 H).
    destruct (ub old0 >? n); eexists _, _; (split; [reflexivity|]).
    - unfold size; simpl; apply length_insert.
    - reflexivity. }
  assert (Hup : forall i itv s old, at_ s i = Some old ->
            exists c s', update i itv s = Some (c, s') /\ size s' = size s).
  { intros i itv s0 old0 H.
    destruct (Hlb i (lb itv) s0 old0 H) as (c1 & s1 & E1 & Hs1 & old1 & Hold1).
    destruct (Hub i (ub itv) s1 old1 Hold1) as (c2 & s2 & E2 & Hs2).
    exists (c1 || c2), s2. unfold update. rewrite E1. simpl. rewrite E2. simpl.
    split; [reflexivity|congruence]. }
  intros H. destruct o; simpl in *.
  - rewrite (dom_spec x itv old s H). eexists. split; [reflexivity|].
    unfold size. simpl. apply length_insert.
  - destruct (Hlb i new_lb s old H) as (c & s' & E & Hs & _).
    exists s'. rewrite E. auto.
  - destruct (Hub i new_ub s old H) as (c & s' & E & Hs).
    exists s'. rewrite E. auto.
  - destruct (Hup i itv s old H) as (c & s' & E & Hs).
    exists s'. rewrite E. auto.
  - destruct (Hup i (mkInterval v v) s old H) as (c & s' & E & Hs).
    exists s'. unfold assign. rewrite E. auto.
Qed.

End TopStoreNarrowing.

Section TopStoreFlag.

Import TopStore.

(** The flag after [update_lb]: raised when the call wrote an empty slot,
    kept otherwise. *)
Lemma update_lb_flag (i : Var) (n : Z) (s s' : VStore) (c : bool) (new : Interval) :
  update_lb i n s = Some (c, s') -> at_ s' i = Some new ->
  top s' = top s || (c && Itv.is_top new) /\ (c = false -> s' = s).
Proof.
  intros H Hnew. destruct (at_ s i) as [old|] eqn:Hold.
  - rewrite (update_lb_spec i n s old Hold) in H.
    destruct (at_Some_range _ _ _ Hold) as [H0 H1].
    destruct (lb old <? n) eqn:E; injection H as <- <-.
    + split; [|discriminate]. simpl.
      unfold at_ in Hnew. simpl in Hnew. destruct (0 <=? i) eqn:E0; [|lia].
      rewrite list_lookup_insert_eq in Hnew by exact H1.
      injection Hnew as <-. reflexivity.
    + split; [|reflexivity]. simpl. rewrite orb_false_r. reflexivity.
  - unfold update_lb in H. rewrite Hold in H. discriminate.
Qed.

Lemma update_ub_flag (i : Var) (n : Z) (s s' : VStore) (c : bool) (new : Interval) :
  update_ub i n s = Some (c, s') -> at_ s' i = Some new ->
  top s' = top s || (c && Itv.is_top new) /\ (c = false -> s' = s).
Proof.
  intros H Hnew. destruct (at_ s i) as [old|] eqn:Hold.
  - rewrite (update_ub_spec i n s old Hold) in H.
    destruct (at_Some_range _ _ _ Hold) as [H0 H1].
    destruct (ub old >? n) eqn:E; injection H as <- <-.
    + split; [|discriminate]. simpl.
      unfold at_ in Hnew. simpl in Hnew. destruct (0 <=? i) eqn:E0; [|lia].
      rewrite list_lookup_insert_eq in Hnew by exact H1.
      injection Hnew as <-. reflexivity.
    + split; [|reflexivity]. simpl. rewrite orb_false_r. reflexivity.
  - unfold update_ub in H. rewrite Hold in H. discriminate.
Qed.

Lemma update_defined_at (i : Var) (n : Z) (s s' : VStore) (c : bool) :
  update_lb i n s = Some (c, s') \/ update_ub i n s = Some (c, s') ->
  exists new, at_ s' i = Some new.
Proof.
  intros [H|H]; destruct (at_ s i) as [old|] eqn:Hold.
  - assert (Hn := update_lb_narrows _ _ _ _ _ H). destruct Hn as [_ Hn].
    destruct (Hn i old Hold) as (new & Hnew & _). eauto.
  - unfold update_lb in H. rewrite Hold in H. discriminate.
  - assert (Hn := update_ub_narrows _ _ _ _ _ H). destruct Hn as [_ Hn].
    destruct (Hn i old Hold) as (new & Hnew & _). eauto.
  - unfold update_ub in H. rewrite Hold in H. discriminate.
Qed.

Lemma update_flag (i : Var) (itv : Interval) (s s' : VStore) (c : bool) (new : Interval) :
  update i itv s = Some (c, s') -> at_ s' i = Some new ->
  (top s = true -> top s' = true) /\
  (c = true -> Itv.is_top new = true -> top s' = true) /\
  (c = false -> s' = s).
Proof.
  intros H Hnew. destruct (update_inv _ _ _ _ _ H) as (c1 & s1 & c2 & H1 & H2 & ->).
  destruct (update_defined_at i (lb itv) s s1 c1 (or_introl H1)) as [new1 Hnew1].
  destruct (update_lb_flag _ _ _ _ _ _ H1 Hnew1) as [T1 K1].
  destruct (update_ub_flag _ _ _ _ _ _ H2 Hnew) as [T2 K2].
  split; [|split].
  - intros Ht. rewrite T2, T1, Ht. reflexivity.
  - intros Hc Hempty. rewrite T2. destruct c2; simpl.
    + rewrite Hempty. apply orb_true_r.
    + rewrite orb_false_r. rewrite (K2 eq_refl) in Hnew.
      rewrite Hnew in Hnew1. injection Hnew1 as <-.
      rewrite T1. rewrite orb_false_r in Hc. rewrite Hc. simpl.
      rewrite Hempty. apply orb_true_r.
  - intros Hc. apply orb_false_iff in Hc as [-> ->].
    rewrite (K2 eq_refl). apply (K1 eq_refl).
Qed.

(** The three facts about the flag, for every call. *)
Lemma run_op_flag (o : Op) (s s' : VStore) (new : Interval) :
  run_op o s = Some s' -> at_ s' (op_var o) = Some new ->
  (top s = true -> top s' = true) /\
  (writes o s = Some true -> Itv.is_top new = true -> top s' = true) /\
  (writes o s = Some false -> s' = s).
Proof.
  intros H Hnew. pose proof (run_op_inv o s s' H) as Hi.
  destruct o; simpl in *.
  - destruct (at_ s x) as [old|] eqn:Hold.
    2:{ unfold dom in H. rewrite Hold in H. discriminate. }
    rewrite (dom_spec x itv old s Hold) in H. injection H as <-.
    destruct (at_Some_range _ _ _ Hold) as [H0 H1].
    unfold at_ in Hnew. simpl in Hnew. destruct (0 <=? x) eqn:E0; [|lia].
    rewrite list_lookup_insert_eq in Hnew by exact H1. injection Hnew as <-.
    simpl. split; [|split].
    + intros ->. reflexivity.
    + intros _ ->. apply orb_true_r.
    + discriminate.
  - destruct Hi as [c Hc]. rewrite Hc. simpl.
    destruct (update_lb_flag _ _ _ _ _ _ Hc Hnew) as [T K]. split; [|split].
    + intros Ht. rewrite T, Ht. reflexivity.
    + intros [= ->] He. rewrite T, He. apply orb_true_r.
    + intros [= ->]. apply (K eq_refl).
  - destruct Hi as [c Hc]. rewrite Hc. simpl.
    destruct (update_ub_flag _ _ _ _ _ _ Hc Hnew) as [T K]. split; [|split].
    + intros Ht. rewrite T, Ht. reflexivity.
    + intros [= ->] He. rewrite T, He. apply orb_true_r.
    + intros [= ->]. apply (K eq_refl).
  - destruct Hi as [c Hc]. rewrite Hc. simpl.
    destruct (update_flag _ _ _ _ _ _ Hc Hnew) as (T & E & K). split; [|split].
    + exact T.
    + intros [= ->]. apply E. reflexivity.
    + intros [= ->]. apply K. reflexivity.
  - destruct Hi as [c Hc]. unfold assign. rewrite Hc. simpl.
    destruct (update_flag _ _ _ _ _ _ Hc Hnew) as (T & E & K). split; [|split].
    + exact T.
    + intros [= ->]. apply E. reflexivity.
    + intros [= ->]. apply K. reflexivity.
Qed.

(** After a call, the slot of its variable is still there. *)
Lemma run_op_slot (o : Op) (s s' : VStore) :
  run_op o s = Some s' -> exists new, at_ s' (op_var o) = Some new.
Proof.
  intros H. pose proof (run_op_inv o s s' H) as Hi. destruct o; simpl in *.
  - destruct (at_ s x) as [old|] eqn:Hold.
    2:{ unfold dom in H. rewrite Hold in H. discriminate. }
    rewrite (dom_spec x itv old s Hold) in H. injection H as <-.
    destruct (at_Some_range _ _ _ Hold) as [H0 H1].
    exists itv. unfold at_. simpl. destruct (0 <=? x) eqn:E0; [|lia].
    apply list_lookup_insert_eq. exact H1.
  - destruct Hi as [c Hc]. eapply update_defined_at. left. exact Hc.
  - destruct Hi as [c Hc]. eapply update_defined_at. right. exact Hc.
  - destruct Hi as [c Hc].
    destruct (update_inv _ _ _ _ _ Hc) as (c1 & s1 & c2 & H1 & H2 & _).
    eapply update_defined_at. right. exact H2.
  - destruct Hi as [c Hc].
    destruct (update_inv _ _ _ _ _ Hc) as (c1 & s1 & c2 & H1 & H2 & _).
    eapply update_defined_at. right. exact H2.
Qed.

Lemma run_op_top_mono (o : Op) (s s' : VStore) :
  run_op o s = Some s' -> is_top s = true -> is_top s' = true.
Proof.
  intros H Ht. destruct (run_op_slot o s s' H) as [new Hnew].
  destruct (run_op_flag o s s' new H Hnew) as (T & _ & _). apply T. exact Ht.
Qed.

Lemma run_ops_top_mono (os : list Op) : forall (s s' : VStore),
  run_ops os s = Some s' -> is_top s = true -> is_top s' = true.
Proof.
  induction os as [|o os IH]; intros s s' H Ht; simpl in H.
  - injection H as <-. exact Ht.
  - destruct (run_op o s) as [s1|] eqn:E; [|discriminate]. simpl in H.
    apply (IH s1 s' H). eapply run_op_top_mono; eauto.
Qed.

(** [reset] copies every slot of [other] when the sizes agree. *)
Lemma reset_loop_data (other : VStore) (n : nat) : forall (d : list Interval),
  length d = length (data other) -> (n <= length d)%nat ->
  foldl (reset_step other) d (seq 0 n) = take n (data other) ++ drop n d.
Proof.
  induction n as [|n IH]; intros d Hlen Hn.
  - simpl. rewrite drop_0. reflexivity.
  - rewrite seq_S, foldl_app. simpl. rewrite IH by lia.
    unfold reset_step.
    destruct (lookup_lt_is_Some_2 (data other) n) as [o Ho]; [lia|].
    rewrite Ho. destruct o as [l u]. simpl.
    rewrite (take_S_r _ _ _ Ho), <- app_assoc. simpl.
    destruct (lookup_lt_is_Some_2 d n) as [x Hx]; [lia|].
    rewrite (drop_S d x n Hx).
    assert (Hk : n = length (take n (data other))) by (rewrite length_take; lia).
    rewrite Hk at 1. rewrite insert_app_r_alt by lia. rewrite Nat.sub_diag.
    reflexivity.
Qed.

Lemma reset_spec (other s : VStore) :
  size s = size other ->
  reset other s = Some (mkVStore (data other) (is_top other)).
Proof.
  intros Hs. unfold reset. rewrite Hs, Nat.eqb_refl. do 2 f_equal.
  unfold size in *. rewrite <- Hs at 1.
  rewrite reset_loop_data by lia.
  rewrite Hs, take_ge, drop_ge by lia. apply app_nil_r.
Qed.

End TopStoreFlag.

Section TopStoreSequences.

Import TopStore.

Lemma run_ops_defined (os : list Op) : forall (s : VStore),
  Forall (fun o => 0 <= op_var o /\ (Z.to_nat (op_var o) < size s)%nat) os ->
  exists s', run_ops os s = Some s' /\ size s' = size s.
Proof.
  induction os as [|o os IH]; intros s Hall; simpl.
  - eauto.
  - inversion Hall as [|? ? [H0 H1] Hrest]; subst.
    destruct (at_in_range s (op_var o) H0 H1) as [old Hold].
    destruct (run_op_defined o s old Hold) as (s1 & E1 & Hs1).
    rewrite E1. simpl.
    destruct (IH s1) as (s' & E' & Hs').
    { rewrite Hs1. exact Hrest. }
    exists s'. split; [exact E'|congruence].
Qed.

(** A call touches the slot of its variable only. *)
Lemma run_op_other_slots (o : Op) (s s' : VStore) (v : Var) :
  run_op o s = Some s' -> v <> op_var o -> at_ s' v = at_ s v.
Proof.
  assert (Hlb : forall i n s c s', update_lb i n s = Some (c, s') ->
            v <> i -> at_ s' v = at_ s v).
  { intros i n s0 c s0' H Hne. destruct (at_ s0 i) as [old|] eqn:Hold.
    - rewrite (update_lb_spec i n s0 old Hold) in H.
      destruct (at_Some_range _ _ _ Hold) as [H0 _].
      destruct (lb old <? n); injection H as <- <-; [|reflexivity].
      apply (at_write_ne s0 i v); [exact H0|congruence].
    - unfold update_lb in H. rewrite Hold in H. discriminate. }
  assert (Hub : forall i n s c s', update_ub i n s = Some (c, s') ->
            v <> i -> at_ s' v = at_ s v).
  { intros i n s0 c s0' H Hne. destruct (at_ s0 i) as [old|] eqn:Hold.
    - rewrite (update_ub_spec i n s0 old Hold) in H.
      destruct (at_Some_range _ _ _ Hold) as [H0 _].
      destruct (ub old >? n); injection H as <- <-; [|reflexivity].
      apply (at_write_ne s0 i v); [exact H0|congruence].
    - unfold update_ub in H. rewrite Hold in H. discriminate. }
  assert (Hup : forall i itv s c s', update i itv s = Some (c, s') ->
            v <> i -> at_ s' v = at_ s v).
  { intros i itv s0 c s0' H Hne.
    destruct (update_inv _ _ _ _ _ H) as (c1 & s1 & c2 & H1 & H2 & _).
    rewrite (Hub _ _ _ _ _ H2 Hne). apply (Hlb _ _ _ _ _ H1 Hne). }
  intros H Hne. pose proof (run_op_inv o s s' H) as Hi. destruct o; simpl in *.
  - destruct (at_ s x) as [old|] eqn:Hold.
    2:{ unfold dom in H. rewrite Hold in H. discriminate. }
    rewrite (dom_spec x itv old s Hold) in H. injection H as <-.
    destruct (at_Some_range _ _ _ Hold) as [H0 _].
    apply (at_write_ne s x v); [exact H0|congruence].
  - destruct Hi as [c Hc]. eapply Hlb; eauto.
  - destruct Hi as [c Hc]. eapply Hub; eauto.
  - destruct Hi as [c Hc]. eapply Hup; eauto.
  - destruct Hi as [c Hc]. eapply Hup; eauto.
Qed.

End TopStoreSequences.

(** ** C1: monotone narrowing *)

(** One call of [update_lb]: the bound is strictly raised and the call
    returns [true], or nothing changes and it returns [false]. *)
Lemma update_lb_step (i : Var) (n : Z) (c : bool) (s s' : TopStore.VStore) :
  TopStore.update_lb i n s = Some (c, s') ->
  exists old, TopStore.at_ s i = Some old /\
    ((c = true /\ lb old < n /\
      TopStore.at_ s' i = Some (mkInterval n (ub old))) \/
     (c = false /\ n <= lb old /\ s' = s)).
Proof.
  intros H. destruct (TopStore.at_ s i) as [old|] eqn:Hold.
  - exists old. split; [reflexivity|].
    rewrite (update_lb_spec i n s old Hold) in H.
    destruct (at_Some_range _ _ _ Hold) as [H0 H1].
    destruct (lb old <? n) eqn:E; injection H as <- <-.
    + left. split; [reflexivity|]. split; [lia|].
      unfold TopStore.at_. simpl. destruct (0 <=? i) eqn:E0; [|lia].
      apply list_lookup_insert_eq. exact H1.
    + right. split; [reflexivity|]. split; [lia|reflexivity].
  - unfold TopStore.update_lb in H. rewrite Hold in H. discriminate.
Qed.

Lemma update_ub_step (i : Var) (n : Z) (c : bool) (s s' : TopStore.VStore) :
  TopStore.update_ub i n s = Some (c, s') ->
  exists old, TopStore.at_ s i = Some old /\
    ((c = true /\ n < ub old /\
      TopStore.at_ s' i = Some (mkInterval (lb old) n)) \/
     (c = false /\ ub old <= n /\ s' = s)).
Proof.
  intros H. destruct (TopStore.at_ s i) as [old|] eqn:Hold.
  - exists old. split; [reflexivity|].
    rewrite (update_ub_spec i n s old Hold) in H.
    destruct (at_Some_range _ _ _ Hold) as [H0 H1].
    destruct (ub old >? n) eqn:E; injection H as <- <-.
    + left. split; [reflexivity|]. split; [lia|].
      unfold TopStore.at_. simpl. destruct (0 <=? i) eqn:E0; [|lia].
      apply list_lookup_insert_eq. exact H1.
    + right. split; [reflexivity|]. split; [lia|reflexivity].
  - unfold TopStore.update_ub in H. rewrite Hold in H. discriminate.
Qed.

(** One call of [update]: some bound is strictly tightened and the call
    returns [true], or nothing changes and it returns [false]. *)
Lemma update_step (i : Var) (itv : Interval) (c : bool) (s s' : TopStore.VStore) :
  TopStore.update i itv s = Some (c, s') ->
  exists old new, TopStore.at_ s i = Some old /\ TopStore.at_ s' i = Some new /\
    lb old <= lb new /\ ub new <= ub old /\
    ((c = true /\ (lb old < lb new \/ ub new < ub old)) \/ (c = false /\ s' = s)).
Proof.
  intros H. destruct (update_inv _ _ _ _ _ H) as (c1 & s1 & c2 & H1 & H2 & ->).
  destruct (update_lb_step _ _ _ _ _ H1) as (old & Hold & [(-> & Hl & A1)|(-> & Hl & ->)]);
  destruct (update_ub_step _ _ _ _ _ H2) as (old1 & Hold1 & [(-> & Hu & A2)|(-> & Hu & ->)]).
  - rewrite A1 in Hold1. injection Hold1 as <-. simpl in *.
    exists old, (mkInterval (lb itv) (ub itv)). simpl.
    repeat split; try assumption; try lia; try (left; split; [reflexivity|lia]).
  - rewrite A1 in Hold1. injection Hold1 as <-. simpl in *.
    exists old, (mkInterval (lb itv) (ub old)). simpl.
    repeat split; try assumption; try lia; try (left; split; [reflexivity|lia]).
  - rewrite Hold in Hold1. injection Hold1 as <-.
    exists old, (mkInterval (lb old) (ub itv)). simpl.
    repeat split; try assumption; try lia; try (left; split; [reflexivity|lia]).
  - rewrite Hold in Hold1. injection Hold1 as <-.
    exists old, old. repeat split; try assumption; try lia;
    try (right; split; reflexivity).
Qed.

(** C1, as amended.  In the store with the top flag, along every
    sequence of [update_lb] / [update_ub] / [update] / [assign] calls the
    lower bound of every variable never decreases and its upper bound
    never increases; the sequence is defined whenever its variables are
    slots of the store, and a single call either strictly tightens a
    bound and returns [true], or returns [false] and leaves the store as
    it was. *)
Theorem update_calls_only_narrow (os : list TopStore.Op) (s : TopStore.VStore) :
  forallb TopStore.is_update os = true ->
  (Forall (fun o => 0 <= TopStore.op_var o /\
                    (Z.to_nat (TopStore.op_var o) < TopStore.size s)%nat) os ->
   exists s', TopStore.run_ops os s = Some s') /\
  (forall s', TopStore.run_ops os s = Some s' ->
     TopStore.size s' = TopStore.size s /\
     forall v itv, TopStore.at_ s v = Some itv ->
       exists itv', TopStore.at_ s' v = Some itv' /\
                    lb itv <= lb itv' /\ ub itv' <= ub itv) /\
  (forall i n c s', TopStore.update_lb i n s = Some (c, s') ->
     exists old, TopStore.at_ s i = Some old /\
       ((c = true /\ lb old < n /\
         TopStore.at_ s' i = Some (mkInterval n (ub old))) \/
        (c = false /\ n <= lb old /\ s' = s))) /\
  (forall i n c s', TopStore.update_ub i n s = Some (c, s') ->
     exists old, TopStore.at_ s i = Some old /\
       ((c = true /\ n < ub old /\
         TopStore.at_ s' i = Some (mkInterval (lb old) n)) \/
        (c = false /\ ub old <= n /\ s' = s))) /\
  (forall i itv c s', TopStore.update i itv s = Some (c, s') ->
     exists old new,
       TopStore.at_ s i = Some old /\ TopStore.at_ s' i = Some new /\
       lb old <= lb new /\ ub new <= ub old /\
       ((c = true /\ (lb old < lb new \/ ub new < ub old)) \/
        (c = false /\ s' = s))) /\
  (forall i v, TopStore.assign i v s = TopStore.update i (mkInterval v v) s).
Proof.
  intros Hu. split; [|split; [|split; [|split; [|split]]]].
  - intros Hall. destruct (run_ops_defined os s Hall) as (s' & E & _). eauto.
  - intros s' H. exact (run_ops_narrows os s s' Hu H).
  - intros i n c s' H. exact (update_lb_step i n c s s' H).
  - intros i n c s' H. exact (update_ub_step i n c s s' H).
  - intros i itv c s' H. exact (update_step i itv c s s' H).
  - reflexivity.
Qed.

Lemma update_calls_only_narrow_witness :
  forallb TopStore.is_update
    [TopStore.OpUpdateLb 1 3; TopStore.OpUpdate 1 (mkInterval 0 7);
     TopStore.OpAssign 0 4] = true /\
  exists s', TopStore.run_ops
    [TopStore.OpUpdateLb 1 3; TopStore.OpUpdate 1 (mkInterval 0 7);
     TopStore.OpAssign 0 4] (TopStore.new 2) = Some s'.
Proof.
  split; [reflexivity|].
  apply (update_calls_only_narrow
           [TopStore.OpUpdateLb 1 3; TopStore.OpUpdate 1 (mkInterval 0 7);
            TopStore.OpAssign 0 4] (TopStore.new 2) eq_refl).
  repeat constructor; simpl; lia.
Defined.

(** The [update] of the store with negated views writes the interval it
    is given: called with a wider interval, it lowers the lower bound and
    raises the upper bound of the slot. *)
Lemma view_store_update_widens :
  ~ (forall (s s' : ViewStore.VStore) (i : Z) (itv old new : Interval) (c : bool),
       ViewStore.update i itv s = Some (c, s') ->
       ViewStore.index s i = Some old -> ViewStore.index s' i = Some new ->
       lb old <= lb new /\ ub new <= ub old).
Proof.
  intros H.
  specialize (H (ViewStore.mkVStore [Itv.default; mkInterval 3 5])
                (ViewStore.mkVStore [Itv.default; mkInterval 0 10])
                1 (mkInterval 0 10) (mkInterval 3 5) (mkInterval 0 10) true
                eq_refl eq_refl eq_refl).
  simpl in H. lia.
Qed.

(** ** C2: the top flag is sticky *)

(** C2.  Once [is_top] holds of a store it holds after every sequence of
    [dom] / [update_lb] / [update_ub] / [update] / [assign] calls; a
    [reset(other)] gives the flag the value it has in [other], and is
    defined exactly when the two stores have the same size. *)
Theorem top_holds_until_reset (s : TopStore.VStore) :
  TopStore.is_top s = true ->
  (forall os s', TopStore.run_ops os s = Some s' -> TopStore.is_top s' = true) /\
  (forall other s', TopStore.reset other s = Some s' ->
     TopStore.is_top s' = TopStore.is_top other) /\
  (forall other, TopStore.size s = TopStore.size other ->
     TopStore.reset other s =
       Some (TopStore.mkVStore (TopStore.data other) (TopStore.is_top other))).
Proof.
  intros Ht. split; [|split].
  - intros os s' H. exact (run_ops_top_mono os s s' H Ht).
  - intros other s' H. unfold TopStore.reset in H.
    destruct (Nat.eqb _ _); [|discriminate]. injection H as <-. reflexivity.
  - intros other Hs. exact (reset_spec other s Hs).
Qed.

Lemma top_holds_until_reset_witness :
  TopStore.is_top (TopStore.mkVStore [mkInterval 1 0; mkInterval 2 9] true) = true /\
  TopStore.reset (TopStore.new 2)
    (TopStore.mkVStore [mkInterval 1 0; mkInterval 2 9] true) =
  Some (TopStore.mkVStore (TopStore.data (TopStore.new 2)) false).
Proof.
  split; [reflexivity|].
  apply (top_holds_until_reset
           (TopStore.mkVStore [mkInterval 1 0; mkInterval 2 9] true) eq_refl).
  reflexivity.
Defined.

(** ** C3: an emptied interval raises the top flag *)

(** The flag after a call that leaves the slot of its variable empty. *)
Lemma run_op_emptied_sets_top
    (o : TopStore.Op) (s s' : TopStore.VStore) (new : Interval) :
  TopStore.run_op o s = Some s' ->
  TopStore.at_ s' (TopStore.op_var o) = Some new ->
  Itv.is_top new = true ->
  TopStore.writes o s = Some true \/ TopStore.flag_covers s (TopStore.op_var o) ->
  TopStore.is_top s' = true.
Proof.
  intros H Hnew He Hw.
  destruct (run_op_flag o s s' new H Hnew) as (T & E & K).
  destruct Hw as [Hw|Hc]; [exact (E Hw He)|].
  destruct (TopStore.writes o s) as [[|]|] eqn:W.
  - exact (E eq_refl He).
  - rewrite (K eq_refl) in *. exact (Hc new Hnew He).
  - exfalso. destruct o; simpl in *.
    + destruct (TopStore.at_ s x) eqn:A; [discriminate|].
      unfold TopStore.dom in H. rewrite A in H. discriminate.
    + destruct (TopStore.update_lb i new_lb s); discriminate.
    + destruct (TopStore.update_ub i new_ub s); discriminate.
    + destruct (TopStore.update i itv s); discriminate.
    + destruct (TopStore.assign i v s); discriminate.
Qed.

(** C3, as amended.  When a call ([dom], [update_lb], [update_ub],
    [update] or [assign]) on variable [v] writes a bound ([dom] always
    does, the others when they return [true]) and leaves the interval of
    [v] empty, the top flag is set after the call; so it is after any
    call on a store whose flag already accounted for slot [v], in
    particular when the interval of [v] was not empty before. *)
Theorem emptied_interval_sets_top
    (o : TopStore.Op) (s s' : TopStore.VStore) (new : Interval) :
  TopStore.run_op o s = Some s' ->
  TopStore.at_ s' (TopStore.op_var o) = Some new ->
  Itv.is_top new = true ->
  TopStore.writes o s = Some true \/ TopStore.flag_covers s (TopStore.op_var o) ->
  TopStore.is_top s' = true.
Proof. exact (run_op_emptied_sets_top o s s' new). Qed.

Lemma emptied_interval_sets_top_witness :
  TopStore.run_op (TopStore.OpUpdateLb 0 5)
      (TopStore.mkVStore [mkInterval 0 3] false) =
    Some (TopStore.mkVStore [mkInterval 5 3] true) /\
  TopStore.is_top (TopStore.mkVStore [mkInterval 5 3] true) = true.
Proof.
  split; [reflexivity|].
  apply (emptied_interval_sets_top (TopStore.OpUpdateLb 0 5)
           (TopStore.mkVStore [mkInterval 0 3] false)
           (TopStore.mkVStore [mkInterval 5 3] true) (mkInterval 5 3)
           eq_refl eq_refl eq_refl).
  left. reflexivity.
Defined.

(** Stores obtained from [new] by these calls have every slot covered by
    the flag, so the second alternative of the theorem holds for them. *)
Lemma new_flag_covers (n : nat) (v : Var) : TopStore.flag_covers (TopStore.new n) v.
Proof.
  intros itv H He. unfold TopStore.at_, TopStore.new, TopStore.Array_new in H.
  simpl in H.
  destruct (0 <=? v); [|discriminate].
  apply lookup_replicate in H as [-> _]. discriminate.
Qed.

Lemma run_op_flag_covers (o : TopStore.Op) (s s' : TopStore.VStore) :
  TopStore.run_op o s = Some s' ->
  (forall v, TopStore.flag_covers s v) -> forall v, TopStore.flag_covers s' v.
Proof.
  intros H Hall v itv Hv He.
  destruct (Z.eq_dec v (TopStore.op_var o)) as [->|Hne].
  - apply (run_op_emptied_sets_top o s s' itv H Hv He). right. apply Hall.
  - rewrite (run_op_other_slots o s s' v H Hne) in Hv.
    apply (run_op_top_mono o s s' H). exact (Hall v itv Hv He).
Qed.

(** A narrowing call that changes nothing leaves the flag as it is, also
    on a slot that is empty: on the copy of a store made top by [dom],
    [update_lb] with a bound that is not tighter returns [false]; the
    interval is empty afterwards and the flag is not set. *)
Lemma unchanged_empty_interval_leaves_flag_unset :
  ~ (forall (o : TopStore.Op) (s s' : TopStore.VStore) (new : Interval),
       TopStore.run_op o s = Some s' ->
       TopStore.at_ s' (TopStore.op_var o) = Some new ->
       Itv.is_top new = true ->
       TopStore.is_top s' = true).
Proof.
  intros H.
  assert (Hdom : TopStore.dom 0 (mkInterval 5 3) (TopStore.new 1) =
                 Some (TopStore.mkVStore [mkInterval 5 3] true)) by reflexivity.
  specialize (H (TopStore.OpUpdateLb 0 0)
                (TopStore.clone (TopStore.mkVStore [mkInterval 5 3] true))
                (TopStore.clone (TopStore.mkVStore [mkInterval 5 3] true))
                (mkInterval 5 3) eq_refl eq_refl eq_refl).
  discriminate H.
Qed.

(** ** C5: copy construction *)

(** The loop of the copy constructor of vstore.cuh copies every slot. *)
Lemma clone_loop_data (other : ViewStore.VStore) (n : nat) : forall (d : list Interval),
  length d = length (ViewStore.data other) -> (n <= length d)%nat ->
  foldl (ViewStore.clone_step other) d (seq 0 n) =
  take n (ViewStore.data other) ++ drop n d.
Proof.
  induction n as [|n IH]; intros d Hlen Hn.
  - simpl. rewrite drop_0. reflexivity.
  - rewrite seq_S, foldl_app. simpl. rewrite IH by lia.
    unfold ViewStore.clone_step.
    destruct (lookup_lt_is_Some_2 (ViewStore.data other) n) as [o Ho]; [lia|].
    rewrite Ho. rewrite (take_S_r _ _ _ Ho), <- app_assoc. simpl.
    destruct (lookup_lt_is_Some_2 d n) as [x Hx]; [lia|].
    rewrite (drop_S d x n Hx).
    assert (Hk : n = length (take n (ViewStore.data other)))
      by (rewrite length_take; lia).
    rewrite Hk at 1. rewrite insert_app_r_alt by lia. rewrite Nat.sub_diag.
    reflexivity.
Qed.

Lemma view_clone_data (s : ViewStore.VStore) :
  ViewStore.data (ViewStore.clone s) = ViewStore.data s.
Proof.
  unfold ViewStore.clone, ViewStore.size. simpl.
  rewrite clone_loop_data.
  - rewrite take_ge, drop_ge; [apply app_nil_r| |]; rewrite ?length_replicate; lia.
  - apply length_replicate.
  - rewrite length_replicate. lia.
Qed.

(** C5, as amended.  The copy of a store has the size of the original
    and the same interval in every slot; its top flag is [false], which
    is the flag of the original when the original is not top.  The copy
    constructor of the store without a flag copies size and slots. *)
Theorem clone_copies_slots_and_clears_top (s : TopStore.VStore) :
  TopStore.size (TopStore.clone s) = TopStore.size s /\
  TopStore.data (TopStore.clone s) = TopStore.data s /\
  (forall v, TopStore.at_ (TopStore.clone s) v = TopStore.at_ s v) /\
  TopStore.is_top (TopStore.clone s) = false /\
  TopStore.is_top (TopStore.clone s) = TopStore.is_top s && false /\
  (forall t : ViewStore.VStore,
     ViewStore.size (ViewStore.clone t) = ViewStore.size t /\
     ViewStore.data (ViewStore.clone t) = ViewStore.data t).
Proof.
  repeat split.
  - rewrite andb_false_r. reflexivity.
  - unfold ViewStore.size. rewrite view_clone_data. reflexivity.
  - apply view_clone_data.
Qed.

(** A store made top by [dom] has a copy that is not top. *)
Lemma clone_of_top_store_not_top :
  exists s, TopStore.dom 0 (mkInterval 1 0) (TopStore.new 1) = Some s /\
            TopStore.is_top s = true /\
            TopStore.is_top (TopStore.clone s) <> TopStore.is_top s.
Proof.
  eexists. split; [reflexivity|]. split; [reflexivity|]. discriminate.
Qed.

(** ** C4: negated views *)

Section ViewStoreFacts.

Import ViewStore.

Lemma view_index_pos (s : VStore) (v : Z) : 0 <= v -> index s v = at_ s v.
Proof. intros H. unfold index. destruct (v <? 0) eqn:E; [lia|reflexivity]. Qed.

Lemma view_index_neg (s : VStore) (v : Z) :
  0 < v <= Int.limit_max -> index s (Int.neg v) = Itv.neg <$> at_ s v.
Proof.
  intros H. unfold index.
  assert (Hn : Int.neg v = - v).
  { apply neg_in_range. unfold Int.limit_min, Int.limit_max, Int.INT_MAX in *. lia. }
  assert (Hnn : Int.neg (Int.neg v) = v).
  { apply neg_neg. unfold Int.limit_min, Int.limit_max, Int.INT_MAX in *. lia. }
  rewrite Hnn. rewrite Hn. destruct (- v <? 0) eqn:E; [reflexivity|lia].
Qed.

Lemma view_update_neg (s : VStore) (v : Z) (itv old : Interval) :
  0 < v <= Int.limit_max -> at_ s v = Some old ->
  update (Int.neg v) itv s =
    Some (Itv.neqb old (mkInterval (Int.neg (ub itv)) (Int.neg (lb itv))),
          mkVStore (<[Z.to_nat v := mkInterval (Int.neg (ub itv)) (Int.neg (lb itv))]>
                      (data s))).
Proof.
  intros H Hold. unfold update.
  assert (Hn : Int.neg v = - v).
  { apply neg_in_range. unfold Int.limit_min, Int.limit_max, Int.INT_MAX in *. lia. }
  assert (Hnn : Int.neg (Int.neg v) = v).
  { apply neg_neg. unfold Int.limit_min, Int.limit_max, Int.INT_MAX in *. lia. }
  rewrite Hnn. rewrite Hn at 1. destruct (- v <? 0) eqn:E; [|lia].
  rewrite Hold. simpl.
  assert (Hr : (Z.to_nat v < length (data s))%nat).
  { unfold at_ in Hold. destruct (0 <=? v); [|discriminate].
    apply lookup_lt_Some in Hold. exact Hold. }
  unfold at_, write. simpl. destruct (0 <=? v) eqn:E0; [|lia].
  rewrite list_lookup_insert_eq by exact Hr. simpl.
  rewrite list_insert_insert_eq. reflexivity.
Qed.

End ViewStoreFacts.

(** C4.  For a variable [v > 0], a read through [v] gives slot [v] of the
    array, a read through [-v] gives the negated view of that slot, and a
    read through [-(-v)] gives the slot again; all three are undefined
    when the array has no slot [v].  Writing an interval through [-v]
    is undefined when the array has no slot [v]; otherwise it puts
    [(-itv.ub, -itv.lb)] into slot [v], keeps the size and changes no
    other slot.  The negations are those of the program; they are the
    opposite numbers as soon as the bounds are above [INT_MIN]. *)
Theorem negated_index_is_negated_view (s : ViewStore.VStore) (v : Z) :
  0 < v <= Int.limit_max ->
  Int.neg v = - v /\
  ViewStore.index s v = ViewStore.data s !! Z.to_nat v /\
  ViewStore.index s (Int.neg v) = Itv.neg <$> (ViewStore.data s !! Z.to_nat v) /\
  ViewStore.index s (Int.neg v) = Itv.neg <$> ViewStore.index s v /\
  ViewStore.index s (Int.neg (Int.neg v)) = ViewStore.index s v /\
  (forall itv, ViewStore.data s !! Z.to_nat v = None ->
     ViewStore.update (Int.neg v) itv s = None) /\
  (forall itv old, ViewStore.data s !! Z.to_nat v = Some old ->
     exists c s',
       ViewStore.update (Int.neg v) itv s = Some (c, s') /\
       ViewStore.data s' =
         <[Z.to_nat v := mkInterval (Int.neg (ub itv)) (Int.neg (lb itv))]>
           (ViewStore.data s) /\
       ViewStore.index s' v =
         Some (mkInterval (Int.neg (ub itv)) (Int.neg (lb itv))) /\
       ViewStore.index s' (Int.neg v) =
         Some (Itv.neg (mkInterval (Int.neg (ub itv)) (Int.neg (lb itv)))) /\
       ViewStore.size s' = ViewStore.size s /\
       (forall k : nat, k <> Z.to_nat v ->
          ViewStore.data s' !! k = ViewStore.data s !! k) /\
       (Int.limit_min < lb itv <= Int.limit_max ->
        Int.limit_min < ub itv <= Int.limit_max ->
        ViewStore.index s' v = Some (mkInterval (- ub itv) (- lb itv)) /\
        ViewStore.index s' (Int.neg v) = Some itv)).
Proof.
  intros H.
  assert (Hn : Int.neg v = - v).
  { apply neg_in_range. unfold Int.limit_min, Int.limit_max, Int.INT_MAX in *. lia. }
  assert (Hnn : Int.neg (Int.neg v) = v).
  { apply neg_neg. unfold Int.limit_min, Int.limit_max, Int.INT_MAX in *. lia. }
  assert (Hat : ViewStore.at_ s v = ViewStore.data s !! Z.to_nat v).
  { unfold ViewStore.at_. destruct (0 <=? v) eqn:E0; [reflexivity|lia]. }
  assert (Hi : ViewStore.index s v = ViewStore.data s !! Z.to_nat v).
  { rewrite view_index_pos by lia. exact Hat. }
  split; [exact Hn|]. split; [exact Hi|].
  split; [|split; [|split; [|split]]].
  - rewrite view_index_neg by exact H. rewrite Hat. reflexivity.
  - rewrite view_index_neg by exact H. rewrite view_index_pos by lia. reflexivity.
  - rewrite Hnn. reflexivity.
  - intros itv Hnone. unfold ViewStore.update.
    rewrite Hnn. rewrite Hn at 1. destruct (- v <? 0) eqn:E; [|lia].
    rewrite Hat, Hnone. reflexivity.
  - intros itv old Hold. rewrite <- Hat in Hold.
    rewrite (view_update_neg s v itv old H Hold).
    eexists _, _. split; [reflexivity|]. split; [reflexivity|].
    assert (Hr : (Z.to_nat v < length (ViewStore.data s))%nat).
    { unfold ViewStore.at_ in Hold. destruct (0 <=? v); [|discriminate].
      apply lookup_lt_Some in Hold. exact Hold. }
    assert (Hv : ViewStore.index
              (ViewStore.mkVStore
                 (<[Z.to_nat v := mkInterval (Int.neg (ub itv)) (Int.neg (lb itv))]>
                    (ViewStore.data s))) v =
            Some (mkInterval (Int.neg (ub itv)) (Int.neg (lb itv)))).
    { rewrite view_index_pos by lia. unfold ViewStore.at_. simpl.
      destruct (0 <=? v) eqn:E0; [|lia]. apply list_lookup_insert_eq. exact Hr. }
    split; [exact Hv|]. split; [|split; [|split]].
    + rewrite view_index_neg by exact H. rewrite <- view_index_pos by lia.
      rewrite Hv. reflexivity.
    + unfold ViewStore.size. simpl. apply length_insert.
    + intros j Hj. simpl. apply list_lookup_insert_ne. congruence.
    + intros Hl Hub. rewrite view_index_neg by exact H.
      rewrite <- view_index_pos by lia. rewrite Hv. simpl.
      unfold Itv.neg. simpl.
      rewrite (neg_neg (lb itv) Hl), (neg_neg (ub itv) Hub).
      rewrite (neg_in_range (lb itv) Hl), (neg_in_range (ub itv) Hub).
      destruct itv; split; reflexivity.
Qed.

Lemma negated_index_is_negated_view_witness :
  0 < 1 <= Int.limit_max /\
  ViewStore.index (ViewStore.mkVStore [Itv.default; mkInterval 2 7]) 1 =
    Some (mkInterval 2 7) /\
  ViewStore.index (ViewStore.mkVStore [Itv.default; mkInterval 2 7]) (Int.neg 1) =
    Some (mkInterval (-7) (-2)) /\
  exists c s',
    ViewStore.update (Int.neg 1) (mkInterval 3 4)
      (ViewStore.mkVStore [Itv.default; mkInterval 2 7]) = Some (c, s') /\
    ViewStore.data s' = [Itv.default; mkInterval (-4) (-3)].
Proof.
  assert (H : 0 < 1 <= Int.limit_max) by (unfold Int.limit_max, Int.INT_MAX; lia).
  destruct (negated_index_is_negated_view
              (ViewStore.mkVStore [Itv.default; mkInterval 2 7]) 1 H)
    as (_ & Hr & Hneg & _ & _ & _ & Hw).
  destruct (Hw (mkInterval 3 4) (mkInterval 2 7) eq_refl)
    as (c & s' & Hu & Hd & _).
  split; [exact H|]. split; [exact Hr|]. split; [exact Hneg|].
  exists c, s'. split; [exact Hu|exact Hd].
Defined.

(** ** The model builder *)

Section BuilderFacts.

Import Builder.

Lemma string_compare_refl (x : string) : String.compare x x = Eq.
Proof.
  induction x as [|a x IH]; simpl; [reflexivity|].
  unfold Ascii.compare. rewrite N.compare_refl. exact IH.
Qed.

Lemma map_find_insert_eq (x : string) (v : Var * Interval) (m : list Entry) :
  map_find x (map_insert x v m) = Some v.
Proof.
  induction m as [|[k w] m IH]; simpl.
  - rewrite String.eqb_refl. reflexivity.
  - destruct (String.compare x k) eqn:E; simpl.
    + apply String.compare_eq_iff in E. subst k.
      rewrite String.eqb_refl. reflexivity.
    + rewrite String.eqb_refl. reflexivity.
    + destruct (String.eqb x k) eqn:Ek; [|exact IH].
      apply String.eqb_eq in Ek. subst k.
      rewrite string_compare_refl in E. discriminate.
Qed.

Lemma map_find_insert_ne (x y : string) (v : Var * Interval) (m : list Entry) :
  x <> y -> map_find y (map_insert x v m) = map_find y m.
Proof.
  intros Hne. induction m as [|[k w] m IH]; simpl.
  - destruct (String.eqb y x) eqn:E; [|reflexivity].
    apply String.eqb_eq in E. congruence.
  - destruct (String.compare x k) eqn:E; simpl.
    + apply String.compare_eq_iff in E. subst k.
      destruct (String.eqb y x) eqn:Ey; [|reflexivity].
      apply String.eqb_eq in Ey. congruence.
    + destruct (String.eqb y x) eqn:Ey; [|reflexivity].
      apply String.eqb_eq in Ey. congruence.
    + destruct (String.eqb y k); [reflexivity|exact IH].
Qed.

Lemma map_insert_In (x : string) (v : Var * Interval) (m : list Entry) :
  In (x, v) (map_insert x v m).
Proof.
  induction m as [|[k w] m IH]; simpl.
  - left. reflexivity.
  - destruct (String.compare x k) eqn:E; simpl.
    + apply String.compare_eq_iff in E. subst k. left. reflexivity.
    + left. reflexivity.
    + right. exact IH.
Qed.

Lemma map_insert_Forall (P : Entry -> Prop) (x : string) (v : Var * Interval)
    (m : list Entry) :
  Forall P m -> P (x, v) -> Forall P (map_insert x v m).
Proof.
  intros Hm Hv. induction Hm as [|[k w] m Hkw Hm IH]; simpl.
  - constructor; [exact Hv|constructor].
  - destruct (String.compare x k) eqn:E.
    + apply String.compare_eq_iff in E. subst k. constructor; assumption.
    + constructor; [exact Hv|]. constructor; assumption.
    + constructor; [exact Hkw|exact IH].
Qed.

Lemma builder_eta (b : ModelBuilder) :
  mkModelBuilder (var2idx b) (idx2var b) (constraints b) (minimize_obj b) = b.
Proof. destruct b; reflexivity. Qed.

(** Looking a registered name up changes nothing. *)
Lemma index_of_registered (x : string) (b : ModelBuilder) (xi : Var) (d : Interval) :
  map_find x (var2idx b) = Some (xi, d) -> index_of x b = Ok (xi, b).
Proof.
  intros H. unfold index_of, map_index. rewrite H. simpl.
  rewrite builder_eta. reflexivity.
Qed.

Lemma domain_of_registered (x : string) (b : ModelBuilder) (xi : Var) (d : Interval) :
  map_find x (var2idx b) = Some (xi, d) -> domain_of x b = Ok (d, b).
Proof.
  intros H. unfold domain_of, map_index. rewrite H. simpl.
  rewrite builder_eta. reflexivity.
Qed.

(** The recursive calls of [make_temporal_constraint] are those with
    [LE] and [GE] only. *)
Lemma make_temporal_constraint_body_ext
    (self1 self2 : string -> Z -> OrderType -> string -> M Propagator)
    (x : string) (k : Z) (op : OrderType) (y : string) (b : ModelBuilder) :
  (forall k' b', self1 x k' LE y b' = self2 x k' LE y b') ->
  (forall k' b', self1 x k' GE y b' = self2 x k' GE y b') ->
  make_temporal_constraint_body self1 x k op y b =
  make_temporal_constraint_body self2 x k op y b.
Proof.
  intros Hle Hge. unfold make_temporal_constraint_body, bind.
  destruct (index_of x b) as [[xi b1]| | |]; try reflexivity.
  destruct (index_of y b1) as [[yi b2]| | |]; try reflexivity.
  destruct ((xi =? 0) || (yi =? 0)); [reflexivity|].
  destruct op; simpl; try reflexivity.
  rewrite Hle. destruct (self2 x k LE y b2) as [[p1 b3]| | |]; try reflexivity.
  rewrite Hge. reflexivity.
Qed.

Lemma make_temporal_constraint_fuel_leaf (n : nat) (x : string) (k : Z)
    (op : OrderType) (y : string) (b : ModelBuilder) :
  op <> EQ ->
  make_temporal_constraint_fuel (S n) x k op y b =
  make_temporal_constraint_fuel 1 x k op y b.
Proof.
  intros Hop. simpl. unfold make_temporal_constraint_body, bind.
  destruct (index_of x b) as [[xi b1]| | |]; try reflexivity.
  destruct (index_of y b1) as [[yi b2]| | |]; try reflexivity.
  destruct ((xi =? 0) || (yi =? 0)); [reflexivity|].
  destruct op; simpl; try reflexivity. congruence.
Qed.

(** Two levels of recursion are enough: more fuel gives the same result,
    and the result is never [OutOfFuel]. *)
Lemma make_temporal_constraint_fuel_enough (n : nat) (x : string) (k : Z)
    (op : OrderType) (y : string) (b : ModelBuilder) :
  make_temporal_constraint_fuel (S (S n)) x k op y b =
  make_temporal_constraint x k op y b.
Proof.
  unfold make_temporal_constraint.
  change (make_temporal_constraint_fuel (S (S n)) x k op y b)
    with (make_temporal_constraint_body (make_temporal_constraint_fuel (S n)) x k op y b).
  change (make_temporal_constraint_fuel 2 x k op y b)
    with (make_temporal_constraint_body (make_temporal_constraint_fuel 1) x k op y b).
  apply make_temporal_constraint_body_ext; intros k' b';
    apply make_temporal_constraint_fuel_leaf; discriminate.
Qed.

Lemma make_temporal_constraint_terminates (x : string) (k : Z)
    (op : OrderType) (y : string) (b : ModelBuilder) :
  make_temporal_constraint x k op y b <> OutOfFuel.
Proof.
  unfold make_temporal_constraint. simpl.
  unfold make_temporal_constraint_body, bind.
  destruct (index_of x b) as [[xi b1]| | |] eqn:Ex; try discriminate.
  2:{ unfold index_of in Ex. destruct (map_index x (var2idx b)). discriminate. }
  destruct (index_of y b1) as [[yi b2]| | |] eqn:Ey; try discriminate.
  2:{ unfold index_of in Ey. destruct (map_index y (var2idx b1)). discriminate. }
  destruct ((xi =? 0) || (yi =? 0)); [discriminate|].
  destruct op; simpl; try discriminate.
  destruct (index_of x b2) as [[xi' b3]| | |] eqn:Ex2; try discriminate.
  2:{ unfold index_of in Ex2. destruct (map_index x (var2idx b2)). discriminate. }
  destruct (index_of y b3) as [[yi' b4]| | |] eqn:Ey2; try discriminate.
  2:{ unfold index_of in Ey2. destruct (map_index y (var2idx b3)). discriminate. }
  destruct ((xi' =? 0) || (yi' =? 0)); [discriminate|]. simpl.
  destruct (index_of x b4) as [[xi3 b5]| | |] eqn:Ex3; try discriminate.
  2:{ unfold index_of in Ex3. destruct (map_index x (var2idx b4)). discriminate. }
  destruct (index_of y b5) as [[yi3 b6]| | |] eqn:Ey3; try discriminate.
  2:{ unfold index_of in Ey3. destruct (map_index y (var2idx b5)). discriminate. }
  destruct ((xi3 =? 0) || (yi3 =? 0)); discriminate.
Qed.

End BuilderFacts.

Section BuilderOperators.

Import Builder.

(** [strengthen_domain2] throws on [NE] and [IN], whatever the name. *)
Lemma strengthen_domain2_rejects (x : string) (op : OrderType) (k : Z) (b : ModelBuilder) :
  op = NE \/ op = IN -> strengthen_domain2 x op k b = Throw unsupported_unary.
Proof.
  intros [-> | ->]; unfold strengthen_domain2, bind, domain_of, set_domain;
    destruct (map_index x (var2idx b)) as [v m]; simpl;
    destruct (map_index x m) as [v' m']; reflexivity.
Qed.


Lemma strengthen_domain2_registered (x : string) (op : OrderType) (k : Z)
    (b : ModelBuilder) (xi : Var) (d : Interval) :
  map_find x (var2idx b) = Some (xi, d) ->
  strengthen_domain2 x op k b =
    match op with
    | NE | IN => Throw unsupported_unary
    | _ =>
      Ok (tt, mkModelBuilder
                (map_insert x
                   (xi, match op with
                        | LT => mkInterval (lb d) (Int.sub k 1)
                        | GT => mkInterval (Int.add k 1) (ub d)
                        | LE => mkInterval (lb d) k
                        | GE => mkInterval k (ub d)
                        | _ => mkInterval k k
                        end) (var2idx b))
                (idx2var b) (constraints b) (minimize_obj b))
    end.
Proof.
  intros H. unfold strengthen_domain2, bind.
  rewrite (domain_of_registered x b xi d H).
  unfold set_domain, map_index. rewrite H.
  destruct op; simpl; try reflexivity; destruct d; reflexivity.
Qed.

End BuilderOperators.

(** ** C7: normalisation of the operators *)



(** ** C6: the bound computed from [X * a <= b] *)

Section BuilderLeMul.

Import Builder.

(** The node of [X * a <= b]. *)
Lemma le_mul_domain_shape (x : string) (a c : Z) (b : ModelBuilder) :
  le_mul_domain
    (NodeOperator OLE [NodeOperator OMUL [NodeVariable x; NodeConstant a];
                       NodeConstant c]) b =
  match le_mul_domain_body x a c b with
  | Ok (_, b') => Ok (true, b')
  | Throw w => Throw w
  | Undefined => Undefined
  | OutOfFuel => OutOfFuel
  end.
Proof. reflexivity. Qed.

(** The division has a value unless the divisor is 0, or is -1 with the
    dividend [INT_MIN]. *)
Lemma div_defined_true (c a : Z) :
  a <> 0 -> a <> -1 \/ c <> Int.limit_min -> Int.div_defined c a = true.
Proof.
  intros Ha H. unfold Int.div_defined.
  destruct (Z.eqb_spec a 0); [contradiction|]. simpl.
  destruct (Z.eqb_spec c Int.limit_min), (Z.eqb_spec a (-1)); simpl;
    try reflexivity.
  destruct H; contradiction.
Qed.

(** [X * -1 <= INT_MIN] makes the program divide [INT_MIN] by [-1]. *)
Lemma le_mul_domain_quotient_without_value (x : string) (b : ModelBuilder) :
  le_mul_domain
    (NodeOperator OLE [NodeOperator OMUL [NodeVariable x; NodeConstant (-1)];
                       NodeConstant Int.limit_min]) b = Undefined.
Proof. reflexivity. Qed.

(** With [a > 0] the upper bound of [X] is overwritten, by the quotient
    when [b >= 0] and by [b / a - (-b % a)] when [b < 0]. *)
Lemma le_mul_domain_body_positive (x : string) (a c : Z) (b : ModelBuilder)
    (xi : Var) (d : Interval) :
  map_find x (var2idx b) = Some (xi, d) -> 0 < a ->
  le_mul_domain_body x a c b =
    Ok (tt, mkModelBuilder
              (map_insert x
                 (xi, mkInterval (lb d)
                        (if c =? 0 then 0
                         else if c >? 0 then Int.div c a
                         else Int.sub (Int.div c a) (Int.rem (Int.neg c) a)))
                 (var2idx b))
              (idx2var b) (constraints b) (minimize_obj b)).
Proof.
  intros Hx Ha. unfold le_mul_domain_body.
  destruct (a =? 0) eqn:Ea; [lia|].
  destruct (a >? 0) eqn:Ea'; [|lia].
  destruct (c =? 0) eqn:Ec.
  - rewrite (strengthen_domain2_registered x LE 0 b xi d Hx). reflexivity.
  - rewrite (div_defined_true c a) by lia.
    simpl. destruct (c >? 0) eqn:Ec'.
    + rewrite (strengthen_domain2_registered x LE _ b xi d Hx). reflexivity.
    + destruct (c <? 0) eqn:Ec''; [|lia].
      rewrite (strengthen_domain2_registered x LE _ b xi d Hx). reflexivity.
Qed.

(** For [b >= 0] the bound is the floor of [b / a]. *)
Lemma le_mul_bound_nonneg (a c : Z) :
  0 < a -> 0 <= c <= Int.limit_max ->
  (if c =? 0 then 0 else if c >? 0 then Int.div c a
   else Int.sub (Int.div c a) (Int.rem (Int.neg c) a)) = c / a.
Proof.
  intros Ha Hc. destruct (c =? 0) eqn:Ec.
  - apply Z.eqb_eq in Ec. subst c. rewrite Z.div_0_l by lia. reflexivity.
  - destruct (c >? 0) eqn:Ec'; [|lia]. unfold Int.div.
    rewrite Z.quot_div_nonneg by lia. apply wrap_in_range.
    unfold Int.in_range, Int.limit_min, Int.limit_max, Int.INT_MAX in *.
    assert (0 <= c / a) by (apply Z.div_pos; lia).
    assert (c / a <= c) by (apply Z.div_le_upper_bound; nia).
    lia.
Qed.

(** For [b < 0] the bound is the floor of [b / a] only when the
    remainder of [-b] by [a] is 0 or 1: the remainder itself is
    subtracted, where the floor is one below the truncated quotient. *)
Lemma le_mul_bound_negative (a c : Z) :
  0 < a <= Int.limit_max -> Int.limit_min < c < 0 ->
  Int.sub (Int.div c a) (Int.rem (Int.neg c) a) =
    if (- c) mod a =? 0 then c / a else c / a - ((- c) mod a - 1).
Proof.
  intros Ha Hc.
  unfold Int.limit_min, Int.limit_max, Int.INT_MAX in *.
  assert (Hn : Int.neg c = - c).
  { apply neg_in_range. unfold Int.limit_min, Int.limit_max, Int.INT_MAX. lia. }
  rewrite Hn.
  assert (Hq : Z.quot c a = - ((- c) / a)).
  { replace c with (- (- c)) at 1 by lia. rewrite Z.quot_opp_l by lia.
    rewrite Z.quot_div_nonneg by lia. reflexivity. }
  assert (Hr : Z.rem (- c) a = (- c) mod a) by (apply Z.rem_mod_nonneg; lia).
  pose proof (Z.div_mod (- c) a ltac:(lia)) as Hdm.
  pose proof (Z.mod_pos_bound (- c) a ltac:(lia)) as Hmb.
  assert (Hdp : 0 <= (- c) / a) by (apply Z.div_pos; lia).
  assert (Hdu : (- c) / a <= - c) by (apply Z.div_le_upper_bound; nia).
  unfold Int.sub, Int.div, Int.rem. rewrite Hq, Hr.
  rewrite (wrap_in_range (- (- c / a)))
    by (unfold Int.in_range, Int.limit_min, Int.limit_max, Int.INT_MAX; lia).
  rewrite (wrap_in_range (- c mod a))
    by (unfold Int.in_range, Int.limit_min, Int.limit_max, Int.INT_MAX; lia).
  rewrite wrap_in_range
    by (unfold Int.in_range, Int.limit_min, Int.limit_max, Int.INT_MAX; nia).
  destruct (- c mod a =? 0) eqn:E.
  - apply Z.eqb_eq in E. rewrite E.
    assert (c / a = - (- c / a)).
    { symmetry. apply Z.div_unique_exact; [lia|]. nia. }
    lia.
  - apply Z.eqb_neq in E.
    assert (c / a = - (- c / a) - 1).
    { symmetry. apply (Z.div_unique_pos c a _ (a - (- c) mod a)); [lia|]. nia. }
    lia.
Qed.

End BuilderLeMul.

(** C6, at a failing input.  For [x * 5 <= -7], with [x] in [-10..10],
    the builder sets the upper bound of [x] to [-3]; the floor of
    [-7 / 5] is [-2], and [x = -2] satisfies the constraint. *)
Theorem le_mul_domain_negative_rhs_below_floor :
  exists b',
    Builder.le_mul_domain
      (Builder.NodeOperator Builder.OLE
         [Builder.NodeOperator Builder.OMUL
            [Builder.NodeVariable "x"; Builder.NodeConstant 5];
          Builder.NodeConstant (-7)]) Builder.sample = Builder.Ok (true, b') /\
    Builder.map_find "x" (Builder.var2idx Builder.sample) =
      Some (1, mkInterval (-10) 10) /\
    Builder.map_find "x" (Builder.var2idx b') = Some (1, mkInterval (-10) (-3)) /\
    (-7) / 5 = -2 /\ (-2) * 5 <= -7.
Proof.
  eexists. split; [vm_compute; reflexivity|].
  split; [reflexivity|]. split; [reflexivity|]. split; [reflexivity|lia].
Qed.

(** ** C8: contradictions found at the root *)

Section BuilderStore.

Import Builder.

(** [build_store] writes every entry; the store is top as soon as one
    entry has an empty interval. *)
Lemma dom_all_spec (m : list Entry) : forall (s : TopStore.VStore),
  Forall (fun e : Entry => 0 <= fst (snd e) < Z.of_nat (TopStore.size s)) m ->
  exists s', dom_all m s = Some s' /\
             TopStore.size s' = TopStore.size s /\
             TopStore.top s' =
               TopStore.top s || existsb (fun e : Entry => Itv.is_top (snd (snd e))) m.
Proof.
  induction m as [|[k [idx itv]] m IH]; intros s Hall; simpl.
  - exists s. rewrite orb_false_r. auto.
  - inversion Hall as [|? ? Hidx Hrest]; subst. simpl in Hidx.
    destruct (at_in_range s idx) as [old Hold]; [lia|lia|].
    rewrite (dom_spec idx itv old s Hold). simpl.
    set (s1 := TopStore.mkVStore _ _).
    assert (Hs1 : TopStore.size s1 = TopStore.size s).
    { unfold TopStore.size, s1. simpl. apply length_insert. }
    destruct (IH s1) as (s' & E & Hs & Ht).
    { rewrite Hs1. exact Hrest. }
    exists s'. split; [exact E|]. split; [congruence|].
    rewrite Ht. unfold s1. simpl. rewrite orb_assoc. reflexivity.
Qed.

Lemma existsb_In_true {A} (f : A -> bool) (l : list A) (x : A) :
  In x l -> f x = true -> existsb f l = true.
Proof. intros Hin Hf. apply existsb_exists. exists x. auto. Qed.

(** [add_var] on a well-formed builder: the new index is the old number
    of variables, and the builder stays well formed. *)
Lemma add_var_spec (name : string) (lo hi : Z) (b : ModelBuilder) :
  wf b ->
  add_var name lo hi b =
    Ok (tt, mkModelBuilder
              (map_insert name (Z.of_nat (length (idx2var b)), mkInterval lo hi)
                          (var2idx b))
              (idx2var b ++ [name]) (constraints b) (minimize_obj b)).
Proof.
  intros (Hlen & _ & _). unfold add_var. rewrite wrap_in_range; [reflexivity|].
  unfold Int.in_range, Int.limit_min, Int.limit_max, Int.INT_MAX in *. lia.
Qed.

Lemma build_store_after_add_var (name : string) (lo hi : Z) (b : ModelBuilder) :
  wf b ->
  exists s,
    build_store
      (mkModelBuilder
         (map_insert name (Z.of_nat (length (idx2var b)), mkInterval lo hi) (var2idx b))
         (idx2var b ++ [name]) (constraints b) (minimize_obj b)) = Some s /\
    TopStore.size s = S (length (idx2var b)) /\
    (Itv.is_top (mkInterval lo hi) = true -> TopStore.is_top s = true).
Proof.
  intros (Hlen & Hall & Hpos). unfold build_store. simpl.
  rewrite length_app. simpl.
  destruct (dom_all_spec
              (map_insert name (Z.of_nat (length (idx2var b)), mkInterval lo hi)
                          (var2idx b))
              (TopStore.new (length (idx2var b) + 1))) as (s & E & Hs & Ht).
  { apply map_insert_Forall.
    - eapply Forall_impl; [exact Hall|]. intros e He. cbv beta in He.
      unfold TopStore.size, TopStore.new, TopStore.Array_new. simpl. rewrite length_replicate. lia.
    - unfold TopStore.size, TopStore.new, TopStore.Array_new. simpl. rewrite length_replicate. lia. }
  exists s. split; [exact E|]. split.
  - rewrite Hs. unfold TopStore.size, TopStore.new, TopStore.Array_new. simpl.
    rewrite length_replicate. lia.
  - intros He. unfold TopStore.is_top. rewrite Ht. simpl.
    apply (existsb_In_true _ _ (name, (Z.of_nat (length (idx2var b)), mkInterval lo hi))).
    + apply map_insert_In.
    + exact He.
Qed.

Lemma map_find_In (x : string) (v : Var * Interval) (m : list Entry) :
  map_find x m = Some v -> In (x, v) m.
Proof.
  induction m as [|[k w] m IH]; simpl; [discriminate|].
  destruct (String.eqb x k) eqn:E.
  - apply String.eqb_eq in E. subst k. intros [= ->]. left. reflexivity.
  - intros H. right. exact (IH H).
Qed.

(** The entries of [m[x]] and of the map afterwards are in range when
    those of [m] are. *)
Lemma map_index_in_range (x : string) (m : list Entry) (n : Z) :
  0 < n -> Forall (fun e : Entry => 0 <= fst (snd e) < n) m ->
  0 <= fst (fst (map_index x m)) < n /\
  Forall (fun e : Entry => 0 <= fst (snd e) < n) (snd (map_index x m)).
Proof.
  intros Hn Hall. unfold map_index. destruct (map_find x m) as [v|] eqn:E; simpl.
  - split; [|exact Hall]. apply map_find_In in E.
    rewrite Forall_forall in Hall. exact (Hall (x, v) ltac:(apply list_elem_of_In; exact E)).
  - split; [lia|]. apply map_insert_Forall; [exact Hall|simpl; lia].
Qed.

(** The builder of the constructor is well formed, and the operations on
    [var2idx] and [idx2var] keep a builder well formed. *)
Lemma wf_create : exists b, create = Ok (tt, b) /\ wf b.
Proof.
  eexists. split; [reflexivity|]. unfold wf. split; [|split].
  - vm_compute. reflexivity.
  - simpl. repeat (constructor; [split; vm_compute; congruence|]). constructor.
  - simpl. lia.
Qed.

Lemma wf_add_var (name : string) (lo hi : Z) (b b' : ModelBuilder) :
  wf b -> Z.of_nat (length (idx2var b)) + 1 < Int.limit_max ->
  add_var name lo hi b = Ok (tt, b') -> wf b'.
Proof.
  intros Hwf Hroom H. rewrite (add_var_spec name lo hi b Hwf) in H.
  injection H as <-. destruct Hwf as (Hlen & Hall & Hpos).
  unfold wf. simpl. rewrite length_app. simpl. split; [lia|]. split; [|lia].
  apply map_insert_Forall.
  - eapply Forall_impl; [exact Hall|]. intros e He. cbv beta in He. lia.
  - simpl. lia.
Qed.

Lemma wf_index_of (x : string) (b b' : ModelBuilder) (xi : Var) :
  wf b -> index_of x b = Ok (xi, b') -> wf b'.
Proof.
  intros (Hlen & Hall & Hpos) H. unfold index_of in H.
  assert (Hn : 0 < Z.of_nat (length (idx2var b))) by lia.
  destruct (map_index_in_range x (var2idx b) _ Hn Hall) as [_ Hm].
  destruct (map_index x (var2idx b)) as [v m]. injection H as _ <-.
  unfold wf. simpl. auto.
Qed.

Lemma wf_domain_of (x : string) (b b' : ModelBuilder) (d : Interval) :
  wf b -> domain_of x b = Ok (d, b') -> wf b'.
Proof.
  intros (Hlen & Hall & Hpos) H. unfold domain_of in H.
  assert (Hn : 0 < Z.of_nat (length (idx2var b))) by lia.
  destruct (map_index_in_range x (var2idx b) _ Hn Hall) as [_ Hm].
  destruct (map_index x (var2idx b)) as [v m]. injection H as _ <-.
  unfold wf. simpl. auto.
Qed.

Lemma wf_set_domain (x : string) (itv : Interval) (b b' : ModelBuilder) :
  wf b -> set_domain x itv b = Ok (tt, b') -> wf b'.
Proof.
  intros (Hlen & Hall & Hpos) H. unfold set_domain in H.
  assert (Hn : 0 < Z.of_nat (length (idx2var b))) by lia.
  destruct (map_index_in_range x (var2idx b) _ Hn Hall) as [Hv Hm].
  destruct (map_index x (var2idx b)) as [v m]. injection H as <-.
  unfold wf. simpl in *. split; [exact Hlen|]. split; [|exact Hpos].
  apply map_insert_Forall; [exact Hm|exact Hv].
Qed.

Lemma wf_push_propagator (p : Propagator) (b b' : ModelBuilder) :
  wf b -> push_propagator p b = Ok (tt, b') -> wf b'.
Proof. intros Hwf H. injection H as <-. exact Hwf. Qed.

End BuilderStore.

(** C8.  On a contradiction found at the root, a comparison [c1 <= c2]
    of two constants with [c1 > c2] or a constraint [X * 0 <= b] with
    [b < 0], the builder throws nothing: it returns, having registered
    the fake variable with domain [(1, 0)], which is empty; the store
    built afterwards is top. *)
Theorem root_contradiction_registers_empty_variable
    (b : Builder.ModelBuilder) (c1 c2 : Z) (x : string) (c : Z) (n : nat) :
  Builder.wf b -> c1 > c2 -> c < 0 -> n <> 1%nat ->
  let b' :=
    Builder.mkModelBuilder
      (Builder.map_insert Builder.fake_var
         (Z.of_nat (length (Builder.idx2var b)), mkInterval 1 0) (Builder.var2idx b))
      (Builder.idx2var b ++ [Builder.fake_var])
      (Builder.constraints b) (Builder.minimize_obj b) in
  let cmp :=
    Builder.NodeOperator Builder.OLE
      [Builder.NodeConstant c1; Builder.NodeConstant c2] in
  let mul :=
    Builder.NodeOperator Builder.OLE
      [Builder.NodeOperator Builder.OMUL
         [Builder.NodeVariable x; Builder.NodeConstant 0];
       Builder.NodeConstant c] in
  Builder.tautology cmp b = Builder.Ok (true, b') /\
  Builder.add_linear_constraint cmp b = Builder.Ok (tt, b') /\
  Builder.add_constraint (Builder.mkTree n cmp) b = Builder.Ok (tt, b') /\
  Builder.le_mul_domain mul b = Builder.Ok (true, b') /\
  Builder.strengthen_domain_from_node mul b = Builder.Ok (tt, b') /\
  Builder.add_constraint (Builder.mkTree 1 mul) b = Builder.Ok (tt, b') /\
  Builder.map_find Builder.fake_var (Builder.var2idx b') =
    Some (Z.of_nat (length (Builder.idx2var b)), mkInterval 1 0) /\
  Itv.is_top (mkInterval 1 0) = true /\
  exists s, Builder.build_store b' = Some s /\ TopStore.is_top s = true.
Proof.
  intros Hwf Hc12 Hc Hn b' cmp mul.
  assert (Hadd : Builder.add_var Builder.fake_var 1 0 b = Builder.Ok (tt, b'))
    by (apply add_var_spec; exact Hwf).
  assert (Htaut : Builder.tautology cmp b = Builder.Ok (true, b')).
  { unfold Builder.tautology, cmp, Builder.bind.
    cbn -[Builder.add_var Z.leb].
    destruct (c1 <=? c2) eqn:E; [lia|]. rewrite Hadd. reflexivity. }
  assert (Hlin : Builder.add_linear_constraint cmp b = Builder.Ok (tt, b')).
  { unfold Builder.add_linear_constraint. simpl. unfold Builder.bind at 1.
    rewrite Htaut. reflexivity. }
  assert (Hmul : Builder.le_mul_domain mul b = Builder.Ok (true, b')).
  { unfold mul. rewrite le_mul_domain_shape. unfold Builder.le_mul_domain_body.
    cbn -[Builder.add_var Z.ltb].
    destruct (c <? 0) eqn:E; [|lia]. rewrite Hadd. reflexivity. }
  assert (Hsd : Builder.strengthen_domain_from_node mul b = Builder.Ok (tt, b')).
  { unfold Builder.strengthen_domain_from_node. simpl. unfold Builder.bind at 1.
    rewrite Hmul. reflexivity. }
  split; [exact Htaut|]. split; [exact Hlin|]. split; [|split; [exact Hmul|]].
  - unfold Builder.add_constraint. simpl.
    destruct (Nat.eqb n 1) eqn:E; [apply Nat.eqb_eq in E; contradiction|].
    exact Hlin.
  - split; [exact Hsd|]. split; [exact Hsd|].
    split; [apply map_find_insert_eq|]. split; [reflexivity|].
    destruct (build_store_after_add_var Builder.fake_var 1 0 b Hwf) as (s & E & _ & Ht).
    exists s. split; [exact E|]. apply Ht. reflexivity.
Qed.

Lemma sample_wf : Builder.wf Builder.sample.
Proof.
  unfold Builder.wf. split; [|split].
  - vm_compute. reflexivity.
  - unfold Builder.sample, Builder.after, Builder.create. simpl.
    repeat (constructor; [split; vm_compute; congruence|]). constructor.
  - simpl. lia.
Defined.

Lemma root_contradiction_registers_empty_variable_witness :
  Builder.wf Builder.sample /\ 3 > 2 /\ -1 < 0 /\ 0%nat <> 1%nat /\
  exists b',
    Builder.add_constraint
      (Builder.mkTree 0
         (Builder.NodeOperator Builder.OLE
            [Builder.NodeConstant 3; Builder.NodeConstant 2])) Builder.sample =
      Builder.Ok (tt, b') /\
    exists s, Builder.build_store b' = Some s /\ TopStore.is_top s = true.
Proof.
  assert (H1 : 3 > 2) by lia.
  assert (H2 : -1 < 0) by lia.
  assert (H3 : 0%nat <> 1%nat) by lia.
  split; [exact sample_wf|]. split; [exact H1|]. split; [exact H2|].
  split; [exact H3|].
  destruct (root_contradiction_registers_empty_variable
              Builder.sample 3 2 "x" (-1) 0 sample_wf H1 H2 H3)
    as (_ & _ & Hadd & _ & _ & _ & _ & _ & Hs).
  eexists. split; [exact Hadd|]. exact Hs.
Defined.

(** ** C9 and C10: the default configuration *)

(** C9, as amended.  The default configuration has [or_nodes = 0] and
    [subproblems_power = 12], that is [2^12 = 4096] subproblems. *)
Theorem default_or_nodes_and_subproblems (cudacc : bool) :
  Config.or_nodes (Config.default cudacc) = 0 /\
  Config.subproblems_power (Config.default cudacc) = 12 /\
  Config.num_subproblems (Config.default cudacc) = 4096.
Proof. repeat split. Qed.

Lemma default_or_nodes_is_not_one :
  Config.or_nodes (Config.default false) <> 1 /\
  Config.or_nodes (Config.default true) <> 1.
Proof. split; discriminate. Qed.

(** C10.  The default configuration has [stop_after_n_solutions = 1]:
    the search stops after the first solution, 0 being the value that
    asks for all of them. *)
Theorem default_stops_after_first_solution (cudacc : bool) :
  Config.stop_after_n_solutions (Config.default cudacc) = 1 /\
  Config.enumerates_all_solutions (Config.default cudacc) = false.
Proof. split; reflexivity. Qed.

(** * Further properties of the store with a top flag *)

(** Case analysis on every comparison of the goal. *)
Ltac zbools :=
  repeat match goal with
  | |- context [Z.eqb ?a ?b] => destruct (Z.eqb_spec a b)
  | |- context [Z.ltb ?a ?b] => destruct (Z.ltb_spec a b)
  | |- context [Z.leb ?a ?b] => destruct (Z.leb_spec a b)
  | |- context [Z.gtb ?a ?b] => destruct (Z.gtb_spec a b)
  | |- context [Z.geb ?a ?b] => destruct (Z.geb_spec a b)
  end; simpl.

Section TopStoreUpdate.

Import TopStore.

Lemma neqb_refl_false (a : Interval) : Itv.neqb a a = false.
Proof. unfold Itv.neqb. rewrite !Z.eqb_refl. reflexivity. Qed.

Lemma neqb_false_eq (a b : Interval) : Itv.neqb a b = false -> a = b.
Proof.
  unfold Itv.neqb. intros H. apply orb_false_iff in H as [H1 H2].
  apply negb_false_iff in H1, H2. apply Z.eqb_eq in H1, H2.
  destruct a, b. simpl in *. congruence.
Qed.

(** The closed form of [update]. *)
Lemma update_closed_form (i : Var) (itv old : Interval) (s : VStore) :
  at_ s i = Some old ->
  update i itv s =
    Some (Itv.neqb old (Itv.join old itv),
          mkVStore (<[Z.to_nat i := Itv.join old itv]> (data s))
                   (top s || (Itv.neqb old (Itv.join old itv)
                              && Itv.is_top (Itv.join old itv)))).
Proof.
  intros Hold. destruct (at_Some_range _ _ _ Hold) as [H0 H1].
  assert (Hd : data s !! Z.to_nat i = Some old).
  { unfold at_ in Hold. destruct (0 <=? i); [exact Hold|discriminate]. }
  unfold update. rewrite (update_lb_spec i (lb itv) s old Hold).
  destruct old as [l u]. destruct itv as [n m]. simpl in *.
  unfold Itv.join, Itv.neqb, Itv.is_top, Int.max, Int.min. simpl.
  destruct (Z.ltb_spec l n) as [Hl|Hl]; simpl.
  - set (s1 := mkVStore _ _).
    assert (H1' : at_ s1 i = Some (mkInterval n u)).
    { unfold at_, s1. simpl. destruct (0 <=? i) eqn:E; [|lia].
      apply list_lookup_insert_eq. exact H1. }
    rewrite (update_ub_spec i m s1 _ H1'). simpl.
    destruct (l >=? n) eqn:E1; [lia|]. clear E1.
    replace (l =? n) with false by (symmetry; apply Z.eqb_neq; lia). simpl.
    destruct (Z.gtb_spec u m) as [Hu|Hu]; simpl.
    + destruct (u <=? m) eqn:E2; [lia|]. unfold s1. simpl.
      rewrite list_insert_insert_eq. do 3 f_equal.
      destruct (top s), (Z.gtb_spec n u), (Z.gtb_spec n m); simpl; try reflexivity; lia.
    + destruct (u <=? m) eqn:E2; [|lia]. unfold s1. simpl. reflexivity.
  - rewrite (update_ub_spec i m s _ Hold). simpl.
    destruct (l >=? n) eqn:E1; [|lia]. clear E1. rewrite Z.eqb_refl. simpl.
    destruct (Z.gtb_spec u m) as [Hu|Hu]; simpl.
    + destruct (u <=? m) eqn:E2; [lia|].
      replace (u =? m) with false by (symmetry; apply Z.eqb_neq; lia). reflexivity.
    + destruct (u <=? m) eqn:E2; [|lia]. rewrite Z.eqb_refl. simpl.
      rewrite orb_false_r. rewrite list_insert_id by exact Hd.
      destruct s; reflexivity.
Qed.

(** X1.  [update(i, itv)] replaces the interval of [i] by its
    intersection with [itv] (the greater lower bound, the smaller upper
    bound), returns whether the interval changed, and raises the top
    flag exactly when it changed into an empty interval. *)
Theorem update_is_join (i : Var) (itv old : Interval) (s : VStore) :
  at_ s i = Some old ->
  update i itv s =
    Some (Itv.neqb old (Itv.join old itv),
          mkVStore (<[Z.to_nat i := Itv.join old itv]> (data s))
                   (top s || (Itv.neqb old (Itv.join old itv)
                              && Itv.is_top (Itv.join old itv)))).
Proof. exact (update_closed_form i itv old s). Qed.

Lemma update_is_join_witness :
  at_ (mkVStore [mkInterval 0 10] false) 0 = Some (mkInterval 0 10) /\
  update 0 (mkInterval 3 20) (mkVStore [mkInterval 0 10] false) =
    Some (true, mkVStore [mkInterval 3 10] false).
Proof.
  split; [reflexivity|].
  exact (update_is_join 0 (mkInterval 3 20) (mkInterval 0 10)
           (mkVStore [mkInterval 0 10] false) eq_refl).
Defined.

Lemma join_absorb (a b : Interval) : Itv.join (Itv.join a b) b = Itv.join a b.
Proof.
  destruct a as [l u], b as [n m]. unfold Itv.join, Int.max, Int.min. simpl.
  f_equal.
  - destruct (Z.geb_spec l n); [|rewrite Z.geb_leb, Z.leb_refl; reflexivity].
    destruct (Z.geb_spec l n); [reflexivity|lia].
  - destruct (Z.leb_spec u m); [|rewrite Z.leb_refl; reflexivity].
    destruct (Z.leb_spec u m); [reflexivity|lia].
Qed.

(** X2.  [update] is idempotent: after [update(i, itv)], the same call
    returns [false] and changes nothing. *)
Theorem update_twice_changes_nothing
    (i : Var) (itv : Interval) (c : bool) (s s' : VStore) :
  update i itv s = Some (c, s') -> update i itv s' = Some (false, s').
Proof.
  intros H. destruct (at_ s i) as [old|] eqn:Hold.
  2:{ unfold update, update_lb in H. rewrite Hold in H. discriminate. }
  rewrite (update_closed_form i itv old s Hold) in H. injection H as <- <-.
  destruct (at_Some_range _ _ _ Hold) as [H0 H1].
  set (s' := mkVStore _ _).
  assert (Hnew : at_ s' i = Some (Itv.join old itv)).
  { unfold at_, s'. simpl. destruct (0 <=? i) eqn:E; [|lia].
    apply list_lookup_insert_eq. exact H1. }
  rewrite (update_closed_form i itv _ s' Hnew). rewrite join_absorb, neqb_refl_false.
  simpl. rewrite orb_false_r. unfold s'. simpl.
  rewrite list_insert_insert_eq. reflexivity.
Qed.

Lemma update_twice_changes_nothing_witness :
  update 0 (mkInterval 3 20) (mkVStore [mkInterval 3 10] false) =
    Some (false, mkVStore [mkInterval 3 10] false).
Proof.
  exact (update_twice_changes_nothing 0 (mkInterval 3 20) true
           (mkVStore [mkInterval 0 10] false) (mkVStore [mkInterval 3 10] false)
           eq_refl).
Defined.

(** X3.  [assign(i, v)] with [v] inside the interval of [i] leaves
    exactly [v] there and does not touch the top flag; with [v] outside
    an interval that is not empty, it returns [true], leaves the
    interval empty and sets the flag. *)
Theorem assign_inside_or_outside (i : Var) (v : Z) (old : Interval) (s : VStore) :
  at_ s i = Some old ->
  (lb old <= v <= ub old ->
     assign i v s =
       Some (negb (Itv.is_assigned old),
             mkVStore (<[Z.to_nat i := mkInterval v v]> (data s)) (top s))) /\
  (lb old <= ub old -> v < lb old \/ ub old < v ->
     exists s' new, assign i v s = Some (true, s') /\
       at_ s' i = Some new /\ Itv.is_top new = true /\ is_top s' = true).
Proof.
  intros Hold. destruct (at_Some_range _ _ _ Hold) as [H0 H1].
  unfold assign. rewrite (update_closed_form i (mkInterval v v) old s Hold). split.
  - intros [Hl Hu]. destruct old as [l u].
    unfold Itv.join, Itv.neqb, Itv.is_top, Itv.is_assigned, Int.max, Int.min.
    simpl in *.
    destruct (Z.geb_spec l v), (Z.leb_spec u v); try lia; zbools;
      rewrite ?orb_false_r, ?orb_true_r; repeat f_equal; lia.
  - intros Hne Hout.
    assert (Hc : Itv.neqb old (Itv.join old (mkInterval v v)) = true).
    { destruct old as [l u]. unfold Itv.join, Itv.neqb, Int.max, Int.min.
      simpl in *. destruct (Z.geb_spec l v), (Z.leb_spec u v); zbools;
        try reflexivity; lia. }
    assert (He : Itv.is_top (Itv.join old (mkInterval v v)) = true).
    { destruct old as [l u]. unfold Itv.join, Itv.is_top, Int.max, Int.min.
      simpl in *. destruct (Z.geb_spec l v), (Z.leb_spec u v); zbools;
        try reflexivity; lia. }
    rewrite Hc, He. eexists _, _. split; [reflexivity|]. split; [|split].
    + unfold at_. simpl. destruct (0 <=? i) eqn:E; [|lia].
      apply list_lookup_insert_eq. exact H1.
    + exact He.
    + unfold is_top. simpl. apply orb_true_r.
Qed.

Lemma assign_inside_or_outside_witness :
  at_ (mkVStore [mkInterval 0 10] false) 0 = Some (mkInterval 0 10) /\
  0 <= 4 <= 10 /\
  assign 0 4 (mkVStore [mkInterval 0 10] false) =
    Some (true, mkVStore [mkInterval 4 4] false).
Proof.
  assert (H : lb (mkInterval 0 10) <= 4 <= ub (mkInterval 0 10)) by (simpl; lia).
  split; [reflexivity|]. split; [exact H|].
  exact (proj1 (assign_inside_or_outside 0 4 (mkInterval 0 10)
                  (mkVStore [mkInterval 0 10] false) eq_refl) H).
Defined.

End TopStoreUpdate.

Section TopStoreInvariants.

Import TopStore.

Lemma run_op_at (o : Op) (s s' : VStore) :
  run_op o s = Some s' -> exists old, at_ s (op_var o) = Some old.
Proof.
  intros H. destruct (at_ s (op_var o)) as [old|] eqn:E; [eauto|].
  exfalso. destruct o; simpl in *;
    unfold assign, update, update_lb, update_ub, dom in H; rewrite E in H;
    discriminate.
Qed.

Lemma run_op_size (o : Op) (s s' : VStore) :
  run_op o s = Some s' -> size s' = size s.
Proof.
  intros H. destruct (run_op_at o s s' H) as [old Hold].
  destruct (run_op_defined o s old Hold) as (s2 & E & Hs). congruence.
Qed.

(** Size and untouched variables along a sequence of calls. *)
Lemma run_ops_size_and_frame (os : list Op) (s s' : VStore) :
  run_ops os s = Some s' ->
  size s' = size s /\
  forall v, Forall (fun o => op_var o <> v) os -> at_ s' v = at_ s v.
Proof.
  revert s. induction os as [|o os IH]; intros s H; simpl in H.
  - injection H as <-. auto.
  - destruct (run_op o s) as [s1|] eqn:E; [|discriminate]. simpl in H.
    destruct (IH s1 H) as [Hs Hf]. split.
    + rewrite Hs. exact (run_op_size o s s1 E).
    + intros v Hall. inversion Hall as [|? ? Hv Hrest]; subst.
      rewrite (Hf v Hrest). apply (run_op_other_slots o s s1 v E). congruence.
Qed.

(** X4.  A sequence of calls ([dom] included) keeps the size of the
    store and the interval of every variable that no call of the
    sequence names. *)
Theorem calls_keep_size_and_other_variables (os : list Op) (s s' : VStore) :
  run_ops os s = Some s' ->
  size s' = size s /\
  forall v, Forall (fun o => op_var o <> v) os -> at_ s' v = at_ s v.
Proof. exact (run_ops_size_and_frame os s s'). Qed.

Lemma calls_keep_size_and_other_variables_witness :
  at_ (mkVStore [mkInterval 0 1; mkInterval 3 10; mkInterval 2 7] false) 2 =
  Some (mkInterval 2 7).
Proof.
  exact (proj2 (calls_keep_size_and_other_variables
                  [OpUpdateLb 1 3; OpDom 0 (mkInterval 0 1)]
                  (mkVStore [Itv.default; mkInterval 0 10; mkInterval 2 7] false)
                  (mkVStore [mkInterval 0 1; mkInterval 3 10; mkInterval 2 7] false)
                  eq_refl) 2
               ltac:(repeat constructor; simpl; lia)).
Defined.

(** X5.  Backtracking: whatever calls were made on a store since a
    snapshot of it was taken, [reset] with the snapshot is defined and
    gives the snapshot back, intervals and top flag. *)
Theorem reset_restores_snapshot (os : list Op) (s s' : VStore) :
  run_ops os s = Some s' -> reset s s' = Some s.
Proof.
  intros H. destruct (run_ops_size_and_frame os s s' H) as [Hs _].
  rewrite (reset_spec s s' Hs). destruct s; reflexivity.
Qed.

Lemma reset_restores_snapshot_witness :
  reset (mkVStore [mkInterval 0 10] false) (mkVStore [mkInterval 11 10] true) =
  Some (mkVStore [mkInterval 0 10] false).
Proof.
  exact (reset_restores_snapshot [OpUpdateLb 0 11]
           (mkVStore [mkInterval 0 10] false) (mkVStore [mkInterval 11 10] true)
           eq_refl).
Defined.

Lemma run_ops_flag_covers (os : list Op) : forall (s s' : VStore),
  run_ops os s = Some s' ->
  (forall v, flag_covers s v) -> forall v, flag_covers s' v.
Proof.
  induction os as [|o os IH]; intros s s' H Hc; simpl in H.
  - injection H as <-. exact Hc.
  - destruct (run_op o s) as [s1|] eqn:E; [|discriminate]. simpl in H.
    apply (IH s1 s' H). exact (run_op_flag_covers o s s1 E Hc).
Qed.

(** X6.  In a store made by [VStore(n)] and changed by [dom] and the
    update calls only, an empty interval never goes unnoticed: if some
    variable has an empty interval, the store is top. *)
Theorem empty_interval_implies_top
    (n : nat) (os : list Op) (s : VStore) (v : Var) (itv : Interval) :
  run_ops os (new n) = Some s ->
  at_ s v = Some itv -> Itv.is_top itv = true -> is_top s = true.
Proof.
  intros H Hv He.
  exact (run_ops_flag_covers os (new n) s H (new_flag_covers n) v itv Hv He).
Qed.

Lemma empty_interval_implies_top_witness :
  is_top (mkVStore [Itv.default; mkInterval 6 5] true) = true.
Proof.
  exact (empty_interval_implies_top 2
           [OpUpdateUb 1 5; OpUpdateLb 1 6]
           (mkVStore [Itv.default; mkInterval 6 5] true) 1 (mkInterval 6 5)
           eq_refl eq_refl eq_refl).
Defined.

(** The flag after one narrowing call: what it was, or raised because
    the call changed its variable's interval into an empty one. *)
Lemma run_op_update_flag (o : Op) (s s' : VStore) :
  is_update o = true -> run_op o s = Some s' ->
  top s' = true ->
  top s = true \/ exists new, at_ s' (op_var o) = Some new /\ Itv.is_top new = true.
Proof.
  intros Hu H Ht. destruct (run_op_slot o s s' H) as [new Hnew].
  pose proof (run_op_inv o s s' H) as Hi.
  assert (Hup : forall i itv c, update i itv s = Some (c, s') ->
            at_ s' i = Some new ->
            top s = true \/ Itv.is_top new = true).
  { intros i itv c Hc Hn. destruct (at_ s i) as [old|] eqn:Hold.
    2:{ unfold update, update_lb in Hc. rewrite Hold in Hc. discriminate. }
    rewrite (update_closed_form i itv old s Hold) in Hc. injection Hc as <- <-.
    destruct (at_Some_range _ _ _ Hold) as [H0 H1].
    unfold at_ in Hn. simpl in Hn. destruct (0 <=? i) eqn:E; [|lia].
    rewrite list_lookup_insert_eq in Hn by exact H1. injection Hn as <-.
    simpl in Ht. apply orb_true_iff in Ht as [Ht|Ht]; [left; exact Ht|].
    apply andb_true_iff in Ht as [_ Ht]. right. exact Ht. }
  destruct o; simpl in *; [discriminate| | | |].
  - destruct Hi as [c Hc].
    destruct (update_lb_flag _ _ _ _ _ _ Hc Hnew) as [T _].
    rewrite T in Ht. apply orb_true_iff in Ht as [Ht|Ht]; [left; exact Ht|].
    apply andb_true_iff in Ht as [_ Ht]. right. eauto.
  - destruct Hi as [c Hc].
    destruct (update_ub_flag _ _ _ _ _ _ Hc Hnew) as [T _].
    rewrite T in Ht. apply orb_true_iff in Ht as [Ht|Ht]; [left; exact Ht|].
    apply andb_true_iff in Ht as [_ Ht]. right. eauto.
  - destruct Hi as [c Hc]. destruct (Hup _ _ _ Hc Hnew); eauto.
  - destruct Hi as [c Hc]. destruct (Hup _ _ _ Hc Hnew); eauto.
Qed.

Lemma run_ops_top_has_empty (os : list Op) : forall (s s' : VStore),
  forallb is_update os = true -> run_ops os s = Some s' ->
  (top s = true -> exists v itv, at_ s v = Some itv /\ Itv.is_top itv = true) ->
  top s' = true -> exists v itv, at_ s' v = Some itv /\ Itv.is_top itv = true.
Proof.
  induction os as [|o os IH]; intros s s' Hu H Hinv Ht; simpl in *.
  - injection H as <-. exact (Hinv Ht).
  - apply andb_true_iff in Hu as [Ho Hos].
    destruct (run_op o s) as [s1|] eqn:E; [|discriminate]. simpl in H.
    apply (IH s1 s' Hos H); [|exact Ht].
    intros Ht1. destruct (run_op_update_flag o s s1 Ho E Ht1) as [Hts|(new & Hn & He)].
    + destruct (Hinv Hts) as (v & itv & Hv & He).
      destruct (run_op_narrows o s s1 Ho E) as [_ Hn].
      destruct (Hn v itv Hv) as (itv' & Hv' & Hl & Hub).
      exists v, itv'. split; [exact Hv'|].
      unfold Itv.is_top in *. apply Z.gtb_lt. apply Z.gtb_lt in He. lia.
    + eauto.
Qed.

(** X7.  In a store made by [VStore(n)] and changed by the narrowing
    calls only ([update_lb], [update_ub], [update], [assign]), the top
    flag is never a false alarm: if the store is top, some variable has
    an empty interval. *)
Theorem top_implies_empty_interval (n : nat) (os : list Op) (s : VStore) :
  forallb is_update os = true ->
  run_ops os (new n) = Some s -> is_top s = true ->
  exists v itv, at_ s v = Some itv /\ Itv.is_top itv = true.
Proof.
  intros Hu H Ht. apply (run_ops_top_has_empty os (new n) s Hu H); [|exact Ht].
  discriminate.
Qed.

Lemma top_implies_empty_interval_witness :
  exists v itv,
    at_ (mkVStore [Itv.default; mkInterval 6 5] true) v = Some itv /\
    Itv.is_top itv = true.
Proof.
  exact (top_implies_empty_interval 2 [OpUpdateUb 1 5; OpUpdateLb 1 6]
           (mkVStore [Itv.default; mkInterval 6 5] true)
           eq_refl eq_refl eq_refl).
Defined.

(** X8.  On a store where every variable is assigned, a narrowing call
    that changes anything is a failure: if [all_assigned] holds and
    [update] returns [true], the store is top afterwards. *)
Theorem update_of_assigned_store_fails
    (i : Var) (itv : Interval) (s s' : VStore) :
  all_assigned s = true -> update i itv s = Some (true, s') -> is_top s' = true.
Proof.
  intros Ha H. destruct (at_ s i) as [old|] eqn:Hold.
  2:{ unfold update, update_lb in H. rewrite Hold in H. discriminate. }
  assert (Hassigned : Itv.is_assigned old = true).
  { unfold all_assigned in Ha. rewrite forallb_forall in Ha. apply Ha.
    unfold at_ in Hold. destruct (0 <=? i); [|discriminate].
    apply list_elem_of_In. apply list_elem_of_lookup. eauto. }
  rewrite (update_closed_form i itv old s Hold) in H. injection H as Hc <-.
  unfold is_top. simpl. rewrite Hc. simpl.
  destruct old as [l u], itv as [a b].
  unfold Itv.is_assigned, Itv.neqb, Itv.join, Itv.is_top, Int.max, Int.min in *.
  simpl in *. apply Z.eqb_eq in Hassigned. subst u.
  assert (Hgoal : ((if l >=? a then l else a) >? (if l <=? b then l else b)) = true).
  { revert Hc. destruct (Z.geb_spec l a), (Z.leb_spec l b); intros Hc;
      rewrite ?Z.eqb_refl in Hc; simpl in Hc; try discriminate;
      apply Z.gtb_lt; lia. }
  rewrite Hgoal. apply orb_true_r.
Qed.

Lemma update_of_assigned_store_fails_witness :
  is_top (mkVStore [mkInterval 4 4; mkInterval 8 7] true) = true.
Proof.
  exact (update_of_assigned_store_fails 1 (mkInterval 8 9)
           (mkVStore [mkInterval 4 4; mkInterval 7 7] false)
           (mkVStore [mkInterval 4 4; mkInterval 8 7] true) eq_refl eq_refl).
Defined.

End TopStoreInvariants.

(** * Further properties of intervals and of the store with negated views *)

(** X9.  [join] is the intersection: an integer is in the join of two
    intervals exactly when it is in both; the join is commutative,
    associative and idempotent, and is empty for disjoint intervals. *)
Theorem join_is_intersection (a b c : Interval) :
  (forall z, Itv.contains (Itv.join a b) z <-> Itv.contains a z /\ Itv.contains b z) /\
  Itv.join a b = Itv.join b a /\
  Itv.join (Itv.join a b) c = Itv.join a (Itv.join b c) /\
  Itv.join a a = a /\
  (Itv.is_top (Itv.join a b) = true <->
   forall z, ~ (Itv.contains a z /\ Itv.contains b z)).
Proof.
  destruct a as [l1 u1], b as [l2 u2], c as [l3 u3].
  unfold Itv.join, Itv.contains, Itv.is_top, Int.max, Int.min. simpl.
  split; [|split; [|split; [|split]]].
  - intros z. destruct (Z.geb_spec l1 l2), (Z.leb_spec u1 u2); simpl; lia.
  - f_equal.
    + destruct (Z.geb_spec l1 l2), (Z.geb_spec l2 l1); lia.
    + destruct (Z.leb_spec u1 u2), (Z.leb_spec u2 u1); lia.
  - f_equal.
    + destruct (Z.geb_spec l1 l2), (Z.geb_spec l2 l3); simpl;
        repeat match goal with
               | |- context [Z.geb ?x ?y] => destruct (Z.geb_spec x y)
               end; lia.
    + destruct (Z.leb_spec u1 u2), (Z.leb_spec u2 u3); simpl;
        repeat match goal with
               | |- context [Z.leb ?x ?y] => destruct (Z.leb_spec x y)
               end; lia.
  - rewrite Z.geb_leb, !Z.leb_refl. reflexivity.
  - rewrite Z.gtb_lt. split.
    + intros H z. destruct (Z.geb_spec l1 l2), (Z.leb_spec u1 u2); lia.
    + intros H.
      destruct (Z.lt_ge_cases (if u1 <=? u2 then u1 else u2)
                              (if l1 >=? l2 then l1 else l2)) as [Hlt|Hge];
        [exact Hlt|].
      exfalso. apply (H (if l1 >=? l2 then l1 else l2)).
      destruct (Z.geb_spec l1 l2), (Z.leb_spec u1 u2); lia.
Qed.

(** X10.  [neg] is the view of the opposite numbers: for an interval
    whose bounds are above [INT_MIN], an integer is in [neg i] exactly
    when its opposite is in [i]; [neg] is then an involution and keeps
    emptiness and the assigned status. *)
Theorem neg_is_opposite_view (i : Interval) :
  Int.limit_min < lb i <= Int.limit_max ->
  Int.limit_min < ub i <= Int.limit_max ->
  (forall z, Itv.contains (Itv.neg i) z <-> Itv.contains i (- z)) /\
  Itv.neg (Itv.neg i) = i /\
  Itv.is_top (Itv.neg i) = Itv.is_top i /\
  Itv.is_assigned (Itv.neg i) = Itv.is_assigned i.
Proof.
  intros Hl Hu. destruct i as [l u]. simpl in *.
  unfold Itv.neg, Itv.contains, Itv.is_top, Itv.is_assigned. simpl.
  rewrite (neg_neg l Hl), (neg_neg u Hu).
  rewrite (neg_in_range l Hl), (neg_in_range u Hu).
  split; [intros z; lia|]. split; [reflexivity|]. split.
  - destruct (Z.gtb_spec (- u) (- l)), (Z.gtb_spec l u); try reflexivity; lia.
  - destruct (Z.eqb_spec (- u) (- l)), (Z.eqb_spec l u); try reflexivity; lia.
Qed.

Lemma neg_is_opposite_view_witness :
  Itv.neg (Itv.neg (mkInterval (-3) 8)) = mkInterval (-3) 8.
Proof.
  assert (H1 : Int.limit_min < lb (mkInterval (-3) 8) <= Int.limit_max)
    by (vm_compute; split; congruence).
  assert (H2 : Int.limit_min < ub (mkInterval (-3) 8) <= Int.limit_max)
    by (vm_compute; split; congruence).
  exact (proj1 (proj2 (neg_is_opposite_view (mkInterval (-3) 8) H1 H2))).
Defined.

Section ViewStoreUpdate.

Import ViewStore.

Lemma view_update_pos (s : VStore) (i : Z) (itv old : Interval) :
  0 <= i -> at_ s i = Some old ->
  update i itv s = Some (Itv.neqb old itv, write i itv s).
Proof.
  intros H Hold. unfold update. destruct (i <? 0) eqn:E; [lia|].
  rewrite Hold. reflexivity.
Qed.

(** A write through the view [-v], as a write to [v]. *)
Lemma view_update_neg_as_pos
    (s : VStore) (v : Z) (itv : Interval) :
  0 < v <= Int.limit_max ->
  update (Int.neg v) itv s = update v (Itv.neg itv) s.
Proof.
  intros H. destruct (at_ s v) as [old|] eqn:Hold.
  - rewrite (view_update_neg s v itv old H Hold).
    assert (Hp : 0 <= v) by lia.
    rewrite (view_update_pos s v (Itv.neg itv) old Hp Hold).
    reflexivity.
  - assert (Hnn : Int.neg (Int.neg v) = v).
    { apply neg_neg. unfold Int.limit_min, Int.limit_max, Int.INT_MAX in *. lia. }
    assert (Hn : Int.neg v = - v).
    { apply neg_in_range. unfold Int.limit_min, Int.limit_max, Int.INT_MAX in *. lia. }
    unfold update. rewrite Hnn, Hold. rewrite Hn.
    destruct (- v <? 0) eqn:E1; [|lia]. destruct (v <? 0) eqn:E2; [lia|].
    reflexivity.
Qed.

(** X11.  Writing an interval through the view [-v] is writing its
    negation to the variable [v]: same store, same returned flag. *)
Theorem update_through_view_is_update_of_negation
    (s : VStore) (v : Z) (itv : Interval) :
  0 < v <= Int.limit_max ->
  update (Int.neg v) itv s = update v (Itv.neg itv) s.
Proof. exact (view_update_neg_as_pos s v itv). Qed.

Lemma update_through_view_is_update_of_negation_witness :
  update (Int.neg 1) (mkInterval 2 5) (mkVStore [Itv.default; mkInterval 0 9]) =
  update 1 (Itv.neg (mkInterval 2 5)) (mkVStore [Itv.default; mkInterval 0 9]).
Proof.
  apply update_through_view_is_update_of_negation.
  vm_compute. split; congruence.
Defined.

(** X12.  The flag returned by [update] tells exactly whether the store
    changed, for an index of either sign: [false] if and only if the
    store after the call is the store before. *)
Theorem update_flag_tells_change (s s' : VStore) (i : Z) (itv : Interval) (c : bool) :
  Int.limit_min < i <= Int.limit_max ->
  update i itv s = Some (c, s') -> (c = false <-> s' = s).
Proof.
  assert (Hpos : forall j w old, 0 <= j -> at_ s j = Some old ->
            (Itv.neqb old w = false <-> write j w s = s)).
  { intros j w old Hj Hold.
    assert (Hd : data s !! Z.to_nat j = Some old).
    { unfold at_ in Hold. destruct (0 <=? j); [exact Hold|discriminate]. }
    split.
    - intros Hn. apply neqb_false_eq in Hn. subst w. unfold write.
      rewrite list_insert_id by exact Hd. destruct s; reflexivity.
    - intros Hw. apply (f_equal (fun t => data t !! Z.to_nat j)) in Hw.
      unfold write in Hw. simpl in Hw.
      rewrite list_lookup_insert_eq in Hw by (apply lookup_lt_Some in Hd; exact Hd).
      rewrite Hd in Hw. injection Hw as <-. apply neqb_refl_false. }
  intros Hi H. destruct (Z.ltb_spec i 0) as [Hneg|Hnn].
  - assert (Hv : 0 < Int.neg i <= Int.limit_max).
    { rewrite neg_in_range by exact Hi.
      unfold Int.limit_min, Int.limit_max, Int.INT_MAX in *. lia. }
    assert (Hii : Int.neg (Int.neg i) = i) by (apply neg_neg; exact Hi).
    pose proof (view_update_neg_as_pos s (Int.neg i) itv Hv) as E.
    rewrite Hii in E. rewrite E in H.
    destruct (at_ s (Int.neg i)) as [old|] eqn:Hold.
    + assert (Hp : 0 <= Int.neg i) by lia.
      rewrite (view_update_pos s _ _ old Hp Hold) in H.
      injection H as <- <-. apply Hpos; [lia|exact Hold].
    + unfold update in H. destruct (Int.neg i <? 0) eqn:E3; [lia|].
      rewrite Hold in H. discriminate.
  - destruct (at_ s i) as [old|] eqn:Hold.
    + rewrite (view_update_pos s i itv old Hnn Hold) in H.
      injection H as <- <-. apply Hpos; assumption.
    + unfold update in H. destruct (i <? 0) eqn:E; [lia|].
      rewrite Hold in H. discriminate.
Qed.

Lemma update_flag_tells_change_witness :
  false = false <->
  mkVStore [Itv.default; mkInterval 0 9] = mkVStore [Itv.default; mkInterval 0 9].
Proof.
  apply (update_flag_tells_change
           (mkVStore [Itv.default; mkInterval 0 9])
           (mkVStore [Itv.default; mkInterval 0 9]) (-1)
           (mkInterval (-9) 0) false).
  - vm_compute. split; congruence.
  - reflexivity.
Defined.

End ViewStoreUpdate.

(** * Further properties of the model builder *)

Section BuilderDomains.

Import Builder.

Lemma map_insert_insert (x : string) (v w : Var * Interval) (m : list Entry) :
  map_insert x v (map_insert x w m) = map_insert x v m.
Proof.
  induction m as [|[k kw] m IH]; simpl.
  - rewrite string_compare_refl. reflexivity.
  - destruct (String.compare x k) eqn:E; simpl.
    + rewrite E. reflexivity.
    + rewrite string_compare_refl. reflexivity.
    + rewrite E, IH. reflexivity.
Qed.

(** [strengthen_domain2] on any name, registered or not: the entry of
    [x] (created with index 0 and the full interval when absent) gets
    the bound of the operator. *)
Lemma strengthen_domain2_spec (x : string) (op : OrderType) (k : Z) (b : ModelBuilder) :
  op <> NE -> op <> IN ->
  strengthen_domain2 x op k b =
    Ok (tt, mkModelBuilder
              (map_insert x
                 (fst (fst (map_index x (var2idx b))),
                  let d := snd (fst (map_index x (var2idx b))) in
                  match op with
                  | LT => mkInterval (lb d) (Int.sub k 1)
                  | GT => mkInterval (Int.add k 1) (ub d)
                  | LE => mkInterval (lb d) k
                  | GE => mkInterval k (ub d)
                  | _ => mkInterval k k
                  end)
                 (var2idx b))
              (idx2var b) (constraints b) (minimize_obj b)).
Proof.
  intros Hne Hin. unfold strengthen_domain2, bind, domain_of, set_domain, map_index.
  destruct (map_find x (var2idx b)) as [[xi d]|] eqn:E; simpl.
  - rewrite E. simpl. destruct op; simpl; try congruence; destruct d; reflexivity.
  - rewrite map_find_insert_eq. simpl. rewrite map_insert_insert.
    destruct op; simpl; try congruence; reflexivity.
Qed.

(** X13.  [strengthen_domain] overwrites the bound it names and does
    not intersect: after [x <op> k1], the constraint [x <op> k2] with
    the same operator gives the builder that [x <op> k2] alone gives, so
    the later constant wins even when it is the weaker one. *)
Theorem strengthen_domain_last_constant_wins
    (x : string) (op : OrderType) (k1 k2 : Z) (b b1 : ModelBuilder) :
  op <> NE -> op <> IN ->
  strengthen_domain x op k1 b = Ok (tt, b1) ->
  strengthen_domain x op k2 b1 = strengthen_domain x op k2 b.
Proof.
  intros Hne Hin H. unfold strengthen_domain in *.
  rewrite (strengthen_domain2_spec x op k1 b Hne Hin) in H. injection H as <-.
  rewrite !(strengthen_domain2_spec x op k2 _ Hne Hin). simpl.
  unfold map_index. rewrite map_find_insert_eq. simpl.
  rewrite map_insert_insert.
  destruct (map_find x (var2idx b)) as [[xi d]|]; simpl;
    destruct op; simpl; try congruence; reflexivity.
Qed.

Lemma strengthen_domain_last_constant_wins_witness :
  strengthen_domain "x" LE 20 (after (strengthen_domain "x" LE 3) sample) =
  strengthen_domain "x" LE 20 sample.
Proof.
  assert (H1 : LE <> NE) by discriminate.
  assert (H2 : LE <> IN) by discriminate.
  exact (strengthen_domain_last_constant_wins "x" LE 3 20 sample
           (after (strengthen_domain "x" LE 3) sample) H1 H2 eq_refl).
Defined.

End BuilderDomains.

Section BuilderNodes.

Import Builder.

Lemma strengthen_domain2_le (x : string) (k : Z) (b : ModelBuilder) :
  strengthen_domain2 x LE k b =
    Ok (tt, mkModelBuilder
              (map_insert x
                 (fst (fst (map_index x (var2idx b))),
                  mkInterval (lb (snd (fst (map_index x (var2idx b))))) k)
                 (var2idx b))
              (idx2var b) (constraints b) (minimize_obj b)).
Proof.
  rewrite (strengthen_domain2_spec x LE k b); [reflexivity|discriminate|discriminate].
Qed.

(** With the multiplier 1, the body of [le_mul_domain] is [x <= k]. *)
Lemma le_mul_domain_body_one (x : string) (k : Z) (b : ModelBuilder) :
  Int.in_range k -> le_mul_domain_body x 1 k b = strengthen_domain2 x LE k b.
Proof.
  intros Hk. unfold le_mul_domain_body. simpl.
  destruct (Z.eqb_spec k 0) as [->|Hk0]; [reflexivity|].
  rewrite (div_defined_true k 1) by lia. cbn [negb].
  assert (Hd : Int.div k 1 = k).
  { unfold Int.div. rewrite Z.quot_1_r. apply wrap_in_range. exact Hk. }
  assert (Hr : forall z, Int.rem z 1 = 0).
  { intros z. unfold Int.rem. rewrite Z.rem_1_r. reflexivity. }
  destruct (Z.gtb_spec k 0).
  - rewrite Hd. reflexivity.
  - destruct (Z.ltb_spec k 0); [|lia].
    rewrite Hd, Hr. unfold Int.sub. rewrite Z.sub_0_r, wrap_in_range by exact Hk.
    reflexivity.
Qed.

(** X14.  A domain constraint on [X * 1] is the constraint on [X]: for
    every operator, [strengthen_domain_from_node] gives on
    [X * 1 <op> k] what it gives on [X <op> k] (the same builder, or the
    same error). *)
Theorem multiplication_by_one_is_dropped
    (t : ExpressionType) (x : string) (k : Z) (b : ModelBuilder) :
  Int.in_range k ->
  strengthen_domain_from_node
    (NodeOperator t [NodeOperator OMUL [NodeVariable x; NodeConstant 1];
                     NodeConstant k]) b =
  strengthen_domain_from_node
    (NodeOperator t [NodeVariable x; NodeConstant k]) b.
Proof.
  intros Hk. unfold strengthen_domain_from_node. simpl.
  destruct t; try reflexivity.
  transitivity (strengthen_domain2 x LE k b); [|reflexivity].
  unfold bind at 1. rewrite le_mul_domain_shape.
  rewrite (le_mul_domain_body_one x k b Hk).
  rewrite strengthen_domain2_le. reflexivity.
Qed.

Lemma multiplication_by_one_is_dropped_witness :
  Int.in_range 7 /\
  strengthen_domain_from_node
    (NodeOperator OLE [NodeOperator OMUL [NodeVariable "x"; NodeConstant 1];
                       NodeConstant 7]) sample =
  strengthen_domain_from_node
    (NodeOperator OLE [NodeVariable "x"; NodeConstant 7]) sample.
Proof.
  assert (H : Int.in_range 7) by (vm_compute; split; congruence).
  split; [exact H|].
  exact (multiplication_by_one_is_dropped OLE "x" 7 sample H).
Defined.

Lemma evaluate_constant_mul (x : string) (a : Z) (b : ModelBuilder) :
  evaluate_constant (NodeOperator OMUL [NodeVariable x; NodeConstant a]) b =
  Ok (if a =? 1 then NodeVariable x
      else NodeOperator OMUL [NodeVariable x; NodeConstant a], b).
Proof.
  unfold evaluate_constant, bind. simpl. destruct (a =? 1); reflexivity.
Qed.

(** X15.  What [strengthen_domain_from_node] refuses, each with the
    message of its check: a node that does not have two parameters; a
    left side that is neither a variable nor a product (a constant, a
    sum, ...), whatever the right side; a product [X * a] with [a <> 1],
    unless the node is [X * a <= k], which [le_mul_domain] treats; a
    right side that is not a constant, of any kind, the left side being
    a variable or [X * 1]; an operator that is no comparison; and the
    comparisons [!=] and [in]. *)
Theorem strengthen_domain_from_node_rejects (b : ModelBuilder) :
  (forall node, length (node_parameters node) <> 2%nat ->
     strengthen_domain_from_node node b = Throw "Expected binary constraints.") /\
  (forall t p0 q, is_type p0 OVAR = false -> is_type p0 OMUL = false ->
     strengthen_domain_from_node (NodeOperator t [p0; q]) b =
       Throw "Expected variable on the lhs (in domain constraint).") /\
  (forall t x a q, a <> 1 -> t <> OLE \/ is_type q ODECIMAL = false ->
     strengthen_domain_from_node
       (NodeOperator t [NodeOperator OMUL [NodeVariable x; NodeConstant a]; q]) b =
       Throw "Expected variable on the lhs (in domain constraint).") /\
  (forall t p0 x q,
     p0 = NodeVariable x \/
     p0 = NodeOperator OMUL [NodeVariable x; NodeConstant 1] ->
     is_type q ODECIMAL = false ->
     strengthen_domain_from_node (NodeOperator t [p0; q]) b =
       Throw "Expected value on the rhs.") /\
  (forall t p0 x k,
     p0 = NodeVariable x \/
     p0 = NodeOperator OMUL [NodeVariable x; NodeConstant 1] ->
     order_of_type t = None ->
     strengthen_domain_from_node (NodeOperator t [p0; NodeConstant k]) b =
       Throw "Unsupported unary domain operator.") /\
  (forall t p0 x k,
     p0 = NodeVariable x \/
     p0 = NodeOperator OMUL [NodeVariable x; NodeConstant 1] ->
     t = ONE \/ t = OIN ->
     strengthen_domain_from_node (NodeOperator t [p0; NodeConstant k]) b =
       Throw unsupported_unary).
Proof.
  split; [|split; [|split; [|split; [|split]]]].
  - intros node Hlen. unfold strengthen_domain_from_node.
    destruct (Nat.eqb_spec (length (node_parameters node)) 2); [contradiction|].
    reflexivity.
  - intros t p0 q Hv Hm.
    unfold strengthen_domain_from_node, le_mul_domain, evaluate_constant, bind.
    simpl. destruct (is_type (NodeOperator t [p0; q]) OLE); simpl;
      rewrite ?Hm; simpl; rewrite Hv; simpl; rewrite ?Hm; simpl;
      rewrite ?Hv; reflexivity.
  - intros t x a q Ha Ht.
    unfold strengthen_domain_from_node. simpl. unfold bind at 1.
    assert (Hle : le_mul_domain
              (NodeOperator t [NodeOperator OMUL [NodeVariable x; NodeConstant a]; q]) b =
            Ok (false, b)).
    { unfold le_mul_domain, bind. simpl.
      destruct Ht as [Ht | Hq].
      - destruct t; try contradiction; reflexivity.
      - destruct (is_type (NodeOperator t _) OLE); [|reflexivity].
        simpl. rewrite Hq. reflexivity. }
    rewrite Hle. unfold bind. simpl. rewrite evaluate_constant_mul.
    destruct (Z.eqb_spec a 1); [contradiction|reflexivity].
  - intros t p0 x q Hp Hq.
    assert (Hle : le_mul_domain (NodeOperator t [p0; q]) b = Ok (false, b)).
    { unfold le_mul_domain, bind.
      destruct (is_type (NodeOperator t [p0; q]) OLE); [|reflexivity].
      destruct Hp as [-> | ->]; simpl; [reflexivity|].
      rewrite Hq. reflexivity. }
    unfold strengthen_domain_from_node. simpl. unfold bind at 1. rewrite Hle.
    destruct Hp as [-> | ->]; unfold bind; simpl;
      rewrite ?evaluate_constant_mul; simpl; rewrite Hq; reflexivity.
  - intros t p0 x k Hp Ho. unfold strengthen_domain_from_node.
    destruct Hp as [-> | ->]; simpl;
      destruct t; try discriminate; reflexivity.
  - intros t p0 x k Hp Ht. unfold strengthen_domain_from_node.
    destruct Hp as [-> | ->]; destruct Ht as [-> | ->]; simpl;
      unfold bind; simpl; apply strengthen_domain2_rejects; auto.
Qed.

Lemma strengthen_domain_from_node_rejects_witness :
  strengthen_domain_from_node
    (NodeOperator OGE [NodeOperator OMUL [NodeVariable "x"; NodeConstant 1];
                       NodeOperator OADD [NodeVariable "y"; NodeConstant 4]])
    sample =
  Throw "Expected value on the rhs.".
Proof.
  assert (H1 : NodeOperator OMUL [NodeVariable "x"; NodeConstant 1] = NodeVariable "x" \/
               NodeOperator OMUL [NodeVariable "x"; NodeConstant 1] =
               NodeOperator OMUL [NodeVariable "x"; NodeConstant 1])
    by (right; reflexivity).
  assert (H2 : is_type (NodeOperator OADD [NodeVariable "y"; NodeConstant 4]) ODECIMAL
               = false) by reflexivity.
  exact (proj1 (proj2 (proj2 (proj2 (strengthen_domain_from_node_rejects sample))))
           OGE _ "x"%string _ H1 H2).
Defined.

End BuilderNodes.

Section BuilderLeMulExact.

Import Builder.

(** With [a < 0] the lower bound of [X] is overwritten, by the quotient
    when [b >= 0] and by [b / a + (-b % -a)] when [b < 0]; the quotient
    [INT_MIN / -1] apart, which has no value. *)
Lemma le_mul_domain_body_negative (x : string) (a c : Z) (b : ModelBuilder)
    (xi : Var) (d : Interval) :
  map_find x (var2idx b) = Some (xi, d) -> a < 0 ->
  a <> -1 \/ c <> Int.limit_min ->
  le_mul_domain_body x a c b =
    Ok (tt, mkModelBuilder
              (map_insert x
                 (xi, mkInterval
                        (if c =? 0 then 0
                         else if c >? 0 then Int.div c a
                         else Int.add (Int.div c a)
                                      (Int.rem (Int.neg c) (Int.neg a)))
                        (ub d))
                 (var2idx b))
              (idx2var b) (constraints b) (minimize_obj b)).
Proof.
  intros Hx Ha Hdef. unfold le_mul_domain_body.
  destruct (Z.eqb_spec a 0); [lia|].
  destruct (Z.gtb_spec a 0); [lia|].
  destruct (Z.ltb_spec a 0); [|lia].
  destruct (Z.eqb_spec c 0).
  - rewrite (strengthen_domain2_registered x GE 0 b xi d Hx). reflexivity.
  - rewrite (div_defined_true c a) by (lia || exact Hdef).
    simpl. destruct (Z.gtb_spec c 0).
    + rewrite (strengthen_domain2_registered x GE _ b xi d Hx). reflexivity.
    + rewrite (strengthen_domain2_registered x GE _ b xi d Hx). reflexivity.
Qed.

(** X16.  For [X * a <= b] with [b >= 0] the bound written is exact.
    With [a > 0] the new upper bound [u] of [X] is the greatest solution
    ([z * a <= b] exactly when [z <= u]); with [a < 0] the new lower
    bound [l] is the least solution; with [a = 0] the constraint holds
    and the builder is left as it is.  The other bound of [X] is kept. *)
Theorem le_mul_domain_exact_for_nonnegative_rhs
    (x : string) (a c : Z) (b : ModelBuilder) (xi : Var) (d : Interval) :
  map_find x (var2idx b) = Some (xi, d) ->
  Int.limit_min < a <= Int.limit_max -> 0 <= c <= Int.limit_max ->
  exists b',
    le_mul_domain
      (NodeOperator OLE [NodeOperator OMUL [NodeVariable x; NodeConstant a];
                         NodeConstant c]) b = Ok (true, b') /\
    (a = 0 -> b' = b) /\
    (0 < a -> exists u,
       map_find x (var2idx b') = Some (xi, mkInterval (lb d) u) /\
       forall z, z * a <= c <-> z <= u) /\
    (a < 0 -> exists l,
       map_find x (var2idx b') = Some (xi, mkInterval l (ub d)) /\
       forall z, z * a <= c <-> l <= z).
Proof.
  intros Hx Ha Hc. rewrite le_mul_domain_shape.
  unfold Int.limit_min, Int.limit_max, Int.INT_MAX in *.
  destruct (Z.lt_trichotomy a 0) as [Hneg|[Hz|Hpos]].
  - rewrite (le_mul_domain_body_negative x a c b xi d Hx Hneg)
      by (right; unfold Int.limit_min, Int.INT_MAX; lia).
    eexists. split; [reflexivity|]. split; [lia|]. split; [lia|].
    intros _. eexists. split; [simpl; apply map_find_insert_eq|].
    destruct (Z.eqb_spec c 0) as [->|Hc0].
    + intros z. nia.
    + destruct (Z.gtb_spec c 0); [|lia].
      assert (Hq : Z.quot c a = - (c / (- a))).
      { replace a with (- (- a)) at 1 by lia. rewrite Z.quot_opp_r by lia.
        rewrite Z.quot_div_nonneg by lia. reflexivity. }
      pose proof (Z.div_mod c (- a) ltac:(lia)) as Hdm.
      pose proof (Z.mod_pos_bound c (- a) ltac:(lia)) as Hmb.
      assert (Hdp : 0 <= c / (- a)) by (apply Z.div_pos; lia).
      assert (Hdu : c / (- a) <= c) by (apply Z.div_le_upper_bound; nia).
      unfold Int.div. rewrite Hq.
      rewrite wrap_in_range
        by (unfold Int.in_range, Int.limit_min, Int.limit_max, Int.INT_MAX; lia).
      intros z. split; intros Hz; nia.
  - subst a. unfold le_mul_domain_body. simpl.
    destruct (Z.ltb_spec c 0); [lia|]. simpl.
    exists b. split; [reflexivity|]. split; [reflexivity|]. split; lia.
  - rewrite (le_mul_domain_body_positive x a c b xi d Hx Hpos).
    eexists. split; [reflexivity|]. split; [lia|]. split; [|lia].
    intros _. eexists. split; [simpl; apply map_find_insert_eq|].
    rewrite le_mul_bound_nonneg
      by (unfold Int.limit_max, Int.INT_MAX; lia).
    pose proof (Z.div_mod c a ltac:(lia)) as Hdm.
    pose proof (Z.mod_pos_bound c a ltac:(lia)) as Hmb.
    intros z. split; intros Hz; nia.
Qed.

Lemma le_mul_domain_exact_for_nonnegative_rhs_witness :
  exists b',
    le_mul_domain
      (NodeOperator OLE [NodeOperator OMUL [NodeVariable "x"; NodeConstant (-3)];
                         NodeConstant 7]) sample = Ok (true, b').
Proof.
  assert (Hx : map_find "x" (var2idx sample) = Some (1, mkInterval (-10) 10))
    by reflexivity.
  assert (Ha : Int.limit_min < -3 <= Int.limit_max) by (vm_compute; split; congruence).
  assert (Hc : 0 <= 7 <= Int.limit_max) by (vm_compute; split; congruence).
  destruct (le_mul_domain_exact_for_nonnegative_rhs "x" (-3) 7 sample 1
              (mkInterval (-10) 10) Hx Ha Hc) as (b' & H & _).
  exists b'. exact H.
Defined.

End BuilderLeMulExact.

Section BuilderLinear.

Import Builder.


Lemma linear_factors_registered (b : ModelBuilder) (terms : list (string * Z)) :
  forall (vars : list Var) (constants : list Z),
  Forall (fun t : string * Z => is_Some (map_find (fst t) (var2idx b))) terms ->
  linear_factors (map (fun t : string * Z =>
          NodeOperator OMUL [NodeVariable (fst t); NodeConstant (snd t)]) terms) vars constants b =
    Ok ((vars ++ map (fun t : string * Z =>
          default 0 (fst <$> map_find (fst t) (var2idx b))) terms, constants ++ map snd terms), b).
Proof.
  induction terms as [|[x c] terms IH]; intros vars constants Hall; simpl.
  - rewrite !app_nil_r. reflexivity.
  - inversion Hall as [|? ? [[xi d] Hx] Hrest]; subst. simpl in Hx.
    unfold bind. simpl. rewrite (index_of_registered x b xi d Hx).
    rewrite (IH _ _ Hrest). rewrite Hx. simpl.
    rewrite <- !app_assoc. reflexivity.
Qed.

(** X17.  A linear constraint [x1*c1 + ... + xn*cn <= c] over
    registered variables adds exactly one propagator, [LinearIneq] with
    the indices of the variables and the coefficients in the order of
    the sum, and changes nothing else; the empty sum is accepted. *)
Theorem add_linear_constraint_pushes_one_propagator
    (b : ModelBuilder) (terms : list (string * Z)) (c : Z) :
  Forall (fun t : string * Z => is_Some (map_find (fst t) (var2idx b))) terms ->
  add_linear_constraint
    (NodeOperator OLE [NodeOperator OADD (map (fun t : string * Z =>
          NodeOperator OMUL [NodeVariable (fst t); NodeConstant (snd t)]) terms); NodeConstant c]) b =
  Ok (tt, mkModelBuilder (var2idx b) (idx2var b)
            (constraints b ++
               [LinearIneq (map (fun t : string * Z =>
          default 0 (fst <$> map_find (fst t) (var2idx b))) terms) (map snd terms) c])
            (minimize_obj b)).
Proof.
  intros Hall. unfold add_linear_constraint. simpl.
  unfold bind. simpl.
  rewrite (linear_factors_registered b terms [] [] Hall). reflexivity.
Qed.

Lemma add_linear_constraint_pushes_one_propagator_witness :
  add_linear_constraint
    (NodeOperator OLE
       [NodeOperator OADD
          [NodeOperator OMUL [NodeVariable "x"; NodeConstant 2];
           NodeOperator OMUL [NodeVariable "y"; NodeConstant (-3)]];
        NodeConstant 5]) sample =
  Ok (tt, mkModelBuilder (var2idx sample) (idx2var sample)
            (constraints sample ++ [LinearIneq [1; 2] [2; -3] 5])
            (minimize_obj sample)).
Proof.
  apply (add_linear_constraint_pushes_one_propagator sample
           [("x"%string, 2); ("y"%string, -3)] 5).
  repeat constructor; simpl; eexists; reflexivity.
Defined.

(** The loop over the terms stops with an error at the first term that
    is not a variable times a constant, whatever terms come after it. *)
Lemma linear_factors_bad_term (pre : list Node) (n : Node) (rest : list Node) :
  Forall (fun m : Node => exists x c ps,
            m = NodeOperator OMUL (NodeVariable x :: NodeConstant c :: ps)) pre ->
  is_type n OMUL = false \/
  (exists f0 ps, n = NodeOperator OMUL (f0 :: ps) /\ is_type f0 OVAR = false) \/
  (exists f0 f1 ps, n = NodeOperator OMUL (f0 :: f1 :: ps) /\
                    is_type f1 ODECIMAL = false) ->
  forall (vars : list Var) (constants : list Z) (b : ModelBuilder),
  linear_factors (pre ++ n :: rest) vars constants b =
  Throw "Expected sum of factors x1c1 + ... xNcN".
Proof.
  intros Hpre Hbad. induction Hpre as [|m pre (x & c & ps & ->) _ IH];
    intros vars constants b.
  - simpl. unfold bind.
    destruct Hbad as [Hm | [(f0 & ps & -> & Hf) | (f0 & f1 & ps & -> & Hf)]].
    + rewrite Hm. reflexivity.
    + simpl. rewrite Hf. reflexivity.
    + simpl. destruct (is_type f0 OVAR); simpl; [rewrite Hf|]; reflexivity.
  - simpl. unfold bind. simpl. unfold index_of.
    destruct (map_index x (var2idx b)) as [v m]. apply IH.
Qed.

(** X18.  A comparison [c1 <= c2] of two constants that holds is
    dropped: [add_linear_constraint] returns with the builder unchanged.
    A node without two parameters is refused; so is a right side that is
    not a constant, a left side that is neither a sum nor a constant
    (a variable, a product, ...), and a sum with a term that is not a
    variable times a constant, wherever the first such term stands in
    the sum and whatever comes after it. *)
Theorem add_linear_constraint_drops_or_rejects (b : ModelBuilder) :
  (forall c1 c2, c1 <= c2 ->
     add_linear_constraint (NodeOperator OLE [NodeConstant c1; NodeConstant c2]) b =
       Ok (tt, b)) /\
  (forall t p0 p1, is_type p0 OADD = false -> is_type p0 ODECIMAL = false ->
     add_linear_constraint (NodeOperator t [p0; p1]) b =
       Throw "Expected linear constraint of the form x1c1 + ... + xNcN <= c") /\
  (forall t p0 p1, is_type p1 ODECIMAL = false ->
     add_linear_constraint (NodeOperator t [p0; p1]) b =
       Throw "Expected linear constraint of the form x1c1 + ... + xNcN <= c") /\
  (forall t pre n rest c,
     Forall (fun m : Node => exists x a ps,
               m = NodeOperator OMUL (NodeVariable x :: NodeConstant a :: ps)) pre ->
     is_type n OMUL = false \/
     (exists f0 ps, n = NodeOperator OMUL (f0 :: ps) /\ is_type f0 OVAR = false) \/
     (exists f0 f1 ps, n = NodeOperator OMUL (f0 :: f1 :: ps) /\
                       is_type f1 ODECIMAL = false) ->
     add_linear_constraint
       (NodeOperator t [NodeOperator OADD (pre ++ n :: rest); NodeConstant c]) b =
       Throw "Expected sum of factors x1c1 + ... xNcN") /\
  (forall node, length (node_parameters node) <> 2%nat ->
     add_linear_constraint node b =
       Throw "Expected comparison operator with two arguments.").
Proof.
  split; [|split; [|split; [|split]]].
  - intros c1 c2 H. unfold add_linear_constraint, bind, tautology, bind. simpl.
    destruct (Z.leb_spec c1 c2); [reflexivity|lia].
  - intros t p0 p1 Ha Hd.
    unfold add_linear_constraint, bind, tautology, bind. simpl.
    rewrite Hd. simpl. rewrite Ha. reflexivity.
  - intros t p0 p1 Hd.
    unfold add_linear_constraint, bind, tautology, bind. simpl.
    destruct (is_type p0 ODECIMAL); simpl; rewrite Hd; simpl;
      rewrite orb_true_r; reflexivity.
  - intros t pre n rest c Hpre Hbad.
    unfold add_linear_constraint, bind, tautology, bind. simpl.
    rewrite (linear_factors_bad_term pre n rest Hpre Hbad [] [] b). reflexivity.
  - intros node Hlen. unfold add_linear_constraint.
    destruct (Nat.eqb_spec (length (node_parameters node)) 2); [contradiction|].
    reflexivity.
Qed.

Lemma add_linear_constraint_drops_or_rejects_witness :
  add_linear_constraint
    (NodeOperator OLE
       [NodeOperator OADD
          [NodeOperator OMUL [NodeVariable "x"; NodeConstant 2];
           NodeOperator OMUL [NodeVariable "y"; NodeVariable "x"];
           NodeVariable "y"];
        NodeConstant 5]) sample =
  Throw "Expected sum of factors x1c1 + ... xNcN".
Proof.
  assert (Hpre : Forall (fun m : Node => exists x a ps,
                    m = NodeOperator OMUL (NodeVariable x :: NodeConstant a :: ps))
                   [NodeOperator OMUL [NodeVariable "x"; NodeConstant 2]]).
  { constructor; [|constructor]. exists "x"%string, 2, []. reflexivity. }
  assert (H : is_type (NodeOperator OMUL [NodeVariable "y"; NodeVariable "x"]) OMUL
                = false \/
              (exists f0 ps,
                 NodeOperator OMUL [NodeVariable "y"; NodeVariable "x"] =
                   NodeOperator OMUL (f0 :: ps) /\ is_type f0 OVAR = false) \/
              (exists f0 f1 ps,
                 NodeOperator OMUL [NodeVariable "y"; NodeVariable "x"] =
                   NodeOperator OMUL (f0 :: f1 :: ps) /\
                 is_type f1 ODECIMAL = false)).
  { right. right. exists (NodeVariable "y"), (NodeVariable "x"), [].
    split; reflexivity. }
  exact (proj1 (proj2 (proj2 (proj2 (add_linear_constraint_drops_or_rejects sample))))
           OLE _ _ [NodeVariable "y"] 5 Hpre H).
Defined.

End BuilderLinear.

Section BuilderUnknownNames.

Import Builder.

(** X19.  A name that was never registered is not reported by
    [strengthen_domain] nor by [add_objective_minimize]: the name is
    entered in [var2idx] with index 0, the slot of the fake variable,
    and the call succeeds.  [make_temporal_constraint] stops on its
    assertion for such a name, whatever the operator. *)
Theorem unknown_name_takes_index_zero
    (x : string) (b : ModelBuilder) :
  map_find x (var2idx b) = None ->
  (exists b', index_of x b = Ok (0, b') /\
     map_find x (var2idx b') = Some (0, Itv.default) /\
     idx2var b' = idx2var b) /\
  (forall op k, op <> NE -> op <> IN ->
     exists b' itv, strengthen_domain x op k b = Ok (tt, b') /\
       map_find x (var2idx b') = Some (0, itv) /\ idx2var b' = idx2var b) /\
  (exists b', add_objective_minimize x b = Ok (tt, b') /\
     build_minimize_obj b' = Some 0) /\
  (forall y k op,
     make_temporal_constraint x k op y b = Undefined /\
     make_temporal_constraint y k op x b = Undefined).
Proof.
  intros Hx.
  assert (Hidx : index_of x b =
            Ok (0, mkModelBuilder (map_insert x map_default (var2idx b))
                     (idx2var b) (constraints b) (minimize_obj b))).
  { unfold index_of, map_index. rewrite Hx. reflexivity. }
  split; [|split; [|split]].
  - eexists. split; [exact Hidx|]. simpl. split; [apply map_find_insert_eq|reflexivity].
  - intros op k Hne Hin. unfold strengthen_domain.
    rewrite (strengthen_domain2_spec x op k b Hne Hin).
    eexists _, _. split; [reflexivity|]. simpl. split; [|reflexivity].
    rewrite map_find_insert_eq. unfold map_index. rewrite Hx. reflexivity.
  - unfold add_objective_minimize, bind. rewrite Hidx.
    eexists. split; reflexivity.
  - intros y k op. split.
    + unfold make_temporal_constraint. simpl.
      unfold make_temporal_constraint_body, bind. rewrite Hidx.
      destruct (index_of y _) as [[yi b2]| | |] eqn:Ey; try reflexivity;
        unfold index_of in Ey; destruct (map_index y _); discriminate.
    + unfold make_temporal_constraint. simpl.
      unfold make_temporal_constraint_body, bind.
      destruct (String.eqb_spec x y) as [<-|Hne].
      * rewrite Hidx.
        rewrite (index_of_registered x _ 0 Itv.default)
          by (simpl; apply map_find_insert_eq).
        reflexivity.
      * assert (Hy : exists yi b1, index_of y b = Ok (yi, b1) /\
                       map_find x (var2idx b1) = None).
        { unfold index_of, map_index.
          destruct (map_find y (var2idx b)) as [v|] eqn:Fy; simpl.
          - eexists _, _. split; [reflexivity|]. exact Hx.
          - eexists _, _. split; [reflexivity|]. simpl.
            rewrite map_find_insert_ne by congruence. exact Hx. }
        destruct Hy as (yi & b1 & Ey & Hx1). rewrite Ey.
        unfold index_of at 1. unfold map_index. rewrite Hx1. simpl.
        rewrite orb_true_r. reflexivity.
Qed.

Lemma unknown_name_takes_index_zero_witness :
  map_find "z" (var2idx sample) = None /\
  exists b', add_objective_minimize "z" sample = Ok (tt, b') /\
             build_minimize_obj b' = Some 0.
Proof.
  split; [reflexivity|].
  exact (proj1 (proj2 (proj2 (unknown_name_takes_index_zero "z" sample eq_refl)))).
Defined.

End BuilderUnknownNames.

Section BuilderTemporalNodes.

Import Builder.

(** The propagators of the two accepted shapes. *)
Lemma temporal_node_spec
    (b : ModelBuilder) (x y : string) (k : Z) (xi yi : Var) (dx dy : Interval) :
  map_find x (var2idx b) = Some (xi, dx) ->
  map_find y (var2idx b) = Some (yi, dy) ->
  xi <> 0 -> yi <> 0 -> Int.limit_min < k <= Int.limit_max ->
  make_temporal_constraint_from_node
    (NodeOperator OLE
       [NodeVariable x; NodeOperator OADD [NodeVariable y; NodeConstant k]]) b =
    Ok (TemporalProp xi (Int.neg yi) k, b) /\
  make_temporal_constraint_from_node
    (NodeOperator OLE [NodeVariable x; NodeVariable y]) b =
    Ok (TemporalProp xi (Int.neg yi) 0, b).
Proof.
  intros Hx Hy Hxi Hyi Hk.
  assert (Hz : (xi =? 0) || (yi =? 0) = false).
  { apply orb_false_iff. split; apply Z.eqb_neq; assumption. }
  assert (Hle : forall k', make_temporal_constraint x k' LE y b =
            Ok (TemporalProp xi (Int.neg yi) (Int.neg k'), b)).
  { intros k'. unfold make_temporal_constraint. simpl.
    unfold make_temporal_constraint_body, bind.
    rewrite (index_of_registered x b xi dx Hx), (index_of_registered y b yi dy Hy), Hz.
    reflexivity. }
  split.
  - unfold make_temporal_constraint_from_node, bind. simpl.
    rewrite Hle. rewrite (neg_neg k Hk). reflexivity.
  - unfold make_temporal_constraint_from_node, bind. simpl.
    rewrite Hle. reflexivity.
Qed.

(** X20.  The two shapes that [make_temporal_constraint_from_node]
    accepts, over registered variables: [X <= Y + k] gives
    [TemporalProp(x, -y, k)], the constant being negated twice, and
    [X <= Y] gives what [X <= Y + 0] gives.  The builder is unchanged. *)
Theorem temporal_node_gives_temporal_propagator
    (b : ModelBuilder) (x y : string) (k : Z) (xi yi : Var) (dx dy : Interval) :
  map_find x (var2idx b) = Some (xi, dx) ->
  map_find y (var2idx b) = Some (yi, dy) ->
  xi <> 0 -> yi <> 0 -> Int.limit_min < k <= Int.limit_max ->
  make_temporal_constraint_from_node
    (NodeOperator OLE
       [NodeVariable x; NodeOperator OADD [NodeVariable y; NodeConstant k]]) b =
    Ok (TemporalProp xi (Int.neg yi) k, b) /\
  make_temporal_constraint_from_node
    (NodeOperator OLE [NodeVariable x; NodeVariable y]) b =
    Ok (TemporalProp xi (Int.neg yi) 0, b).
Proof. exact (temporal_node_spec b x y k xi yi dx dy). Qed.

Lemma temporal_node_gives_temporal_propagator_witness :
  make_temporal_constraint_from_node
    (NodeOperator OLE
       [NodeVariable "x"; NodeOperator OADD [NodeVariable "y"; NodeConstant 4]])
    sample = Ok (TemporalProp 1 (Int.neg 2) 4, sample).
Proof.
  assert (H1 : 1 <> 0) by lia.
  assert (H2 : 2 <> 0) by lia.
  assert (Hk : Int.limit_min < 4 <= Int.limit_max) by (vm_compute; split; congruence).
  exact (proj1 (temporal_node_gives_temporal_propagator sample "x" "y" 4 1 2
                  (mkInterval (-10) 10) (mkInterval 0 10) eq_refl eq_refl H1 H2 Hk)).
Defined.

(** X21.  [add_reified_constraint] does not depend on the side of the
    variable: on [(c1 /\ c2) <=> b] it gives what it gives on
    [b <=> (c1 /\ c2)], which over registered variables is one
    propagator more, [ReifiedProp] of the [LogicalAnd] of the two
    temporal propagators.  A node of neither shape is refused. *)
Theorem add_reified_constraint_is_symmetric
    (t : ExpressionType) (v x y : string) (k1 k2 : Z) (b : ModelBuilder)
    (vi xi yi : Var) (dv dx dy : Interval) :
  map_find v (var2idx b) = Some (vi, dv) ->
  map_find x (var2idx b) = Some (xi, dx) ->
  map_find y (var2idx b) = Some (yi, dy) ->
  xi <> 0 -> yi <> 0 ->
  Int.limit_min < k1 <= Int.limit_max -> Int.limit_min < k2 <= Int.limit_max ->
  let c1 := NodeOperator OLE
              [NodeVariable x; NodeOperator OADD [NodeVariable y; NodeConstant k1]] in
  let c2 := NodeOperator OLE
              [NodeVariable y; NodeOperator OADD [NodeVariable x; NodeConstant k2]] in
  let pushed :=
    mkModelBuilder (var2idx b) (idx2var b)
      (constraints b ++
         [ReifiedProp vi (LogicalAnd (TemporalProp xi (Int.neg yi) k1)
                                     (TemporalProp yi (Int.neg xi) k2))])
      (minimize_obj b) in
  add_reified_constraint
    (NodeOperator t [NodeVariable v; NodeOperator OAND [c1; c2]]) b =
    Ok (tt, pushed) /\
  add_reified_constraint
    (NodeOperator t [NodeOperator OAND [c1; c2]; NodeVariable v]) b =
    Ok (tt, pushed) /\
  (forall cs,
     add_reified_constraint
       (NodeOperator t [NodeOperator OAND cs; NodeVariable v]) b =
     add_reified_constraint
       (NodeOperator t [NodeVariable v; NodeOperator OAND cs]) b) /\
  (forall w, add_reified_constraint
               (NodeOperator t [NodeVariable v; NodeVariable w]) b =
             Throw "Expected reified constraint of the form  b <=> (c1 /\ c2)").
Proof.
  intros Hv Hx Hy Hxi Hyi Hk1 Hk2 c1 c2 pushed.
  destruct (temporal_node_spec b x y k1 xi yi dx dy
              Hx Hy Hxi Hyi Hk1) as [T1 _].
  destruct (temporal_node_spec b y x k2 yi xi dy dx
              Hy Hx Hyi Hxi Hk2) as [T2 _].
  assert (Hfirst : add_reified_constraint
            (NodeOperator t [NodeVariable v; NodeOperator OAND [c1; c2]]) b =
            Ok (tt, pushed)).
  { unfold add_reified_constraint. simpl.
    unfold add_reified_constraint_body, bind.
    cbn -[make_temporal_constraint_from_node index_of].
    unfold c1 at 1. rewrite T1. unfold c2 at 1. rewrite T2.
    rewrite (index_of_registered v b vi dv Hv).
    reflexivity. }
  split; [exact Hfirst|]. split; [|split].
  - rewrite <- Hfirst. reflexivity.
  - intros cs. reflexivity.
  - intros w. reflexivity.
Qed.

Lemma add_reified_constraint_is_symmetric_witness :
  add_reified_constraint
    (NodeOperator OIFF
       [NodeOperator OAND
          [NodeOperator OLE
             [NodeVariable "x";
              NodeOperator OADD [NodeVariable "y"; NodeConstant (-1)]];
           NodeOperator OLE
             [NodeVariable "y";
              NodeOperator OADD [NodeVariable "x"; NodeConstant 3]]];
        NodeVariable "y"]) sample =
  Ok (tt, mkModelBuilder (var2idx sample) (idx2var sample)
            (constraints sample ++
               [ReifiedProp 2 (LogicalAnd (TemporalProp 1 (Int.neg 2) (-1))
                                          (TemporalProp 2 (Int.neg 1) 3))])
            (minimize_obj sample)).
Proof.
  assert (H1 : 1 <> 0) by lia.
  assert (H2 : 2 <> 0) by lia.
  assert (Hk1 : Int.limit_min < -1 <= Int.limit_max) by (vm_compute; split; congruence).
  assert (Hk2 : Int.limit_min < 3 <= Int.limit_max) by (vm_compute; split; congruence).
  exact (proj1 (proj2 (add_reified_constraint_is_symmetric OIFF "y" "x" "y" (-1) 3
                         sample 2 1 2 (mkInterval 0 10) (mkInterval (-10) 10)
                         (mkInterval 0 10) eq_refl eq_refl eq_refl H1 H2 Hk1 Hk2))).
Defined.

End BuilderTemporalNodes.

Section BuilderStoreSlots.

Import Builder.

Lemma dom_all_other (m : list Entry) : forall (s s' : TopStore.VStore) (v : Var),
  dom_all m s = Some s' ->
  Forall (fun e : Entry => fst (snd e) <> v) m ->
  TopStore.at_ s' v = TopStore.at_ s v.
Proof.
  induction m as [|[k [idx itv]] m IH]; intros s s' v H Hall; simpl in H.
  - injection H as <-. reflexivity.
  - inversion Hall as [|? ? Hne Hrest]; subst. simpl in Hne.
    destruct (TopStore.dom idx itv s) as [s1|] eqn:E; [|discriminate]. simpl in H.
    rewrite (IH s1 s' v H Hrest).
    apply (run_op_other_slots (TopStore.OpDom idx itv) s s1 v E). simpl. congruence.
Qed.

Lemma dom_all_slots (m : list Entry) : forall (s s' : TopStore.VStore),
  dom_all m s = Some s' ->
  NoDup (map (fun e : Entry => fst (snd e)) m) ->
  forall k idx itv, In (k, (idx, itv)) m -> TopStore.at_ s' idx = Some itv.
Proof.
  induction m as [|[k0 [idx0 itv0]] m IH]; intros s s' H Hnd k idx itv Hin;
    simpl in *; [contradiction|].
  destruct (TopStore.dom idx0 itv0 s) as [s1|] eqn:E; [|discriminate]. simpl in H.
  apply NoDup_cons in Hnd as [Hnotin Hnd].
  destruct Hin as [Heq|Hin].
  - injection Heq as -> -> ->.
    rewrite (dom_all_other m s1 s' idx H).
    + destruct (TopStore.at_ s idx) as [old|] eqn:Hold.
      * rewrite (dom_spec idx itv old s Hold) in E. injection E as <-.
        destruct (at_Some_range _ _ _ Hold) as [H0 H1].
        unfold TopStore.at_. simpl. destruct (0 <=? idx) eqn:E0; [|lia].
        apply list_lookup_insert_eq. exact H1.
      * unfold TopStore.dom in E. rewrite Hold in E. discriminate.
    + apply Forall_forall. intros [k' [idx' itv']] Hin' Heq. simpl in Heq.
      subst idx'. apply Hnotin. apply list_elem_of_fmap. exists (k', (idx, itv')).
      split; [reflexivity|exact Hin'].
  - exact (IH s1 s' H Hnd k idx itv Hin).
Qed.

(** The store that [build_store] returns. *)
Lemma build_store_spec (b : ModelBuilder) :
  wf b -> NoDup (map (fun e : Entry => fst (snd e)) (var2idx b)) ->
  exists s,
    build_store b = Some s /\
    TopStore.size s = length (idx2var b) /\
    (forall name idx itv, map_find name (var2idx b) = Some (idx, itv) ->
       TopStore.at_ s idx = Some itv) /\
    (forall v, 0 <= v < Z.of_nat (length (idx2var b)) ->
       Forall (fun e : Entry => fst (snd e) <> v) (var2idx b) ->
       TopStore.at_ s v = Some Itv.default) /\
    TopStore.is_top s =
      existsb (fun e : Entry => Itv.is_top (snd (snd e))) (var2idx b).
Proof.
  intros (Hlen & Hall & Hpos) Hnd. unfold build_store.
  assert (Hsz : TopStore.size (TopStore.new (length (idx2var b))) = length (idx2var b)).
  { unfold TopStore.size, TopStore.new, TopStore.Array_new. simpl.
    apply length_replicate. }
  destruct (dom_all_spec (var2idx b) (TopStore.new (length (idx2var b))))
    as (s & E & Hs & Ht).
  { rewrite Hsz. exact Hall. }
  exists s. split; [exact E|]. split; [congruence|]. split; [|split].
  - intros name idx itv Hf.
    exact (dom_all_slots _ _ _ E Hnd name idx itv (map_find_In _ _ _ Hf)).
  - intros v Hv Hno. rewrite (dom_all_other _ _ _ v E Hno).
    unfold TopStore.at_, TopStore.new, TopStore.Array_new. simpl.
    destruct (0 <=? v) eqn:E0; [|lia].
    apply lookup_replicate. split; [reflexivity|lia].
  - unfold TopStore.is_top. rewrite Ht. reflexivity.
Qed.

(** X22.  [build_store] on a builder whose entries have indices inside
    [idx2var], all different: the store is built, has one slot for each
    name of [idx2var], holds at the index of every registered name the
    interval registered for it, holds the full interval in every slot
    that no name has, and is top exactly when some registered interval
    is empty. *)
Theorem build_store_holds_registered_domains (b : ModelBuilder) :
  wf b -> NoDup (map (fun e : Entry => fst (snd e)) (var2idx b)) ->
  exists s,
    build_store b = Some s /\
    TopStore.size s = length (idx2var b) /\
    (forall name idx itv, map_find name (var2idx b) = Some (idx, itv) ->
       TopStore.at_ s idx = Some itv) /\
    (forall v, 0 <= v < Z.of_nat (length (idx2var b)) ->
       Forall (fun e : Entry => fst (snd e) <> v) (var2idx b) ->
       TopStore.at_ s v = Some Itv.default) /\
    TopStore.is_top s =
      existsb (fun e : Entry => Itv.is_top (snd (snd e))) (var2idx b).
Proof. exact (build_store_spec b). Qed.

Lemma sample_indices_differ :
  NoDup (map (fun e : Entry => fst (snd e)) (var2idx sample)).
Proof.
  vm_compute. repeat (constructor; [intros H; repeat (inversion H; subst; clear H;
    match goal with H' : _ ∈ _ |- _ => rename H' into H | _ => idtac end)|]).
  constructor.
Defined.

Lemma build_store_holds_registered_domains_witness :
  exists s, build_store sample = Some s /\ TopStore.size s = 3%nat.
Proof.
  destruct (build_store_holds_registered_domains sample sample_wf
              sample_indices_differ) as (s & E & Hs & _).
  exists s. split; [exact E|exact Hs].
Defined.

End BuilderStoreSlots.

Section BuilderAddVar.

Import Builder.

Lemma map_insert_elem (x : string) (v : Var * Interval) (m : list Entry) (e : Entry) :
  In e (map_insert x v m) -> snd e = v \/ In e m.
Proof.
  induction m as [|[k w] m IH]; simpl.
  - intros [<-|[]]. left. reflexivity.
  - destruct (String.compare x k); simpl.
    + intros [<-|H]; [left; reflexivity|right; right; exact H].
    + intros [<-|H]; [left; reflexivity|right; exact H].
    + intros [<-|H]; [right; left; reflexivity|].
      destruct (IH H); [left; assumption|right; right; assumption].
Qed.

Lemma map_insert_NoDup (x : string) (i : Var) (itv : Interval) (m : list Entry) :
  NoDup (map (fun e : Entry => fst (snd e)) m) ->
  Forall (fun e : Entry => fst (snd e) <> i) m ->
  NoDup (map (fun e : Entry => fst (snd e)) (map_insert x (i, itv) m)).
Proof.
  intros Hnd Hfresh. induction m as [|[k [j w]] m IH]; simpl.
  - apply NoDup_singleton.
  - simpl in Hnd. apply NoDup_cons in Hnd as [Hj Hnd].
    inversion Hfresh as [|? ? Hji Hrest]; subst. simpl in Hji.
    assert (Hi : i ∉ map (fun e : Entry => fst (snd e)) m).
    { intros Hin. apply list_elem_of_fmap in Hin as ([k' [i' w']] & Heq & Hin).
      simpl in Heq. subst i'. rewrite Forall_forall in Hrest.
      exact (Hrest _ Hin eq_refl). }
    destruct (String.compare x k); simpl.
    + apply NoDup_cons. split; [exact Hi|exact Hnd].
    + apply NoDup_cons. split.
      * intros Hin. apply elem_of_cons in Hin as [Heq|Hin]; [congruence|].
        exact (Hi Hin).
      * apply NoDup_cons. split; assumption.
    + apply NoDup_cons. split; [|exact (IH Hnd Hrest)].
      intros Hin. apply list_elem_of_fmap in Hin as (e & Heq & Hin).
      apply list_elem_of_In in Hin. apply map_insert_elem in Hin as [Hv|Hin].
      * rewrite Hv in Heq. simpl in Heq. congruence.
      * apply Hj. apply list_elem_of_fmap. exists e.
        split; [exact Heq|apply list_elem_of_In; exact Hin].
Qed.

(** X23.  [add_var] and back: on a well-formed builder with different
    indices, [add_var(name, lo, hi)] gives the name the next index,
    which [idx2var] maps back to the name; the other names keep their
    entries; the builder stays well formed with different indices, and
    the store built from it holds [(lo, hi)] at the new index. *)
Theorem add_var_registers_and_reaches_store
    (name : string) (lo hi : Z) (b : ModelBuilder) :
  wf b -> NoDup (map (fun e : Entry => fst (snd e)) (var2idx b)) ->
  Z.of_nat (length (idx2var b)) + 1 < Int.limit_max ->
  exists b' s,
    add_var name lo hi b = Ok (tt, b') /\
    map_find name (var2idx b') =
      Some (Z.of_nat (length (idx2var b)), mkInterval lo hi) /\
    idx2var b' !! length (idx2var b) = Some name /\
    (forall other, other <> name ->
       map_find other (var2idx b') = map_find other (var2idx b)) /\
    wf b' /\ NoDup (map (fun e : Entry => fst (snd e)) (var2idx b')) /\
    build_store b' = Some s /\
    TopStore.lb_of s (Z.of_nat (length (idx2var b))) = Some lo /\
    TopStore.ub_of s (Z.of_nat (length (idx2var b))) = Some hi.
Proof.
  intros Hwf Hnd Hroom.
  pose proof (add_var_spec name lo hi b Hwf) as Hadd.
  set (b' := mkModelBuilder _ _ _ _) in Hadd.
  assert (Hwf' : wf b') by (exact (wf_add_var name lo hi b b' Hwf Hroom Hadd)).
  assert (Hnd' : NoDup (map (fun e : Entry => fst (snd e)) (var2idx b'))).
  { unfold b'. simpl. apply map_insert_NoDup; [exact Hnd|].
    destruct Hwf as (_ & Hall & _). eapply Forall_impl; [exact Hall|].
    intros e He. cbv beta in He. lia. }
  assert (Hfind : map_find name (var2idx b') =
            Some (Z.of_nat (length (idx2var b)), mkInterval lo hi))
    by (unfold b'; simpl; apply map_find_insert_eq).
  destruct (build_store_spec b' Hwf' Hnd')
    as (s & E & _ & Hslots & _).
  pose proof (Hslots name _ _ Hfind) as Hslot.
  exists b', s. split; [exact Hadd|]. split; [exact Hfind|]. split; [|split].
  - unfold b'. simpl. rewrite lookup_app_r by lia.
    rewrite Nat.sub_diag. reflexivity.
  - intros other Hne. unfold b'. simpl. apply map_find_insert_ne. congruence.
  - split; [exact Hwf'|]. split; [exact Hnd'|]. split; [exact E|].
    unfold TopStore.lb_of, TopStore.ub_of. rewrite Hslot. split; reflexivity.
Qed.

Lemma add_var_registers_and_reaches_store_witness :
  exists b' s,
    add_var "z" 2 9 sample = Ok (tt, b') /\
    build_store b' = Some s /\ TopStore.lb_of s 3 = Some 2.
Proof.
  assert (Hroom : Z.of_nat (length (idx2var sample)) + 1 < Int.limit_max)
    by (vm_compute; reflexivity).
  destruct (add_var_registers_and_reaches_store "z" 2 9 sample sample_wf
              sample_indices_differ Hroom)
    as (b' & s & Hadd & _ & _ & _ & _ & _ & E & Hl & _).
  exists b', s. split; [exact Hadd|]. split; [exact E|exact Hl].
Defined.

End BuilderAddVar.

(** * Properties of the statistics *)

Section StatisticsFacts.

Variable double : Type.
Variable dadd : double -> double -> double.

Lemma wrap64_add_assoc (x y z : Z) :
  Stats.wrap64 (Stats.wrap64 (x + y) + z) = Stats.wrap64 (x + Stats.wrap64 (y + z)).
Proof.
  unfold Stats.wrap64. rewrite Z.add_mod_idemp_l, Z.add_mod_idemp_r by lia.
  f_equal. lia.
Qed.

Lemma land_size_t_assoc (x y z : Z) :
  Stats.land_size_t (Stats.land_size_t x y) z =
  Stats.land_size_t x (Stats.land_size_t y z).
Proof.
  unfold Stats.land_size_t.
  destruct (x =? 0), (y =? 0), (z =? 0); reflexivity.
Qed.

(** X24.  [join] can be applied in any grouping: every field that is
    not a [double] is the same in [(a.join(b)).join(c)] and in
    [a.join(b.join(c))].  The counters are added modulo [2^64], the
    durations and the depth are maxima, [exhaustive] is the conjunction,
    and the fields that [join] does not combine are those of the
    receiver. *)
Theorem join_is_associative (a b c : Stats.Statistics double) :
  let l := Stats.join _ dadd (Stats.join _ dadd a b) c in
  let r := Stats.join _ dadd a (Stats.join _ dadd b c) in
  Stats.variables _ l = Stats.variables _ r /\
  Stats.constraints _ l = Stats.constraints _ r /\
  Stats.optimization _ l = Stats.optimization _ r /\
  Stats.duration _ l = Stats.duration _ r /\
  Stats.interpretation_duration _ l = Stats.interpretation_duration _ r /\
  Stats.nodes _ l = Stats.nodes _ r /\
  Stats.fails _ l = Stats.fails _ r /\
  Stats.solutions _ l = Stats.solutions _ r /\
  Stats.depth_max _ l = Stats.depth_max _ r /\
  Stats.exhaustive _ l = Stats.exhaustive _ r /\
  Stats.eps_num_subproblems _ l = Stats.eps_num_subproblems _ r /\
  Stats.eps_solved_subproblems _ l = Stats.eps_solved_subproblems _ r /\
  Stats.eps_skipped_subproblems _ l = Stats.eps_skipped_subproblems _ r /\
  Stats.num_blocks_done _ l = Stats.num_blocks_done _ r /\
  Stats.fixpoint_iterations _ l = Stats.fixpoint_iterations _ r /\
  Stats.eliminated_variables _ l = Stats.eliminated_variables _ r /\
  Stats.eliminated_formulas _ l = Stats.eliminated_formulas _ r /\
  Stats.xcsp _ l = Stats.xcsp _ r.
Proof.
  simpl. repeat split; try reflexivity;
    try apply wrap64_add_assoc; try apply land_size_t_assoc; lia.
Qed.

(** X25.  The order of the two records matters only for the fields that
    [join] leaves alone: the counters, the durations, the depth and
    [exhaustive] of [a.join(b)] are those of [b.join(a)], while
    [variables], [constraints], [optimization], [eps_num_subproblems],
    the eliminated counts and [xcsp] are those of the receiver. *)
Theorem join_is_commutative_on_combined_fields (a b : Stats.Statistics double) :
  (Stats.duration _ (Stats.join _ dadd a b) = Stats.duration _ (Stats.join _ dadd b a) /\
   Stats.interpretation_duration _ (Stats.join _ dadd a b) =
     Stats.interpretation_duration _ (Stats.join _ dadd b a) /\
   Stats.nodes _ (Stats.join _ dadd a b) = Stats.nodes _ (Stats.join _ dadd b a) /\
   Stats.fails _ (Stats.join _ dadd a b) = Stats.fails _ (Stats.join _ dadd b a) /\
   Stats.solutions _ (Stats.join _ dadd a b) = Stats.solutions _ (Stats.join _ dadd b a) /\
   Stats.depth_max _ (Stats.join _ dadd a b) = Stats.depth_max _ (Stats.join _ dadd b a) /\
   Stats.exhaustive _ (Stats.join _ dadd a b) = Stats.exhaustive _ (Stats.join _ dadd b a) /\
   Stats.eps_solved_subproblems _ (Stats.join _ dadd a b) =
     Stats.eps_solved_subproblems _ (Stats.join _ dadd b a) /\
   Stats.eps_skipped_subproblems _ (Stats.join _ dadd a b) =
     Stats.eps_skipped_subproblems _ (Stats.join _ dadd b a) /\
   Stats.num_blocks_done _ (Stats.join _ dadd a b) = Stats.num_blocks_done _ (Stats.join _ dadd b a) /\
   Stats.fixpoint_iterations _ (Stats.join _ dadd a b) =
     Stats.fixpoint_iterations _ (Stats.join _ dadd b a)) /\
  (Stats.variables _ (Stats.join _ dadd a b) = Stats.variables _ a /\
   Stats.constraints _ (Stats.join _ dadd a b) = Stats.constraints _ a /\
   Stats.optimization _ (Stats.join _ dadd a b) = Stats.optimization _ a /\
   Stats.eps_num_subproblems _ (Stats.join _ dadd a b) = Stats.eps_num_subproblems _ a /\
   Stats.eliminated_variables _ (Stats.join _ dadd a b) = Stats.eliminated_variables _ a /\
   Stats.eliminated_formulas _ (Stats.join _ dadd a b) = Stats.eliminated_formulas _ a /\
   Stats.xcsp _ (Stats.join _ dadd a b) = Stats.xcsp _ a) /\
  (Stats.exhaustive _ (Stats.join _ dadd a b) = 0 \/ Stats.exhaustive _ (Stats.join _ dadd a b) = 1).
Proof.
  simpl. repeat split; try reflexivity; try (f_equal; lia); try lia.
  - unfold Stats.land_size_t.
    destruct (Stats.exhaustive _ a =? 0), (Stats.exhaustive _ b =? 0); reflexivity.
  - unfold Stats.land_size_t.
    destruct (negb _ && negb _); [right|left]; reflexivity.
Qed.

(** X26.  What [print_final] reports.  Its last line is the XCSP status
    line, in both output modes; the status is unsatisfiable, in either
    notation, only when no solution was counted and the search was
    exhaustive, and satisfiable exactly when a solution was counted.  In
    XCSP mode the status line is all that is written. *)
Theorem print_final_reports_status (s : Stats.Statistics double) :
  (exists status,
     Stats.print_final _ s =
       (if Stats.xcsp _ s then [] else Stats.print_mzn_final_separator _ s)
       ++ [status] /\
     Stats.print_final_xcsp _ s = [status]) /\
  (In "s SATISFIABLE"%string (Stats.print_final _ s) <->
   0 < Stats.solutions _ s) /\
  (In "s UNSATISFIABLE"%string (Stats.print_final _ s) <->
   Stats.solutions _ s <= 0 /\ Stats.exhaustive _ s <> 0) /\
  (In "=====UNSATISFIABLE====="%string (Stats.print_final _ s) <->
   Stats.xcsp _ s = false /\
   Stats.solutions _ s <= 0 /\ Stats.exhaustive _ s <> 0).
Proof.
  split.
  - unfold Stats.print_final, Stats.print_final_xcsp.
    destruct (Stats.xcsp _ s); simpl;
      (destruct (Stats.solutions _ s >? 0);
       [|destruct (negb (Stats.exhaustive _ s =? 0))]);
      eexists; split; reflexivity.
  - unfold Stats.print_final, Stats.print_mzn_final_separator,
      Stats.print_final_xcsp, Stats.print_xcsp_comment.
    destruct (Stats.xcsp _ s), (Z.gtb_spec (Stats.solutions _ s) 0),
      (Z.eqb_spec (Stats.exhaustive _ s) 0), (Stats.optimization _ s); simpl;
      intuition (try discriminate; try lia; try congruence).
Qed.

End StatisticsFacts.

Section BuilderKeeps.

Import Builder.

Variable P : ModelBuilder -> ModelBuilder -> Prop.
Hypothesis P_refl : forall b, P b b.
Hypothesis P_trans : forall b1 b2 b3, P b1 b2 -> P b2 b3 -> P b1 b3.

Lemma keeps_ret {A} (a : A) : keeps P (ret a).
Proof. intros b a' b' H. injection H as _ <-. apply P_refl. Qed.

Lemma keeps_throw {A} (w : string) : keeps P (@throw A w).
Proof. intros b a b' H. discriminate. Qed.

Lemma keeps_undefined {A} : keeps P (@undefined A).
Proof. intros b a b' H. discriminate. Qed.

Lemma keeps_lift {A} (o : option A) : keeps P (lift o).
Proof. destruct o; [apply keeps_ret|apply keeps_undefined]. Qed.

Lemma keeps_bind {A B} (c : M A) (f : A -> M B) :
  keeps P c -> (forall a, keeps P (f a)) -> keeps P (bind c f).
Proof.
  intros Hc Hf b r b' H. unfold bind in H.
  destruct (c b) as [[a b1]| | |] eqn:E; try discriminate.
  exact (P_trans _ _ _ (Hc _ _ _ E) (Hf a _ _ _ H)).
Qed.

Hypothesis P_index_of : forall x, keeps P (index_of x).
Hypothesis P_domain_of : forall x, keeps P (domain_of x).
Hypothesis P_set_domain : forall x itv, keeps P (set_domain x itv).
Hypothesis P_add_var : forall name lo hi, keeps P (add_var name lo hi).
Hypothesis P_push : forall p, keeps P (push_propagator p).

Ltac keeps_step :=
  match goal with
  | |- keeps _ (bind _ _) => apply keeps_bind; [|intros ?]
  | |- keeps _ (ret _) => apply keeps_ret
  | |- keeps _ (throw _) => apply keeps_throw
  | |- keeps _ undefined => apply keeps_undefined
  | |- keeps _ (lift _) => apply keeps_lift
  | |- keeps _ (param _ _) => apply keeps_lift
  | |- keeps _ (index_of _) => apply P_index_of
  | |- keeps _ (domain_of _) => apply P_domain_of
  | |- keeps _ (set_domain _ _) => apply P_set_domain
  | |- keeps _ (add_var _ _ _) => apply P_add_var
  | |- keeps _ (push_propagator _) => apply P_push
  | |- keeps _ (if ?c then _ else _) => destruct c
  | |- keeps _ (match ?o with _ => _ end) => destruct o
  end.

Lemma keeps_node_val (n : Node) : keeps P (node_val n).
Proof. destruct n; simpl; repeat keeps_step. Qed.

Lemma keeps_toString (n : Node) : keeps P (toString n).
Proof. destruct n; simpl; repeat keeps_step. Qed.

Lemma keeps_strengthen_domain2 (x : string) (op : OrderType) (k : Z) :
  keeps P (strengthen_domain2 x op k).
Proof. unfold strengthen_domain2. repeat keeps_step. Qed.

Lemma keeps_le_mul_domain_body (x : string) (a c : Z) :
  keeps P (le_mul_domain_body x a c).
Proof.
  unfold le_mul_domain_body.
  repeat first [apply keeps_strengthen_domain2 | keeps_step].
Qed.

Lemma keeps_le_mul_domain (node : Node) : keeps P (le_mul_domain node).
Proof.
  unfold le_mul_domain.
  repeat first [apply keeps_le_mul_domain_body | apply keeps_node_val
               | apply keeps_toString | keeps_step].
Qed.

Lemma keeps_evaluate_constant (node : Node) : keeps P (evaluate_constant node).
Proof.
  unfold evaluate_constant. repeat first [apply keeps_node_val | keeps_step].
Qed.

Lemma keeps_strengthen_domain_from_node (node : Node) :
  keeps P (strengthen_domain_from_node node).
Proof.
  unfold strengthen_domain_from_node.
  repeat first [apply keeps_le_mul_domain | apply keeps_evaluate_constant
               | apply keeps_strengthen_domain2 | apply keeps_node_val
               | apply keeps_toString | keeps_step].
Qed.

Lemma keeps_make_temporal_constraint_fuel (n : nat) :
  forall x k op y, keeps P (make_temporal_constraint_fuel n x k op y).
Proof.
  induction n as [|n IH]; intros x k op y; simpl.
  - intros b a b' H. discriminate.
  - unfold make_temporal_constraint_body.
    repeat first [apply IH | keeps_step].
Qed.

Lemma keeps_make_temporal_constraint_from_node (node : Node) :
  keeps P (make_temporal_constraint_from_node node).
Proof.
  unfold make_temporal_constraint_from_node, make_temporal_constraint.
  repeat first [apply keeps_make_temporal_constraint_fuel | apply keeps_node_val
               | apply keeps_toString | keeps_step].
Qed.

Lemma keeps_tautology (node : Node) : keeps P (tautology node).
Proof.
  unfold tautology. repeat first [apply keeps_node_val | keeps_step].
Qed.

Lemma keeps_linear_factors (ns : list Node) :
  forall vars constants, keeps P (linear_factors ns vars constants).
Proof.
  induction ns as [|n ns IH]; intros vars constants; simpl.
  - apply keeps_ret.
  - repeat first [apply IH | apply keeps_node_val | apply keeps_toString
                 | keeps_step].
Qed.

Lemma keeps_add_linear_constraint (node : Node) :
  keeps P (add_linear_constraint node).
Proof.
  unfold add_linear_constraint.
  repeat first [apply keeps_tautology | apply keeps_linear_factors
               | apply keeps_node_val | keeps_step].
Qed.

Lemma keeps_add_reified_constraint_fuel (n : nat) :
  forall node, keeps P (add_reified_constraint_fuel n node).
Proof.
  induction n as [|n IH]; intros node; simpl.
  - intros b a b' H. discriminate.
  - unfold add_reified_constraint_body.
    repeat first [apply IH | apply keeps_make_temporal_constraint_from_node
                 | apply keeps_toString | keeps_step].
Qed.

Lemma keeps_add_constraint (tree : Tree) : keeps P (add_constraint tree).
Proof.
  unfold add_constraint, add_reified_constraint.
  repeat first [apply keeps_strengthen_domain_from_node
               | apply keeps_add_reified_constraint_fuel
               | apply keeps_add_linear_constraint | keeps_step].
Qed.

Lemma keeps_add_temporal_constraint (x : string) (k : Z) (op : OrderType) (y : string) :
  keeps P (add_temporal_constraint x k op y).
Proof.
  unfold add_temporal_constraint, make_temporal_constraint.
  repeat first [apply keeps_make_temporal_constraint_fuel | keeps_step].
Qed.

End BuilderKeeps.

Section BuilderInvariants.

Import Builder.

(** X27.  Domain constraints never touch the propagators nor the
    objective: after [strengthen_domain], after
    [strengthen_domain_from_node] on any node and after [add_constraint]
    on any tree of arity 1, [constraints] and [minimize_obj] are what
    they were. *)
Theorem domain_constraints_add_no_propagator (b b' : ModelBuilder) :
  (forall x op k, strengthen_domain x op k b = Ok (tt, b') ->
     constraints b' = constraints b /\ minimize_obj b' = minimize_obj b) /\
  (forall node, strengthen_domain_from_node node b = Ok (tt, b') ->
     constraints b' = constraints b /\ minimize_obj b' = minimize_obj b) /\
  (forall root, add_constraint (mkTree 1 root) b = Ok (tt, b') ->
     constraints b' = constraints b /\ minimize_obj b' = minimize_obj b).
Proof.
  set (P := fun b1 b2 : ModelBuilder =>
              constraints b2 = constraints b1 /\ minimize_obj b2 = minimize_obj b1).
  assert (Hrefl : forall b1, P b1 b1) by (intros b1; split; reflexivity).
  assert (Htrans : forall b1 b2 b3, P b1 b2 -> P b2 b3 -> P b1 b3).
  { intros b1 b2 b3 [H1 H2] [H3 H4]. split; congruence. }
  assert (Hi : forall x, keeps P (index_of x)).
  { intros x b1 a b2 H. unfold index_of in H.
    destruct (map_index x (var2idx b1)). injection H as _ <-. split; reflexivity. }
  assert (Hd : forall x, keeps P (domain_of x)).
  { intros x b1 a b2 H. unfold domain_of in H.
    destruct (map_index x (var2idx b1)). injection H as _ <-. split; reflexivity. }
  assert (Hs : forall x itv, keeps P (set_domain x itv)).
  { intros x itv b1 a b2 H. unfold set_domain in H.
    destruct (map_index x (var2idx b1)). injection H as _ <-. split; reflexivity. }
  assert (Ha : forall name lo hi, keeps P (add_var name lo hi)).
  { intros name lo hi b1 a b2 H. injection H as _ <-. split; reflexivity. }
  split; [|split].
  - intros x op k H.
    exact (keeps_strengthen_domain2 P Hrefl Htrans Hd Hs x op k b tt b' H).
  - intros node H.
    exact (keeps_strengthen_domain_from_node P Hrefl Htrans Hd Hs Ha node b tt b' H).
  - intros root H. unfold add_constraint in H. simpl in H.
    exact (keeps_strengthen_domain_from_node P Hrefl Htrans Hd Hs Ha root b tt b' H).
Qed.

Lemma domain_constraints_add_no_propagator_witness :
  constraints (after (strengthen_domain "x" LE 3) sample) = constraints sample.
Proof.
  exact (proj1 (proj1 (domain_constraints_add_no_propagator sample
                         (after (strengthen_domain "x" LE 3) sample))
                  "x"%string LE 3 eq_refl)).
Defined.

(** X28.  Adding a constraint only appends: after [add_constraint] on
    any tree and after [add_temporal_constraint], the propagators that
    were registered are still there, in the same order, before the new
    ones, and the objective is unchanged. *)
Theorem constraints_are_only_appended (b b' : ModelBuilder) :
  (forall tree, add_constraint tree b = Ok (tt, b') ->
     (exists ps, constraints b' = constraints b ++ ps) /\
     minimize_obj b' = minimize_obj b) /\
  (forall x k op y, add_temporal_constraint x k op y b = Ok (tt, b') ->
     (exists ps, constraints b' = constraints b ++ ps) /\
     minimize_obj b' = minimize_obj b).
Proof.
  set (P := fun b1 b2 : ModelBuilder =>
              (exists ps, constraints b2 = constraints b1 ++ ps) /\
              minimize_obj b2 = minimize_obj b1).
  assert (Hrefl : forall b1, P b1 b1).
  { intros b1. split; [exists []; rewrite app_nil_r|]; reflexivity. }
  assert (Htrans : forall b1 b2 b3, P b1 b2 -> P b2 b3 -> P b1 b3).
  { intros b1 b2 b3 [[ps H1] H2] [[qs H3] H4]. split; [|congruence].
    exists (ps ++ qs). rewrite H3, H1, app_assoc. reflexivity. }
  assert (Hsame : forall b1 b2, constraints b2 = constraints b1 ->
            minimize_obj b2 = minimize_obj b1 -> P b1 b2).
  { intros b1 b2 H1 H2. split; [exists []; rewrite app_nil_r|]; assumption. }
  assert (Hi : forall x, keeps P (index_of x)).
  { intros x b1 a b2 H. unfold index_of in H.
    destruct (map_index x (var2idx b1)). injection H as _ <-. apply Hsame; reflexivity. }
  assert (Hd : forall x, keeps P (domain_of x)).
  { intros x b1 a b2 H. unfold domain_of in H.
    destruct (map_index x (var2idx b1)). injection H as _ <-. apply Hsame; reflexivity. }
  assert (Hs : forall x itv, keeps P (set_domain x itv)).
  { intros x itv b1 a b2 H. unfold set_domain in H.
    destruct (map_index x (var2idx b1)). injection H as _ <-. apply Hsame; reflexivity. }
  assert (Ha : forall name lo hi, keeps P (add_var name lo hi)).
  { intros name lo hi b1 a b2 H. injection H as _ <-. apply Hsame; reflexivity. }
  assert (Hp : forall p, keeps P (push_propagator p)).
  { intros p b1 a b2 H. injection H as _ <-. split; [exists [p]|]; reflexivity. }
  split.
  - intros tree H.
    exact (keeps_add_constraint P Hrefl Htrans Hi Hd Hs Ha Hp tree b tt b' H).
  - intros x k op y H.
    exact (keeps_add_temporal_constraint P Hrefl Htrans Hi Hp x k op y b tt b' H).
Qed.

Lemma constraints_are_only_appended_witness :
  exists ps,
    constraints (after (add_temporal_constraint "x" 1 LE "y") sample) =
    constraints sample ++ ps.
Proof.
  exact (proj1 (proj2 (constraints_are_only_appended sample
                         (after (add_temporal_constraint "x" 1 LE "y") sample))
                  "x"%string 1 LE "y"%string eq_refl)).
Defined.

(** X29.  The builder stays well formed: if every index of [var2idx] is
    below the number of names before [add_constraint],
    [add_temporal_constraint] or [strengthen_domain], it is so
    afterwards (the number of names staying below [INT_MAX]), and
    [build_store] then returns a store with one slot for each name. *)
Theorem builder_stays_well_formed (b b' : ModelBuilder) :
  wf b -> Z.of_nat (length (idx2var b')) < Int.limit_max ->
  (exists tree, add_constraint tree b = Ok (tt, b')) \/
  (exists x k op y, add_temporal_constraint x k op y b = Ok (tt, b')) \/
  (exists x op k, strengthen_domain x op k b = Ok (tt, b')) ->
  wf b' /\
  exists s, build_store b' = Some s /\ TopStore.size s = length (idx2var b').
Proof.
  set (P := fun b1 b2 : ModelBuilder =>
              (length (idx2var b1) <= length (idx2var b2))%nat /\
              (wf b1 -> Z.of_nat (length (idx2var b2)) < Int.limit_max -> wf b2)).
  assert (Hrefl : forall b1, P b1 b1) by (intros b1; split; auto).
  assert (Htrans : forall b1 b2 b3, P b1 b2 -> P b2 b3 -> P b1 b3).
  { intros b1 b2 b3 [H1 H2] [H3 H4]. split; [lia|].
    intros Hw Hl. apply H4; [apply H2; [exact Hw|lia]|exact Hl]. }
  assert (Hi : forall x, keeps P (index_of x)).
  { intros x b1 a b2 H. split.
    - unfold index_of in H. destruct (map_index x (var2idx b1)).
      injection H as _ <-. simpl. lia.
    - intros Hw _. exact (wf_index_of x b1 b2 a Hw H). }
  assert (Hd : forall x, keeps P (domain_of x)).
  { intros x b1 a b2 H. split.
    - unfold domain_of in H. destruct (map_index x (var2idx b1)).
      injection H as _ <-. simpl. lia.
    - intros Hw _. exact (wf_domain_of x b1 b2 a Hw H). }
  assert (Hs : forall x itv, keeps P (set_domain x itv)).
  { intros x itv b1 a b2 H. split.
    - unfold set_domain in H. destruct (map_index x (var2idx b1)).
      injection H as _ <-. simpl. lia.
    - intros Hw _. destruct a. exact (wf_set_domain x itv b1 b2 Hw H). }
  assert (Ha : forall name lo hi, keeps P (add_var name lo hi)).
  { intros name lo hi b1 a b2 H. split.
    - injection H as _ <-. simpl. rewrite length_app. simpl. lia.
    - intros Hw Hl. destruct a. apply (wf_add_var name lo hi b1 b2 Hw); [|exact H].
      injection H as <-. simpl in Hl. rewrite length_app in Hl. simpl in Hl. lia. }
  assert (Hp : forall p, keeps P (push_propagator p)).
  { intros p b1 a b2 H. split.
    - injection H as _ <-. simpl. lia.
    - intros Hw _. destruct a. exact (wf_push_propagator p b1 b2 Hw H). }
  intros Hwf Hlen Hop.
  assert (Hwf' : wf b').
  { destruct Hop as [[tree H]|[(x & k & op & y & H)|(x & op & k & H)]].
    - exact (proj2 (keeps_add_constraint P Hrefl Htrans Hi Hd Hs Ha Hp
                      tree b tt b' H) Hwf Hlen).
    - exact (proj2 (keeps_add_temporal_constraint P Hrefl Htrans Hi Hp
                      x k op y b tt b' H) Hwf Hlen).
    - exact (proj2 (keeps_strengthen_domain2 P Hrefl Htrans Hd Hs
                      x op k b tt b' H) Hwf Hlen). }
  split; [exact Hwf'|].
  destruct Hwf' as (_ & Hall & _). unfold build_store.
  assert (Hsz : TopStore.size (TopStore.new (length (idx2var b'))) =
                length (idx2var b')).
  { unfold TopStore.size, TopStore.new, TopStore.Array_new. simpl.
    apply length_replicate. }
  destruct (dom_all_spec (var2idx b') (TopStore.new (length (idx2var b'))))
    as (s & E & Hs' & _).
  { rewrite Hsz. exact Hall. }
  exists s. split; [exact E|congruence].
Qed.

Lemma builder_stays_well_formed_witness :
  wf (after (add_constraint
               (mkTree 0 (NodeOperator OLE [NodeConstant 3; NodeConstant 2])))
        sample).
Proof.
  assert (Hlen : Z.of_nat (length (idx2var
            (after (add_constraint
               (mkTree 0 (NodeOperator OLE [NodeConstant 3; NodeConstant 2])))
             sample))) < Int.limit_max) by (vm_compute; reflexivity).
  refine (proj1 (builder_stays_well_formed sample _ sample_wf Hlen _)).
  left. exists (mkTree 0 (NodeOperator OLE [NodeConstant 3; NodeConstant 2])).
  reflexivity.
Defined.

End BuilderInvariants.
